(** * Interchained consensus core: a shallow embedding and its properties

    This development embeds three parts of the node in Rocq and proves
    properties of the embedding:

    - the token ledger of [src/wallet/token.h] and [src/wallet/token.cpp]
      (wire format of a [TokenOperation], the ledger operations,
      [ApplyOperation] and [ReplayOperation]);
    - the proof-of-work engine of [src/pow.cpp] (retargeting and
      verification);
    - the coinbase construction and the package selection of
      [src/miner.cpp].

    Conventions.  A C++ [int], [int64_t] or [CAmount] is a [Z]; unsigned
    types and the 256-bit [arith_uint256] are [Z] with the wrap-around
    written out.  Signed arithmetic is exact where the operands are chain
    parameters, times and rewards: signed overflow is undefined in C++,
    and a theorem about such a quantity states the range in which none
    occurs.  The balances, allowances and supplies of the ledger, which
    an operation can push past 64 bits, carry the two's-complement
    wrap-around.  [std::map] is a [gmap], [std::set] a [gset] (visited in
    ascending order where the code loops over it), a [std::vector] a
    [list].  An exception, an assertion failure or an undefined access
    is [None]. *)

From Stdlib Require Import ZArith Lia List String Ascii Bool DecimalString Sorted.
From Stdlib.Strings Require Import Byte.
From stdpp Require Import base gmap strings list fin_maps sorting.

Local Open Scope Z_scope.

(** * Part I: definitions *)

(** ** Fixed-width integers *)

Module Ints.

(** Two's-complement reading of a 64-bit pattern ([int64_t], [CAmount]). *)
Definition wrap64 (z : Z) : Z := (z + 2 ^ 63) mod 2 ^ 64 - 2 ^ 63.

Definition to_u32 (z : Z) : Z := z mod 2 ^ 32.
Definition to_u64 (z : Z) : Z := z mod 2 ^ 64.

Definition in_int64 (z : Z) : Prop := - 2 ^ 63 <= z < 2 ^ 63.
Definition in_int64b (z : Z) : bool := (- 2 ^ 63 <=? z) && (z <? 2 ^ 63).

End Ints.
Export Ints.

(** ** Byte streams ([CDataStream]) *)

Module Ser.

(** A byte from the low eight bits of an integer. *)
Definition u8 (z : Z) : byte :=
  match Byte.of_N (Z.to_N (z mod 256)) with
  | Some b => b
  | None => x00
  end.

Definition byte_val (b : byte) : Z := Z.of_N (Byte.to_N b).

(** Little-endian fixed-width integers, [n] bytes. A negative [z] gives its
    two's-complement pattern. *)
Fixpoint le_bytes (n : nat) (z : Z) : list byte :=
  match n with
  | O => []
  | S k => u8 z :: le_bytes k (z / 256)
  end.

Fixpoint le_val (bs : list byte) : Z :=
  match bs with
  | [] => 0
  | b :: r => byte_val b + 256 * le_val r
  end.

(** Reading consumes a prefix of the stream; [None] is the
    [std::ios_base::failure] the stream throws. *)
Definition Reader (A : Type) : Type := list byte -> option (A * list byte).

Definition ret {A} (a : A) : Reader A := fun s => Some (a, s).

Definition bind {A B} (r : Reader A) (k : A -> Reader B) : Reader B :=
  fun s => match r s with
           | Some (a, s') => k a s'
           | None => None
           end.

Definition throw {A} : Reader A := fun _ => None.

Declare Scope reader_scope.
Delimit Scope reader_scope with reader.
Notation "x <- r ;; k" := (bind r (fun x => k))
  (at level 100, r at next level, right associativity) : reader_scope.

Definition read_bytes (n : nat) : Reader (list byte) :=
  fun s => if (length s <? n)%nat then None else Some (firstn n s, skipn n s).

Definition read_u8 : Reader Z :=
  fun s => match s with
           | b :: r => Some (byte_val b, r)
           | [] => None
           end.

Definition read_le (n : nat) : Reader Z :=
  (bs <- read_bytes n ;; ret (le_val bs))%reader.

Definition read_i64 : Reader Z :=
  (v <- read_le 8 ;; ret (if v <? 2 ^ 63 then v else v - 2 ^ 64))%reader.

(** Modelled from the spec: [serialize.h] is not among the sources; the
    length prefix of strings follows the Bitcoin conventions the
    specification refers to. [MAX_SIZE] is the largest length a reader
    accepts. *)
Definition MAX_SIZE : Z := 33554432.

Definition WriteCompactSize (n : Z) : list byte :=
  if n <? 253 then [u8 n]
  else if n <=? 65535 then u8 253 :: le_bytes 2 n
  else if n <=? 4294967295 then u8 254 :: le_bytes 4 n
  else u8 255 :: le_bytes 8 n.

Definition ReadCompactSize : Reader Z :=
  (chSize <- read_u8 ;;
   n <- (if chSize <? 253 then ret chSize
         else if chSize =? 253 then
           (v <- read_le 2 ;; if v <? 253 then throw else ret v)
         else if chSize =? 254 then
           (v <- read_le 4 ;; if v <? 65536 then throw else ret v)
         else
           (v <- read_le 8 ;; if v <? 4294967296 then throw else ret v)) ;;
   if MAX_SIZE <? n then throw else ret n)%reader.

Definition strlen (s : string) : Z := Z.of_nat (String.length s).

Definition ser_string (s : string) : list byte :=
  WriteCompactSize (strlen s) ++ list_byte_of_string s.

Definition read_string : Reader string :=
  (n <- ReadCompactSize ;;
   bs <- read_bytes (Z.to_nat n) ;;
   ret (string_of_list_byte bs))%reader.

End Ser.

(** ** Block headers ([primitives/block.h]) *)

Module Block.
Import Ser.

Record CBlockHeader : Type := mkHeader {
  nVersion : Z;         (* int32_t *)
  hashPrevBlock : Z;    (* uint256 *)
  hashMerkleRoot : Z;   (* uint256 *)
  nTime : Z;            (* uint32_t *)
  nBits : Z;            (* uint32_t *)
  nNonce : Z            (* uint32_t *)
}.

(** The header [SetNull] leaves, which is the default-constructed one. *)
Definition SetNull : CBlockHeader := mkHeader 0 0 0 0 0 0.

Definition IsNull (h : CBlockHeader) : bool := nBits h =? 0.

Definition GetBlockTime (h : CBlockHeader) : Z := nTime h.

(** The values the C++ types of the fields can hold. *)
Definition header_in_range (h : CBlockHeader) : bool :=
  (- 2 ^ 31 <=? nVersion h) && (nVersion h <? 2 ^ 31)
  && (0 <=? hashPrevBlock h) && (hashPrevBlock h <? 2 ^ 256)
  && (0 <=? hashMerkleRoot h) && (hashMerkleRoot h <? 2 ^ 256)
  && (0 <=? nTime h) && (nTime h <? 2 ^ 32)
  && (0 <=? nBits h) && (nBits h <? 2 ^ 32)
  && (0 <=? nNonce h) && (nNonce h <? 2 ^ 32).

(** [SerializationOp], writing: the six [READWRITE] in order. A [uint256]
    is written as its 32 bytes, the least significant first. *)
Definition Serialize (h : CBlockHeader) : list byte :=
  le_bytes 4 (nVersion h) ++ le_bytes 32 (hashPrevBlock h)
  ++ le_bytes 32 (hashMerkleRoot h) ++ le_bytes 4 (nTime h)
  ++ le_bytes 4 (nBits h) ++ le_bytes 4 (nNonce h).

(** [SerializeForHash(s, height)]: the six fields again; the height is
    not used. *)
Definition SerializeForHash (h : CBlockHeader) (height : Z) : list byte :=
  le_bytes 4 (nVersion h) ++ le_bytes 32 (hashPrevBlock h)
  ++ le_bytes 32 (hashMerkleRoot h) ++ le_bytes 4 (nTime h)
  ++ le_bytes 4 (nBits h) ++ le_bytes 4 (nNonce h).

Definition read_i32 : Reader Z :=
  (v <- read_le 4 ;; ret (if v <? 2 ^ 31 then v else v - 2 ^ 32))%reader.

(** [SerializationOp], reading. *)
Definition Unserialize : Reader CBlockHeader :=
  (version <- read_i32 ;; prev <- read_le 32 ;; root <- read_le 32 ;;
   time <- read_le 4 ;; bits <- read_le 4 ;; nonce <- read_le 4 ;;
   ret (mkHeader version prev root time bits nonce))%reader.

(** [CBlock::GetBlockHeader] copies the six fields of the block. *)
Definition GetBlockHeader (block : CBlockHeader) : CBlockHeader :=
  mkHeader (nVersion block) (hashPrevBlock block) (hashMerkleRoot block)
           (nTime block) (nBits block) (nNonce block).

End Block.

(** ** Token operations and their wire format ([wallet/token.h]) *)

Module Token.
Import Ser.

Inductive TokenOp : Type :=
  | CREATE | TRANSFER | APPROVE | TRANSFERFROM | INCREASE_ALLOWANCE
  | DECREASE_ALLOWANCE | BURN | MINT | TRANSFER_OWNERSHIP.

(** [enum class TokenOp : uint8_t]: the field holds any value of the
    underlying type (a decoded byte is cast without a check), and a
    [switch] finds a case for the nine named values only. *)
Definition TokenOp_to_u8 (t : TokenOp) : Z :=
  match t with
  | CREATE => 0 | TRANSFER => 1 | APPROVE => 2 | TRANSFERFROM => 3
  | INCREASE_ALLOWANCE => 4 | DECREASE_ALLOWANCE => 5 | BURN => 6
  | MINT => 7 | TRANSFER_OWNERSHIP => 8
  end.

Definition TokenOp_of_u8 (v : Z) : option TokenOp :=
  match v with
  | 0 => Some CREATE | 1 => Some TRANSFER | 2 => Some APPROVE
  | 3 => Some TRANSFERFROM | 4 => Some INCREASE_ALLOWANCE
  | 5 => Some DECREASE_ALLOWANCE | 6 => Some BURN | 7 => Some MINT
  | 8 => Some TRANSFER_OWNERSHIP
  | _ => None
  end.

Record TokenOperation : Type := mkOp {
  op : Z;               (* TokenOp, as its uint8_t *)
  from : string;
  to : string;
  spender : string;
  token : string;
  amount : Z;           (* CAmount *)
  name : string;
  symbol : string;
  decimals : Z;         (* uint8_t *)
  timestamp : Z;        (* int64_t *)
  signer : string;
  signature : string;
  wallet_name : string; (* not part of the wire format *)
  memo : string
}.

(** A default-constructed [TokenOperation]. *)
Definition default_op : TokenOperation :=
  mkOp 0 "" "" "" "" 0 "" "" 0 0 "" "" "" "".

(** The values the C++ types of the integer fields can hold. *)
Definition op_in_range (o : TokenOperation) : bool :=
  (0 <=? op o) && (op o <? 256) && in_int64b (amount o)
  && (0 <=? decimals o) && (decimals o <? 256) && in_int64b (timestamp o).

(** The strings a reader accepts back ([MAX_SIZE]). *)
Definition strings_readable (o : TokenOperation) : bool :=
  forallb (fun s => strlen s <=? MAX_SIZE)
    [from o; to o; spender o; token o; name o; symbol o; signer o;
     signature o; memo o].

(** The fields written before the memo flag:
    [READWRITE(op_val)] and
    [READWRITE(obj.from, obj.to, obj.spender, obj.token, obj.amount,
               obj.name, obj.symbol, obj.decimals, obj.timestamp,
               obj.signer, obj.signature)]. *)
Definition ser_fields (o : TokenOperation) : list byte :=
  [u8 (op o)] ++ ser_string (from o) ++ ser_string (to o)
  ++ ser_string (spender o) ++ ser_string (token o)
  ++ le_bytes 8 (amount o) ++ ser_string (name o) ++ ser_string (symbol o)
  ++ [u8 (decimals o)] ++ le_bytes 8 (timestamp o)
  ++ ser_string (signer o) ++ ser_string (signature o).

(** [SERIALIZE_METHODS], writing: the fields, the flag
    [hasMemo = !obj.memo.empty()], and the memo when the flag is set. *)
Definition Serialize (o : TokenOperation) : list byte :=
  ser_fields o
  ++ (if String.eqb (memo o) "" then [u8 0]
      else u8 1 :: ser_string (memo o)).

(** The twelve fields read in order into [obj]; [wallet_name] and [memo]
    keep the values [obj] had. *)
Definition read_fields (obj : TokenOperation) : Reader TokenOperation :=
  (op_val <- read_u8 ;;
   f <- read_string ;; t <- read_string ;; sp <- read_string ;;
   tk <- read_string ;; am <- read_i64 ;; nm <- read_string ;;
   sy <- read_string ;; de <- read_u8 ;; ts <- read_i64 ;;
   sg <- read_string ;; sig <- read_string ;;
   ret (mkOp op_val f t sp tk am nm sy de ts sg sig
             (wallet_name obj) (memo obj)))%reader.

Definition set_memo (o : TokenOperation) (m : string) : TokenOperation :=
  mkOp (op o) (from o) (to o) (spender o) (token o) (amount o) (name o)
       (symbol o) (decimals o) (timestamp o) (signer o) (signature o)
       (wallet_name o) m.

Definition set_wallet_name (o : TokenOperation) (w : string)
  : TokenOperation :=
  mkOp (op o) (from o) (to o) (spender o) (token o) (amount o) (name o)
       (symbol o) (decimals o) (timestamp o) (signer o) (signature o)
       w (memo o).

(** [SERIALIZE_METHODS], reading ([ss >> op]): the fields, the flag byte,
    then the memo if the flag is non-zero, else [memo.clear()]. Bytes left
    in the stream are not an error. *)
Definition Unserialize (obj : TokenOperation) : Reader TokenOperation :=
  (o <- read_fields obj ;;
   hasMemo <- read_u8 ;;
   if hasMemo =? 0 then ret (set_memo o "")
   else (m <- read_string ;; ret (set_memo o m)))%reader.

(** The fallback of [DecodeTokenOp]: the fields with no flag, then a memo
    iff the stream is not empty. *)
Definition Unserialize_legacy (obj : TokenOperation)
  : Reader TokenOperation :=
  (o <- read_fields obj ;;
   fun s => match s with
            | [] => ret (set_memo o "") s
            | _ :: _ => (m <- read_string ;; ret (set_memo o m)) s
            end)%reader.


(** A script as the successive results of [CScript::GetOp]: opcode and
    pushed data. *)
Definition CScript : Type := list (Z * list byte).

Definition OP_RETURN : Z := 106.
Definition OP_PUSHDATA1 : Z := 76.
Definition OP_PUSHDATA2 : Z := 77.
Definition OP_PUSHDATA4 : Z := 78.

(** The opcode [CScript::operator<<] emits for a push of [n] bytes. *)
Definition push_opcode (n : Z) : Z :=
  if n <? OP_PUSHDATA1 then n
  else if n <=? 255 then OP_PUSHDATA1
  else if n <=? 65535 then OP_PUSHDATA2
  else OP_PUSHDATA4.

(** [script << OP_RETURN << ToByteVector(ss)] of
    [RecordOperationOnChain]. *)
Definition op_return_script (data : list byte) : CScript :=
  [(OP_RETURN, []); (push_opcode (Z.of_nat (length data)), data)].

(** [DecodeTokenOp(script, op)]: [None] is [return false], [Some o] is
    [return true] with [op] left as [o]. *)
Definition DecodeTokenOp (script : CScript) (obj : TokenOperation)
  : option TokenOperation :=
  match script with
  | (opcode1, _) :: (opcode2, data) :: _ =>
      if negb (opcode1 =? OP_RETURN) then None
      else match data with
           | [] => None
           | _ :: _ =>
               if OP_PUSHDATA4 <? opcode2 then None
               else match Unserialize obj data with
                    | Some (o, _) => Some o
                    | None =>
                        match Unserialize_legacy obj data with
                        | Some (o, _) => Some o
                        | None => None
                        end
                    end
           end
  | _ => None
  end.

(** [%d] of an integer. *)
Definition dec (z : Z) : string := NilZero.string_of_int (Z.to_int z).

(** [BuildTokenMsg]: the canonical message that is signed. *)
Definition BuildTokenMsg (o : TokenOperation) : string :=
  let msg :=
    ("op=" ++ dec (op o) ++ "|from=" ++ from o ++ "|to=" ++ to o
     ++ "|spender=" ++ spender o ++ "|token=" ++ token o
     ++ "|amount=" ++ dec (amount o) ++ "|name=" ++ name o
     ++ "|symbol=" ++ symbol o ++ "|decimals=" ++ dec (decimals o)
     ++ "|timestamp=" ++ dec (timestamp o))%string in
  if String.eqb (memo o) "" then msg else (msg ++ "|memo=" ++ memo o)%string.

End Token.

(** ** The token ledger ([wallet/token.cpp]) *)

Module Ledger.
Import Ser Token.

Record TokenMeta : Type := mkMeta {
  meta_name : string;
  meta_symbol : string;
  meta_decimals : Z;
  operator_wallet : string;
  creation_height : Z
}.

(** [AllowanceKey {owner, spender, token}], ordered as the tuple. *)
Abbreviation AllowanceKey := (string * string * string)%type (only parsing).

(** The fields of [TokenLedger] that [ApplyOperation] and
    [ReplayOperation] read or write. The uint256 hashes of [m_seen_ops] are
    integers. *)
Record TokenLedger : Type := mkLedger {
  m_balances : gmap (string * string) Z;
  m_allowances : gmap AllowanceKey Z;
  m_totalSupply : gmap string Z;
  m_token_meta : gmap string TokenMeta;
  m_seen_ops : gset Z;
  m_history : gmap string (list TokenOperation);
  m_governance_fees : Z;
  m_fee_per_vbyte : Z;
  m_create_fee_per_vbyte : Z
}.

Definition TOKEN_DEFAULT_FEE_PER_VBYTE : Z := 10000.
Definition TOKEN_CREATE_FEE_PER_VBYTE : Z := 10000000.
Definition TOKEN_MIN_GOV_FEE : Z := 7500000.

Definition empty_ledger : TokenLedger :=
  mkLedger ∅ ∅ ∅ ∅ ∅ ∅ 0 TOKEN_DEFAULT_FEE_PER_VBYTE
           TOKEN_CREATE_FEE_PER_VBYTE.

Definition with_balances (l : TokenLedger) (b : gmap (string * string) Z)
  : TokenLedger :=
  mkLedger b (m_allowances l) (m_totalSupply l) (m_token_meta l)
           (m_seen_ops l) (m_history l) (m_governance_fees l)
           (m_fee_per_vbyte l) (m_create_fee_per_vbyte l).

Definition with_allowances (l : TokenLedger) (a : gmap AllowanceKey Z)
  : TokenLedger :=
  mkLedger (m_balances l) a (m_totalSupply l) (m_token_meta l)
           (m_seen_ops l) (m_history l) (m_governance_fees l)
           (m_fee_per_vbyte l) (m_create_fee_per_vbyte l).

Definition with_totalSupply (l : TokenLedger) (s : gmap string Z)
  : TokenLedger :=
  mkLedger (m_balances l) (m_allowances l) s (m_token_meta l)
           (m_seen_ops l) (m_history l) (m_governance_fees l)
           (m_fee_per_vbyte l) (m_create_fee_per_vbyte l).

Definition with_token_meta (l : TokenLedger) (m : gmap string TokenMeta)
  : TokenLedger :=
  mkLedger (m_balances l) (m_allowances l) (m_totalSupply l) m
           (m_seen_ops l) (m_history l) (m_governance_fees l)
           (m_fee_per_vbyte l) (m_create_fee_per_vbyte l).

Definition with_seen_ops (l : TokenLedger) (s : gset Z) : TokenLedger :=
  mkLedger (m_balances l) (m_allowances l) (m_totalSupply l)
           (m_token_meta l) s (m_history l) (m_governance_fees l)
           (m_fee_per_vbyte l) (m_create_fee_per_vbyte l).

Definition with_history (l : TokenLedger)
  (h : gmap string (list TokenOperation)) : TokenLedger :=
  mkLedger (m_balances l) (m_allowances l) (m_totalSupply l)
           (m_token_meta l) (m_seen_ops l) h (m_governance_fees l)
           (m_fee_per_vbyte l) (m_create_fee_per_vbyte l).

Definition with_governance_fees (l : TokenLedger) (f : Z) : TokenLedger :=
  mkLedger (m_balances l) (m_allowances l) (m_totalSupply l)
           (m_token_meta l) (m_seen_ops l) (m_history l) f
           (m_fee_per_vbyte l) (m_create_fee_per_vbyte l).

(** [std::map::operator[]]: the entry is value-initialised to 0 when the
    key is absent. [touch] is the map after the access, [at0] the value
    the reference then designates. *)
Definition touch `{Countable K} (m : gmap K Z) (k : K) : gmap K Z :=
  match m !! k with
  | Some _ => m
  | None => <[k := 0]> m
  end.

Definition at0 `{Countable K} (m : gmap K Z) (k : K) : Z :=
  default 0 (m !! k).

(** [m[k] += v] on 64-bit amounts. *)
Definition add_at `{Countable K} (m : gmap K Z) (k : K) (v : Z)
  : gmap K Z :=
  <[k := wrap64 (at0 m k + v)]> m.

(** [CTxDestination], with the key and script hashes as integers. *)
Inductive CTxDestination : Type :=
  | CNoDestination
  | PKHash (h : Z)
  | ScriptHash (h : Z)
  | WitnessV0ScriptHash (h : Z)
  | WitnessV0KeyHash (h : Z)
  | WitnessUnknown.

Definition IsValidDestination (d : CTxDestination) : bool :=
  match d with
  | CNoDestination => false
  | _ => true
  end.

Inductive MessageVerificationResult : Type :=
  | ERR_INVALID_ADDRESS
  | ERR_ADDRESS_NO_KEY
  | ERR_MALFORMED_SIGNATURE
  | ERR_PUBKEY_NOT_RECOVERED
  | ERR_NOT_SIGNED
  | OK.

(** What the ledger needs from the rest of the node: address decoding
    ([key_io]), base-64 decoding, the double SHA-256 of a hash writer
    ([hash.h]), public-key recovery from a compact signature and the
    160-bit hash of a public key ([pubkey]), the wallet payment of the
    governance fee, and the height of the active chain. *)
Class Node : Type := {
  DecodeDestination : string -> CTxDestination;
  DecodeBase64ToBytes : string -> option (list byte);
  Hash256 : list byte -> Z;
  RecoverCompact : Z -> list byte -> option (list byte);
  Hash160 : list byte -> Z;
  SendGovernanceFee : string -> Z -> bool;
  ChainActiveHeight : Z
}.

(** What [MessageSign] takes from a private key ([key.h]) and from
    [util/strencodings.h]: the compact signature of a digest, [None] when
    signing fails, and the base-64 text of bytes. *)
Class Signer (CKey : Type) : Type := {
  SignCompact : CKey -> Z -> option (list byte);
  EncodeBase64 : list byte -> string
}.

Section WithNode.
Context `{Node}.

(** The text that prefixes a signed message; it ends in a newline. *)
Definition MESSAGE_MAGIC : string :=
  ("Interchained Signed Message:" ++ String "010" "")%string.

(** [MessageHash] ([util/message.cpp]): the hash of the magic and the
    message, each written as a string. *)
Definition MessageHash (message : string) : Z :=
  Hash256 (ser_string MESSAGE_MAGIC ++ ser_string message).

(** [MessageVerify] ([util/message.cpp]). *)
Definition MessageVerify (address signature message : string)
  : MessageVerificationResult :=
  let destination := DecodeDestination address in
  if negb (IsValidDestination destination) then ERR_INVALID_ADDRESS
  else
    match destination with
    | PKHash _ | WitnessV0KeyHash _ =>
        match DecodeBase64ToBytes signature with
        | None => ERR_MALFORMED_SIGNATURE
        | Some signature_bytes =>
            match RecoverCompact (MessageHash message) signature_bytes with
            | None => ERR_PUBKEY_NOT_RECOVERED
            | Some pubkey =>
                match destination with
                | PKHash h | WitnessV0KeyHash h =>
                    if negb (Hash160 pubkey =? h) then ERR_NOT_SIGNED else OK
                | _ => ERR_ADDRESS_NO_KEY
                end
            end
        end
    | _ => ERR_ADDRESS_NO_KEY
    end.

(** [MessageSign] ([util/message.cpp]): [None] is [return false], [Some]
    the signature it leaves in [signature]. *)
Definition MessageSign `{Signer CKey} (privkey : CKey) (message : string)
  : option string :=
  match SignCompact privkey (MessageHash message) with
  | None => None
  | Some signature_bytes => Some (EncodeBase64 signature_bytes)
  end.

(** [SerializeHash] of an operation. *)
Definition SerializeHash (o : TokenOperation) : Z := Hash256 (Serialize o).

(** [TokenOperationHash]: the hash of the operation with [signature] and
    [signer] cleared. *)
Definition TokenOperationHash (o : TokenOperation) : Z :=
  let tmp :=
    mkOp (op o) (from o) (to o) (spender o) (token o) (amount o) (name o)
         (symbol o) (decimals o) (timestamp o) "" "" (wallet_name o)
         (memo o) in
  SerializeHash tmp.

Definition VerifySignature (o : TokenOperation) : bool :=
  if negb (IsValidDestination (DecodeDestination (signer o))) then false
  else
    match MessageVerify (signer o) (signature o) (BuildTokenMsg o) with
    | OK =>
        let expected :=
          if op o =? TokenOp_to_u8 TRANSFERFROM then spender o else from o in
        if negb (String.eqb (signer o) expected) then false else true
    | _ => false
    end.

Definition RegisterToken (l : TokenLedger) (tk nm sy : string) (de : Z)
  (owner : string) (height : Z) : TokenLedger :=
  with_token_meta l (<[tk := mkMeta nm sy de owner height]> (m_token_meta l)).

Definition CreateToken (l : TokenLedger) (wallet tk : string) (amt : Z)
  (nm sy : string) (de : Z) (height : Z) : TokenLedger :=
  let l1 := with_balances l (add_at (m_balances l) (wallet, tk) amt) in
  let l2 := with_totalSupply l1 (add_at (m_totalSupply l1) tk amt) in
  match m_token_meta l2 !! tk with
  | None => RegisterToken l2 tk nm sy de wallet height
  | Some _ => l2
  end.

Definition Balance (l : TokenLedger) (wallet tk : string) : Z :=
  at0 (m_balances l) (wallet, tk).

Definition Allowance (l : TokenLedger) (owner sp tk : string) : Z :=
  at0 (m_allowances l) (owner, sp, tk).

Definition TotalSupply (l : TokenLedger) (tk : string) : Z :=
  at0 (m_totalSupply l) tk.

Definition Approve (l : TokenLedger) (owner sp tk : string) (amt : Z)
  : TokenLedger :=
  with_allowances l (<[(owner, sp, tk) := amt]> (m_allowances l)).

Definition IncreaseAllowance (l : TokenLedger) (owner sp tk : string)
  (amt : Z) : TokenLedger :=
  with_allowances l (add_at (m_allowances l) (owner, sp, tk) amt).

Definition DecreaseAllowance (l : TokenLedger) (owner sp tk : string)
  (amt : Z) : TokenLedger :=
  let a := touch (m_allowances l) (owner, sp, tk) in
  let val := at0 a (owner, sp, tk) in
  if val <=? amt then with_allowances l (delete (owner, sp, tk) a)
  else with_allowances l (<[(owner, sp, tk) := wrap64 (val - amt)]> a).

Definition Transfer (l : TokenLedger) (fr t tk : string) (amt : Z)
  : TokenLedger * bool :=
  let b := touch (m_balances l) (fr, tk) in
  let from_bal := at0 b (fr, tk) in
  if from_bal <? amt then (with_balances l b, false)
  else
    let b1 := <[(fr, tk) := wrap64 (from_bal - amt)]> b in
    (with_balances l (add_at b1 (t, tk) amt), true).

Definition TransferFrom (l : TokenLedger) (sp fr t tk : string) (amt : Z)
  : TokenLedger * bool :=
  let key := (fr, sp, tk) in
  match m_allowances l !! key with
  | None => (l, false)
  | Some allowed =>
      if allowed <? amt then (l, false)
      else
        let b := touch (m_balances l) (fr, tk) in
        let from_bal := at0 b (fr, tk) in
        if from_bal <? amt then (with_balances l b, false)
        else
          let b1 := <[(fr, tk) := wrap64 (from_bal - amt)]> b in
          let l1 := with_balances l (add_at b1 (t, tk) amt) in
          (with_allowances l1
             (<[key := wrap64 (allowed - amt)]> (m_allowances l1)), true)
  end.

Definition Burn (l : TokenLedger) (wallet tk : string) (amt : Z)
  : TokenLedger * bool :=
  match m_token_meta l !! tk with
  | None => (l, false)
  | Some _ =>
      let b := touch (m_balances l) (wallet, tk) in
      let bal := at0 b (wallet, tk) in
      if bal <? amt then (with_balances l b, false)
      else
        let l1 :=
          with_balances l (<[(wallet, tk) := wrap64 (bal - amt)]> b) in
        (with_totalSupply l1 (add_at (m_totalSupply l1) tk (- amt)), true)
  end.

Definition Mint (l : TokenLedger) (wallet tk : string) (amt : Z)
  : TokenLedger * bool :=
  match m_token_meta l !! tk with
  | None => (l, false)
  | Some _ =>
      let l1 := with_balances l (add_at (m_balances l) (wallet, tk) amt) in
      (with_totalSupply l1 (add_at (m_totalSupply l1) tk amt), true)
  end.

Definition TransferOwnership (l : TokenLedger) (fr t tk : string)
  : TokenLedger * bool :=
  match m_token_meta l !! tk with
  | None => (l, false)
  | Some m =>
      if negb (String.eqb (operator_wallet m) fr) then (l, false)
      else
        (with_token_meta l
           (<[tk := mkMeta (meta_name m) (meta_symbol m) (meta_decimals m)
                           t (creation_height m)]> (m_token_meta l)), true)
  end.

(** The [switch (op.op)] shared by [ApplyOperation] and
    [ReplayOperation]; [height] is the creation height a CREATE records.
    The two [return false] of the BURN and MINT cases are the result
    [false]: nothing below the switch runs when [ok] is false. A value
    with no case leaves [ok] true. *)
Definition dispatch (l : TokenLedger) (o : TokenOperation) (height : Z)
  : TokenLedger * bool :=
  match TokenOp_of_u8 (op o) with
  | Some CREATE =>
      (CreateToken l (from o) (token o) (amount o) (name o) (symbol o)
                   (decimals o) height, true)
  | Some TRANSFER => Transfer l (from o) (to o) (token o) (amount o)
  | Some APPROVE => (Approve l (from o) (to o) (token o) (amount o), true)
  | Some TRANSFERFROM =>
      TransferFrom l (spender o) (from o) (to o) (token o) (amount o)
  | Some INCREASE_ALLOWANCE =>
      (IncreaseAllowance l (from o) (to o) (token o) (amount o), true)
  | Some DECREASE_ALLOWANCE =>
      (DecreaseAllowance l (from o) (to o) (token o) (amount o), true)
  | Some BURN =>
      match m_token_meta l !! token o with
      | None => (l, false)
      | Some _ => Burn l (from o) (token o) (amount o)
      end
  | Some MINT =>
      match m_token_meta l !! token o with
      | None => (l, false)
      | Some m =>
          if negb (String.eqb (operator_wallet m) (from o)) then (l, false)
          else Mint l (from o) (token o) (amount o)
      end
  | Some TRANSFER_OWNERSHIP =>
      TransferOwnership l (from o) (to o) (token o)
  | None => (l, true)
  end.

Definition push_history (l : TokenLedger) (o : TokenOperation)
  : TokenLedger :=
  with_history l
    (<[token o := default [] (m_history l !! token o) ++ [o]]> (m_history l)).

(** [ApplyOperation(op, wallet_name, broadcast)]. The database flush, the
    on-chain record and the network broadcast do not change the ledger. *)
Definition ApplyOperation (l : TokenLedger) (o : TokenOperation)
  (wallet : string) (broadcast : bool) : TokenLedger * bool :=
  if negb (VerifySignature o) then (l, false)
  else
    let hash := TokenOperationHash o in
    if decide (hash ∈ m_seen_ops l) then (l, false)
    else
      let l0 := with_seen_ops l ({[hash]} ∪ m_seen_ops l) in
      let '(l1, ok) := dispatch l0 o ChainActiveHeight in
      if ok then
        let vsize := Z.of_nat (length (Serialize o)) in
        let rate :=
          if op o =? TokenOp_to_u8 CREATE then m_create_fee_per_vbyte l1
          else m_fee_per_vbyte l1 in
        let fee0 := wrap64 (vsize * rate) in
        let fee := if fee0 <? TOKEN_MIN_GOV_FEE then TOKEN_MIN_GOV_FEE
                   else fee0 in
        let l2 :=
          if broadcast && negb (String.eqb wallet "")
             && SendGovernanceFee wallet fee
          then with_governance_fees l1 (wrap64 (m_governance_fees l1 + fee))
          else l1 in
        (push_history l2 o, true)
      else (l1, false).

(** [ReplayOperation(op, height)]. *)
Definition ReplayOperation (l : TokenLedger) (o : TokenOperation)
  (height : Z) : TokenLedger * bool :=
  if negb (VerifySignature o) then (l, false)
  else
    let hash := TokenOperationHash o in
    if decide (hash ∈ m_seen_ops l) then (l, false)
    else
      let l0 := with_seen_ops l ({[hash]} ∪ m_seen_ops l) in
      let '(l1, ok) := dispatch l0 o height in
      if ok then (push_history l1 o, true) else (l1, false).

(** *** Queries *)

(** [GetBalance] is the same lookup as [Balance]. *)
Definition GetBalance (l : TokenLedger) (wallet tk : string) : Z :=
  match m_balances l !! (wallet, tk) with
  | None => 0
  | Some v => v
  end.

Definition GovernanceBalance (l : TokenLedger) : Z := m_governance_fees l.

Definition GetTokenMeta (l : TokenLedger) (tk : string) : option TokenMeta :=
  m_token_meta l !! tk.

(** The test of the loop of [TokenHistory]: with a non-empty filter an
    operation is skipped unless the address is its sender, its recipient
    or its spender. *)
Definition history_match (address_filter : string) (o : TokenOperation)
  : bool :=
  if negb (String.eqb address_filter "") then
    if negb (String.eqb (from o) address_filter)
       && negb (String.eqb (to o) address_filter)
       && negb (String.eqb (spender o) address_filter)
    then false else true
  else true.

Definition TokenHistory (l : TokenLedger) (tk address_filter : string)
  : list TokenOperation :=
  match m_history l !! tk with
  | None => []
  | Some ops => List.filter (history_match address_filter) ops
  end.

(** The loop of [GetTokenTxMemo]: the memo of the first operation with
    the given hash. *)
Fixpoint first_memo (ops : list TokenOperation) (hash : Z) : string :=
  match ops with
  | [] => ""
  | o :: rest =>
      if TokenOperationHash o =? hash then memo o else first_memo rest hash
  end.

Definition GetTokenTxMemo (l : TokenLedger) (tk : string) (hash : Z)
  : string :=
  match m_history l !! tk with
  | None => ""
  | Some ops => first_memo ops hash
  end.

Definition SetFeeRate (l : TokenLedger) (fee_per_vbyte : Z) : TokenLedger :=
  mkLedger (m_balances l) (m_allowances l) (m_totalSupply l)
           (m_token_meta l) (m_seen_ops l) (m_history l)
           (m_governance_fees l) fee_per_vbyte (m_create_fee_per_vbyte l).

Definition FeeRate (l : TokenLedger) : Z := m_fee_per_vbyte l.

(** *** Blocks *)

(** Of a transaction the ledger reads the scripts of its outputs, of a
    block its transactions. *)
Abbreviation CTransaction := (list CScript) (only parsing).
Abbreviation CBlock := (list (list CScript)) (only parsing).

(** The body of the two nested loops of [ProcessBlock] and
    [RescanFromHeight]: a fresh [TokenOperation op], decoded from the
    script and replayed when the decoding succeeds; the result of the
    replay is not looked at. *)
Definition replay_output (height : Z) (l : TokenLedger) (script : CScript)
  : TokenLedger :=
  match DecodeTokenOp script default_op with
  | Some o => fst (ReplayOperation l o height)
  | None => l
  end.

Definition replay_block (l : TokenLedger) (block : CBlock) (height : Z)
  : TokenLedger :=
  fold_left (fun l tx => fold_left (replay_output height) tx l) block l.

(** [ProcessBlock(block, height)]: the ledger, and [m_tip_height]. *)
Definition ProcessBlock (l : TokenLedger) (block : CBlock) (height : Z)
  : TokenLedger * Z :=
  (replay_block l block height, height).

(** What [RescanFromHeight] clears: every map, the set of seen hashes and
    the collected fees; the two fee rates stay. *)
Definition cleared (l : TokenLedger) : TokenLedger :=
  mkLedger ∅ ∅ ∅ ∅ ∅ ∅ 0 (m_fee_per_vbyte l) (m_create_fee_per_vbyte l).

(** The heights [from_height], [from_height + 1], ..., [tip] of the loop
    of [RescanFromHeight]. *)
Definition heights (from_height tip : Z) : list Z :=
  List.map (fun i => from_height + Z.of_nat i)
           (seq 0 (Z.to_nat (tip + 1 - from_height))).

(** [RescanFromHeight(from_height)]: the ledger, and [m_tip_height].
    [TokenActivationHeight] is the chain parameter, [block_at h] what
    [ChainActive()[h]] and [ReadBlockFromDisk] give at height [h], [None]
    when either fails. *)
Definition RescanFromHeight (TokenActivationHeight : Z)
  (block_at : Z -> option CBlock) (l : TokenLedger) (from_height : Z)
  : TokenLedger * Z :=
  let from_height :=
    if from_height <? TokenActivationHeight then TokenActivationHeight
    else from_height in
  (fold_left (fun l h => match block_at h with
                         | None => l
                         | Some block => replay_block l block h
                         end)
             (heights from_height ChainActiveHeight) (cleared l),
   ChainActiveHeight).

End WithNode.

End Ledger.

(** ** 256-bit unsigned arithmetic and the compact target encoding *)

Module Arith256.

(** Modelled from the spec: [arith_uint256.h] and [arith_uint256.cpp] are
    not among the sources. The specification states that all retargeting
    operates in 256-bit arithmetic and that the compact encoding follows
    the Bitcoin conventions; the operators below are those of Bitcoin's
    [base_uint<256>]: results are reduced modulo 2^256, a multiplication by
    a built-in integer converts it to [uint32_t], a division converts a
    built-in divisor to [uint64_t] and throws on zero. *)
Definition wrap256 (z : Z) : Z := z mod 2 ^ 256.

Definition add256 (a b : Z) : Z := wrap256 (a + b).
Definition sub256 (a b : Z) : Z := wrap256 (a - b).

(** [a * b] and [a *= b] for a built-in integer [b]. *)
Definition mul32 (a b : Z) : Z := wrap256 (a * to_u32 b).

(** [a / b] and [a /= b] for a built-in integer [b]; [None] is the
    [uint_error] thrown on a zero divisor. *)
Definition div64 (a b : Z) : option Z :=
  if to_u64 b =? 0 then None else Some (a / to_u64 b).

(** [bits()]: the position of the highest set bit plus one, 0 for 0. *)
Definition bits (a : Z) : Z := if a =? 0 then 0 else Z.log2 a + 1.

(** [SetCompact(nCompact, &fNegative, &fOverflow)]: the value, and the two
    flags. *)
Definition SetCompact_full (nCompact : Z) : Z * bool * bool :=
  let nSize := Z.shiftr nCompact 24 in
  let nWord0 := Z.land nCompact 8388607 in
  let nWord := if nSize <=? 3 then Z.shiftr nWord0 (8 * (3 - nSize))
               else nWord0 in
  let value := if nSize <=? 3 then nWord
               else wrap256 (Z.shiftl nWord (8 * (nSize - 3))) in
  let fNegative :=
    negb (nWord =? 0) && negb (Z.land nCompact 8388608 =? 0) in
  let fOverflow :=
    negb (nWord =? 0)
    && ((34 <? nSize) || ((255 <? nWord) && (33 <? nSize))
        || ((65535 <? nWord) && (32 <? nSize))) in
  (value, fNegative, fOverflow).

Definition SetCompact (nCompact : Z) : Z := fst (fst (SetCompact_full nCompact)).

(** [GetCompact()] with [fNegative = false]. *)
Definition GetCompact (a : Z) : Z :=
  let nSize := (bits a + 7) / 8 in
  let nCompact0 :=
    if nSize <=? 3 then to_u32 (Z.shiftl (to_u64 a) (8 * (3 - nSize)))
    else to_u32 (to_u64 (Z.shiftr a (8 * (nSize - 3)))) in
  let '(nCompact1, nSize1) :=
    if negb (Z.land nCompact0 8388608 =? 0)
    then (Z.shiftr nCompact0 8, nSize + 1)
    else (nCompact0, nSize) in
  Z.lor nCompact1 (to_u32 (Z.shiftl nSize1 24)).

End Arith256.

(** ** Proof of work: retargeting and verification ([pow.cpp]) *)

Module Pow.
Import Arith256.

(** [Consensus::Params], the members [pow.cpp] reads. *)
Record Params : Type := mkParams {
  powLimit : Z;
  powLimitYespower : Z;
  hashGenesisBlock : Z;
  yespowerForkHeight : Z;
  nextDifficultyForkHeight : Z;
  nextDifficultyFork2Height : Z;
  nextDifficultyFork3Height : Z;
  nextDifficultyFork5Height : Z;
  nPowTargetSpacing : Z;
  nPowTargetTimespan : Z;
  fPowAllowMinDifficultyBlocks : bool;
  fPowNoRetargeting : bool
}.

(** [CBlockIndex]: a block record; [pprev] is the rest of the list, the
    tip comes first and [nullptr] is the empty list. *)
Record CBlockIndex : Type := mkIndex {
  nHeight : Z;
  nTime : Z;   (* uint32_t; GetBlockTime() is (int64_t)nTime *)
  nBits : Z    (* uint32_t *)
}.

Definition GetBlockTime (b : CBlockIndex) : Z := nTime b.

Definition pprev (c : list CBlockIndex) : list CBlockIndex := tl c.

(** [Params::DifficultyAdjustmentInterval()]:
    [nPowTargetTimespan / nPowTargetSpacing]. *)
Definition DifficultyAdjustmentInterval (p : Params) : Z :=
  Z.quot (nPowTargetTimespan p) (nPowTargetSpacing p).

(** [CBlockIndex::GetAncestor(height)], by walking [pprev]. *)
Fixpoint GetAncestor (c : list CBlockIndex) (height : Z)
  : option CBlockIndex :=
  match c with
  | [] => None
  | b :: prev =>
      if (nHeight b <? height) || (height <? 0) then None
      else if nHeight b =? height then Some b
      else GetAncestor prev height
  end.

(** The limit in force for the block after [tip]. *)
Definition active_limit (p : Params) (nextHeight : Z) : Z :=
  if yespowerForkHeight p <=? nextHeight then powLimitYespower p
  else powLimit p.

Definition CalculateNextWorkRequired (pindexLast : CBlockIndex)
  (nFirstBlockTime : Z) (p : Params) : option Z :=
  if fPowNoRetargeting p then Some (nBits pindexLast)
  else
    let span0 := GetBlockTime pindexLast - nFirstBlockTime in
    let span1 := if span0 <? Z.quot (nPowTargetTimespan p) 4
                 then Z.quot (nPowTargetTimespan p) 4 else span0 in
    let span2 := if nPowTargetTimespan p * 4 <? span1
                 then nPowTargetTimespan p * 4 else span1 in
    bnNew ← div64 (mul32 (SetCompact (nBits pindexLast)) span2)
                   (nPowTargetTimespan p);
    Some (GetCompact (if powLimit p <? bnNew then powLimit p else bnNew)).

(** The [while] of the testnet rule: back to the last block that is not a
    special minimum-difficulty block. *)
Fixpoint last_non_special (c : list CBlockIndex) (interval limitBits : Z)
  (pindex : CBlockIndex) : Z :=
  match c with
  | [] => nBits pindex
  | b :: prev =>
      if negb (Z.rem (nHeight pindex) interval =? 0)
         && (nBits pindex =? limitBits)
      then last_non_special prev interval limitBits b
      else nBits pindex
  end.

(** What the floating-point part of DGW3-Nova contributes. For a last
    solve time [a] above the spacing [T] the code computes
    [decayFactor = min(pow(min(6.0, double(a) / T), 0.45), 2.0)];
    [decayFactor_u64 a T] is [None] when that double is not above 1.0 and
    otherwise the integer it converts to where it divides a 256-bit
    value. *)
Class FloatingPoint : Type := {
  decayFactor_u64 : Z -> Z -> option Z
}.

(** The first loop of the two DGW3 variants: the running average of the
    targets and the sum of the block intervals over at most [n] blocks.
    [avg] is both [pastDifficultyAverage] and
    [pastDifficultyAveragePrev], which are equal between iterations. *)
Fixpoint dgw_loop (n : nat) (i : Z) (pindex : list CBlockIndex)
  (avg actualTimespan lastBlockTime : Z) : option (Z * Z) :=
  match n with
  | O => Some (avg, actualTimespan)
  | S n' =>
      match pindex with
      | [] => Some (avg, actualTimespan)
      | b :: prev =>
          let cur := SetCompact (nBits b) in
          avg' ← (if i =? 0 then Some cur
                  else div64 (add256 (mul32 avg i) cur) (i + 1));
          let span := if 0 <? lastBlockTime
                      then actualTimespan + (lastBlockTime - GetBlockTime b)
                      else actualTimespan in
          dgw_loop n' (i + 1) prev avg' span (GetBlockTime b)
      end
  end.

(** The targets of up to [n] blocks from [cursor] back, stopping at a
    block with no predecessor. *)
Fixpoint past_diffs (n : nat) (cursor : list CBlockIndex) : list Z :=
  match n with
  | O => []
  | S n' =>
      match cursor with
      | b :: ((_ :: _) as prev) => SetCompact (nBits b) :: past_diffs n' prev
      | _ => []
      end
  end.

Fixpoint insert_sorted (x : Z) (l : list Z) : list Z :=
  match l with
  | [] => [x]
  | y :: r => if x <=? y then x :: l else y :: insert_sorted x r
  end.

(** [std::sort] on integers. *)
Definition sort (l : list Z) : list Z := fold_right insert_sorted [] l.

Definition clamp (lo hi x : Z) : Z :=
  let x1 := if x <? lo then lo else x in
  if hi <? x1 then hi else x1.

Section WithFloatingPoint.
Context `{FloatingPoint}.

Definition DarkGravityWave3Nova (pindexLast : list CBlockIndex) (p : Params)
  : option Z :=
  match pindexLast with
  | [] => None
  | tip :: _ =>
    let nextHeight := nHeight tip + 1 in
    let v9 := nextDifficultyFork5Height p <=? nextHeight in
    let nPastBlocks : Z := if v9 then 12 else 24 in
    let limit := active_limit p nextHeight in
    if nextHeight <? nPastBlocks then Some (GetCompact limit)
    else
      '(pastDifficultyAverage, unclampedActualTimespan) ←
        dgw_loop (Z.to_nat nPastBlocks) 0 pindexLast 0 0 0;
      let targetTimespan := nPastBlocks * nPowTargetSpacing p in
      let minTimespanClamp := Z.quot targetTimespan 3 in
      let maxTimespanClamp := targetTimespan * 3 in
      let emergencyClamp := if v9 then Z.quot targetTimespan 3
                            else Z.quot targetTimespan 6 in
      let minSolveClamp := if v9 then Z.quot targetTimespan 4
                           else Z.quot targetTimespan 8 in
      let minSolveTime := 12 in
      prev ← head (pprev pindexLast);
      let actualSolveTime := GetBlockTime tip - GetBlockTime prev in
      let triggered :=
        if v9 then (actualSolveTime <? 2 * minSolveTime)
                   && (unclampedActualTimespan <? Z.quot targetTimespan 6)
        else (actualSolveTime <? minSolveTime)
             || (unclampedActualTimespan <? Z.quot targetTimespan 6) in
      let span1 :=
        if triggered && (nextDifficultyFork3Height p <=? nextHeight)
        then Z.min unclampedActualTimespan
                   (Z.min emergencyClamp minSolveClamp)
        else unclampedActualTimespan in
      let actualTimespan :=
        if v9 then
          if negb triggered then clamp minTimespanClamp maxTimespanClamp span1
          else span1
        else clamp minTimespanClamp maxTimespanClamp span1 in
      (* [nextHeight >= v9] compares the height with the boolean *)
      let past_v9 := (if v9 then 1 else 0) <=? nextHeight in
      let decay :=
        if past_v9 && (nPowTargetSpacing p <? actualSolveTime)
        then decayFactor_u64 actualSolveTime (nPowTargetSpacing p)
        else None in
      let difficultySmoothing :=
        if v9 then
          let pastDiffs := sort (past_diffs 5 pindexLast) in
          nth (length pastDiffs / 2)%nat pastDiffs 0
        else pastDifficultyAverage in
      baseline ← div64 (mul32 difficultySmoothing actualTimespan)
                        targetTimespan;
      newDifficulty ←
        (match decay with
         | Some d =>
             if past_v9 then
               let diffToPrevious :=
                 if difficultySmoothing <? baseline
                 then sub256 baseline difficultySmoothing else 0 in
               q ← div64 diffToPrevious d;
               Some (sub256 baseline q)
             else Some baseline
         | None => Some baseline
         end);
      let bnPowLimit := if 1 <=? nextHeight then powLimitYespower p
                        else powLimit p in
      let capped := if (nextHeight <=? 1) && (bnPowLimit <? newDifficulty)
                    then bnPowLimit else newDifficulty in
      Some (GetCompact capped)
  end.

(** The [int64_t] quantities [targetTimespan], its third and its triple
    are exact: they stay within 64 bits for a spacing whose 72-fold is
    below 2^63. *)
Definition DarkGravityWave3 (pindexLast : list CBlockIndex) (p : Params)
  : option Z :=
  match pindexLast with
  | [] => None
  | tip :: _ =>
    let nPastBlocks : Z := 24 in
    let nextHeight := nHeight tip + 1 in
    if nextHeight <? nPastBlocks
    then Some (GetCompact (active_limit p nextHeight))
    else
      '(pastDifficultyAverage, span0) ←
        dgw_loop (Z.to_nat nPastBlocks) 0 pindexLast 0 0 0;
      let targetTimespan := nPastBlocks * nPowTargetSpacing p in
      let span1 := if span0 <? Z.quot targetTimespan 3
                   then Z.quot targetTimespan 3 else span0 in
      let span2 := if targetTimespan * 3 <? span1
                   then targetTimespan * 3 else span1 in
      newDifficulty ← div64 (mul32 pastDifficultyAverage span2)
                             targetTimespan;
      let bnPowLimit := active_limit p nextHeight in
      let capped := if (nextHeight <=? 5879) && (bnPowLimit <? newDifficulty)
                    then bnPowLimit else newDifficulty in
      Some (GetCompact capped)
  end.

(** The loop of [Lwma3]: the weighted sums [t] of clipped solve times and
    [sumTarget] of targets over at most [n] blocks, block [i] (0 is the
    tip) weighing [i + 1]. *)
Fixpoint lwma_loop (n : nat) (i : Z) (pindex : list CBlockIndex) (T : Z)
  (t sumTarget : Z) : Z * Z :=
  match n with
  | O => (t, sumTarget)
  | S n' =>
      match pindex with
      | b :: ((pb :: _) as prev) =>
          let solvetime0 := GetBlockTime b - GetBlockTime pb in
          let solvetime1 := if 6 * T <? solvetime0 then 6 * T
                            else solvetime0 in
          let solvetime := if solvetime1 <? - 6 * T then - 6 * T
                           else solvetime1 in
          let weight := i + 1 in
          lwma_loop n' (i + 1) prev T (t + solvetime * weight)
                    (add256 sumTarget (mul32 (SetCompact (nBits b)) weight))
      | _ => (t, sumTarget)
      end
  end.

Definition Lwma3 (pindexLast : list CBlockIndex) (p : Params) : option Z :=
  match pindexLast with
  | [] => None
  | tip :: _ =>
    let N : Z := 60 in
    let T := nPowTargetSpacing p in
    let k := Z.quot (N * (N + 1)) 2 in
    let bnPowLimit := active_limit p (nHeight tip + 1) in
    if nHeight tip + 1 <? nextDifficultyForkHeight p + N
    then Some (GetCompact bnPowLimit)
    else
      let '(t, sumTarget) := lwma_loop (Z.to_nat N) 0 pindexLast T 0 0 in
      if t <=? 0 then Some (GetCompact bnPowLimit)
      else
        nextTarget ← div64 (mul32 sumTarget T) (k * t);
        Some (GetCompact (if bnPowLimit <? nextTarget then bnPowLimit
                          else nextTarget))
  end.

(** [GetNextWorkRequired(pindexLast, pblock, params)]; of [pblock] only
    the time is read. *)
Definition GetNextWorkRequired (pindexLast : list CBlockIndex)
  (pblock_time : Z) (p : Params) : option Z :=
  match pindexLast with
  | [] => None
  | tip :: prev =>
    if nextDifficultyFork2Height p <=? nHeight tip + 1
    then DarkGravityWave3Nova pindexLast p
    else
      let nProofOfWorkLimit :=
        GetCompact (active_limit p (nHeight tip + 1)) in
      let interval := DifficultyAdjustmentInterval p in
      if (nPowTargetSpacing p =? 0) || (interval =? 0) then None
      else if negb (Z.rem (nHeight tip + 1) interval =? 0) then
        if fPowAllowMinDifficultyBlocks p then
          if GetBlockTime tip + nPowTargetSpacing p * 2 <? pblock_time
          then Some nProofOfWorkLimit
          else Some (last_non_special prev interval nProofOfWorkLimit tip)
        else Some (nBits tip)
      else
        let nHeightFirst := nHeight tip - (interval - 1) in
        if nHeightFirst <? 0 then None
        else
          pindexFirst ← GetAncestor pindexLast nHeightFirst;
          CalculateNextWorkRequired tip (GetBlockTime pindexFirst) p
  end.

End WithFloatingPoint.

(** The memory-hard hash of a header at a height ([yespower_tls] of the 80
    header bytes with the parameter set of the height): [None] is a
    non-zero return code. *)
Class MemoryHardHash (Header : Type) : Type := {
  yespower_tls : Header -> Z -> option Z;
  GetHash : Header -> Z
}.

Section WithHash.
Context {Header : Type} `{MemoryHardHash Header}.

(** [CheckYespower(block, bnTarget, height)]. *)
Definition CheckYespower (block : Header) (bnTarget : Z) (height : Z)
  : bool :=
  match yespower_tls block height with
  | None => false
  | Some hash => hash <=? bnTarget
  end.

Definition CheckProofOfWorkWithHeight (hash : Z) (block : Header)
  (nBits : Z) (p : Params) (height : Z) : bool :=
  let '(bnTarget, fNegative, fOverflow) := SetCompact_full nBits in
  if (height =? 0) || (hash =? hashGenesisBlock p) then true
  else if fNegative || fOverflow || (bnTarget =? 0) then false
  else if 1 <=? height then
    if height =? 1 then true
    else CheckYespower block bnTarget height
  else GetHash block <=? bnTarget.

Definition CheckProofOfWork (hash : Z) (blockHeader : Header) (nBits : Z)
  (p : Params) (height : Z) : bool :=
  if height =? 0 then true
  else if yespowerForkHeight p <=? height
  then CheckProofOfWorkWithHeight hash blockHeader nBits p height
  else
    let '(bnTarget, fNegative, fOverflow) := SetCompact_full nBits in
    if fNegative || (bnTarget =? 0) || fOverflow || (powLimit p <? bnTarget)
    then false
    else hash <=? bnTarget.

End WithHash.

End Pow.

(** ** Block assembly ([miner.cpp]) *)

Module Miner.

(** *** Coinbase outputs *)

Record CTxOut : Type := mkTxOut {
  nValue : Z;
  scriptPubKey : list byte
}.

(** A default-constructed [CTxOut] is null: value -1, empty script. *)
Definition CTxOut_null : CTxOut := mkTxOut (-1) [].

(** [vout.resize(n)]: cut to [n] outputs or filled up with null ones. *)
Definition vout_resize (n : nat) (v : list CTxOut) : list CTxOut :=
  take n v ++ replicate (n - length v) CTxOut_null.

(** [vout[i].scriptPubKey = s] and [vout[i].nValue = x]; an index past the
    end is an undefined access, [None]. *)
Definition set_scriptPubKey (v : list CTxOut) (i : nat) (s : list byte)
  : option (list CTxOut) :=
  o ← v !! i; Some (<[i := mkTxOut (nValue o) s]> v).

Definition set_nValue (v : list CTxOut) (i : nat) (x : Z)
  : option (list CTxOut) :=
  o ← v !! i; Some (<[i := mkTxOut x (scriptPubKey o)]> v).

(** The chain parameters the coinbase depends on. A wallet address is
    given by what [DecodeDestination] makes of it: [None] when
    [IsValidDestination] is false, else the script
    [GetScriptForDestination] returns. *)
Record CoinbaseParams : Type := mkCoinbaseParams {
  GovernanceWallet : option (list byte);
  NodeOperatorWallet : option (list byte);
  nFeeBurnEndHeight : Z
}.

Definition GOV_BPS : Z := 7300.
Definition OP_BPS : Z := 500.
Definition BPS_DENOM : Z := 10000.

(** The outputs of the coinbase transaction as [CreateNewBlock] builds
    them (from [CMutableTransaction coinbaseTx] to the assignment of
    [vout[2]]); [subsidy] is [GetBlockSubsidy(nHeight, consensus)]. The
    [CAmount] sum and products are exact: they stay within 64 bits for a
    reward between 0 and 2^63 / 7300. *)
Definition CreateNewBlock_vout (scriptPubKeyIn : list byte)
  (nHeight subsidy nFees : Z) (cp : CoinbaseParams) : option (list CTxOut) :=
  let burn_fees := (1 <=? nHeight) && (nHeight <=? nFeeBurnEndHeight cp) in
  let blockReward := if burn_fees then subsidy else subsidy + nFees in
  let governanceReward := Z.quot (blockReward * GOV_BPS) BPS_DENOM in
  let opDest := NodeOperatorWallet cp in
  let hasOpDest := bool_decide (is_Some opDest) in
  let operatorReward :=
    if hasOpDest then Z.quot (blockReward * OP_BPS) BPS_DENOM else 0 in
  let vout0 := vout_resize (if hasOpDest then 3 else 2) [] in
  vout1 ← set_scriptPubKey vout0 0 scriptPubKeyIn;
  vout2 ← set_nValue vout1 0 (blockReward - governanceReward - operatorReward);
  vout3 ← (match GovernanceWallet cp with
           | Some govScript =>
               v ← set_scriptPubKey vout2 1 govScript;
               set_nValue v 1 governanceReward
           | None =>
               set_nValue (vout_resize 1 vout2) 0 blockReward
           end);
  match opDest with
  | Some opScript =>
      v ← set_scriptPubKey vout3 2 opScript;
      set_nValue v 2 operatorReward
  | None => Some vout3
  end.

(** *** Package selection *)

(** A [CTxMemPool::txiter] is the identity of a mempool entry; its value
    stands for the transaction hash that orders entries in a set. *)
Abbreviation txiter := Z (only parsing).

Record CTxMemPoolEntry : Type := mkEntry {
  GetTxWeight : Z;
  GetTxSize : Z;
  GetSigOpCost : Z;
  GetFee : Z;
  GetModifiedFee : Z;
  GetSizeWithAncestors : Z;
  GetModFeesWithAncestors : Z;
  GetSigOpCostWithAncestors : Z;
  GetCountWithAncestors : Z;
  IsFinalTx : Z -> Z -> bool;   (* at a height and a lock-time cutoff *)
  HasWitness : bool
}.

(** The mempool as the assembler uses it: the entry behind an iterator,
    the index in ancestor-score order, and the two closure queries. *)
Record CTxMemPool : Type := mkMemPool {
  entry : txiter -> CTxMemPoolEntry;
  mapTx : list txiter;
  CalculateMemPoolAncestors : txiter -> gset txiter;
  CalculateDescendants : txiter -> gset txiter
}.

(** [CTxMemPoolModifiedEntry]: the three aggregates of an entry whose
    ancestors are partly in the block. *)
Record CTxMemPoolModifiedEntry : Type := mkMod {
  nSizeWithAncestors : Z;        (* uint64_t *)
  nModFeesWithAncestors : Z;
  nSigOpCostWithAncestors : Z
}.

(** What [miner.cpp] takes from headers that are not among the sources:
    the consensus limits, the fee a rate asks for a size
    ([blockMinFeeRate.GetFee]), and the ancestor-score order
    [CompareTxMemPoolEntryByAncestorFee], which compares products of
    doubles. *)
Class Policy : Type := {
  MAX_BLOCK_WEIGHT : Z;
  MAX_BLOCK_SIGOPS_COST : Z;
  blockMinFeeRate_GetFee : Z -> Z;
  CompareTxMemPoolEntryByAncestorFee :
    txiter * CTxMemPoolModifiedEntry -> txiter * CTxMemPoolModifiedEntry
    -> bool
}.

Definition WITNESS_SCALE_FACTOR : Z := 4.

Record BlockAssembler : Type := mkAssembler {
  nBlockMaxWeight : Z;           (* unsigned int *)
  fIncludeWitness : bool;
  nHeight : Z;
  nLockTimeCutoff : Z;
  nBlockWeight : Z;              (* uint64_t *)
  nBlockTx : Z;
  nBlockSigOpsCost : Z;          (* uint64_t *)
  nFees : Z;
  inBlock : gset txiter;
  vtx : list txiter              (* after the coinbase placeholder *)
}.

(** The state of the [while] loop of [addPackageTxs]. *)
Record Selection : Type := mkSelection {
  assembler : BlockAssembler;
  mi : list txiter;              (* from the iterator to the index end *)
  mapModifiedTx : gmap txiter CTxMemPoolModifiedEntry;
  failedTx : gset txiter;
  nConsecutiveFailed : Z;
  nPackagesSelected : Z;
  nDescendantsUpdated : Z
}.

(** The members of a [CTxMemPool::setEntries] in the order in which a
    loop over the set visits them: ascending by hash
    ([CompareIteratorByHash]). *)
Definition in_order (s : gset txiter) : list txiter :=
  merge_sort Z.le (elements s).

Section WithPolicy.
Context `{Policy}.

(** The assembler when [CreateNewBlock] calls [addPackageTxs]: the
    constructor's clamp of the configured weight, [resetBlock], and the
    witness flag set from [IsWitnessEnabled]. *)
Definition BlockAssembler_new (options_nBlockMaxWeight : Z) (height cutoff : Z)
  (witness : bool) : BlockAssembler :=
  mkAssembler
    (to_u32 (Z.max 4000 (Z.min (MAX_BLOCK_WEIGHT - 4000)
                               options_nBlockMaxWeight)))
    witness height cutoff 4000 0 400 0 ∅ [].

Definition TestPackage (a : BlockAssembler) (packageSize packageSigOpsCost : Z)
  : bool :=
  if nBlockMaxWeight a
     <=? to_u64 (nBlockWeight a + WITNESS_SCALE_FACTOR * packageSize)
  then false
  else if MAX_BLOCK_SIGOPS_COST
          <=? to_u64 (nBlockSigOpsCost a + packageSigOpsCost)
  then false
  else true.

Definition TestPackageTransactions (mp : CTxMemPool) (a : BlockAssembler)
  (package : gset txiter) : bool :=
  forallb (fun it =>
             IsFinalTx (entry mp it) (nHeight a) (nLockTimeCutoff a)
             && negb (negb (fIncludeWitness a) && HasWitness (entry mp it)))
          (in_order package).

Definition AddToBlock (mp : CTxMemPool) (a : BlockAssembler) (it : txiter)
  : BlockAssembler :=
  let e := entry mp it in
  mkAssembler (nBlockMaxWeight a) (fIncludeWitness a) (nHeight a)
    (nLockTimeCutoff a)
    (to_u64 (nBlockWeight a + GetTxWeight e))
    (nBlockTx a + 1)
    (to_u64 (nBlockSigOpsCost a + GetSigOpCost e))
    (nFees a + GetFee e)
    ({[it]} ∪ inBlock a)
    (vtx a ++ [it]).

(** One descendant [desc] of the added entry [it]: a new modified entry
    from the cached aggregates, or the existing one, less [it]. *)
Definition update_descendant (mp : CTxMemPool) (it desc : txiter)
  (m : gmap txiter CTxMemPoolModifiedEntry)
  : gmap txiter CTxMemPoolModifiedEntry :=
  let e := entry mp it in
  match m !! desc with
  | None =>
      let d := entry mp desc in
      <[desc := mkMod (to_u64 (GetSizeWithAncestors d - GetTxSize e))
                      (GetModFeesWithAncestors d - GetModifiedFee e)
                      (GetSigOpCostWithAncestors d - GetSigOpCost e)]> m
  | Some x =>
      <[desc := mkMod (to_u64 (nSizeWithAncestors x - GetTxSize e))
                      (nModFeesWithAncestors x - GetFee e)
                      (nSigOpCostWithAncestors x - GetSigOpCost e)]> m
  end.

(** The body of the inner loop of [UpdatePackagesForAdded], for the
    added entry [it] and one of its descendants. *)
Definition update_step (mp : CTxMemPool) (alreadyAdded : gset txiter)
  (it : txiter) (acc : gmap txiter CTxMemPoolModifiedEntry * Z)
  (desc : txiter) : gmap txiter CTxMemPoolModifiedEntry * Z :=
  if decide (desc ∈ alreadyAdded) then acc
  else (update_descendant mp it desc (fst acc), snd acc + 1).

(** The body of the outer loop: all descendants of [it]. *)
Definition update_outer (mp : CTxMemPool) (alreadyAdded : gset txiter)
  (acc : gmap txiter CTxMemPoolModifiedEntry * Z) (it : txiter)
  : gmap txiter CTxMemPoolModifiedEntry * Z :=
  fold_left (update_step mp alreadyAdded it)
            (in_order (CalculateDescendants mp it)) acc.

(** The modified set after the update, and [nDescendantsUpdated]. *)
Definition UpdatePackagesForAdded (mp : CTxMemPool)
  (alreadyAdded : gset txiter) (m : gmap txiter CTxMemPoolModifiedEntry)
  : gmap txiter CTxMemPoolModifiedEntry * Z :=
  fold_left (update_outer mp alreadyAdded) (in_order alreadyAdded) (m, 0).

Definition SkipMapTxEntry (s : Selection) (it : txiter) : bool :=
  bool_decide (is_Some (mapModifiedTx s !! it))
  || bool_decide (it ∈ inBlock (assembler s))
  || bool_decide (it ∈ failedTx s).

(** [mapModifiedTx.get<ancestor_score>().begin()]: the entry no other
    entry precedes in the ancestor-score order; [None] is [end()]. *)
Definition best_modified (m : gmap txiter CTxMemPoolModifiedEntry)
  : option (txiter * CTxMemPoolModifiedEntry) :=
  fold_right
    (fun x best =>
       match best with
       | None => Some x
       | Some b => if CompareTxMemPoolEntryByAncestorFee x b then Some x
                   else Some b
       end)
    None (map_to_list m).

(** [CompareTxIterByAncestorCount]: by ancestor count, then by hash. *)
Definition CompareTxIterByAncestorCount (mp : CTxMemPool) (a b : txiter)
  : bool :=
  let ca := GetCountWithAncestors (entry mp a) in
  let cb := GetCountWithAncestors (entry mp b) in
  if negb (ca =? cb) then ca <? cb else a <? b.

Fixpoint insert_by (lt : txiter -> txiter -> bool) (x : txiter)
  (l : list txiter) : list txiter :=
  match l with
  | [] => [x]
  | y :: r => if lt y x then y :: insert_by lt x r else x :: l
  end.

Definition SortForBlock (mp : CTxMemPool) (package : gset txiter)
  : list txiter :=
  fold_right (insert_by (CompareTxIterByAncestorCount mp)) []
             (in_order package).

(** The common tail of the two failure branches that count. *)
Definition fail_package (s : Selection) (fUsingModified : bool)
  (iter : txiter) (mi' : list txiter) (counts : bool) : Selection :=
  mkSelection (assembler s) mi'
    (if fUsingModified then delete iter (mapModifiedTx s)
     else mapModifiedTx s)
    (if fUsingModified then {[iter]} ∪ failedTx s else failedTx s)
    (if counts then nConsecutiveFailed s + 1 else nConsecutiveFailed s)
    (nPackagesSelected s) (nDescendantsUpdated s).

Definition MAX_CONSECUTIVE_FAILURES : Z := 1000.

Inductive Outcome : Type :=
  | Continue (s : Selection)     (* next iteration *)
  | Finished (s : Selection)     (* loop condition false, or [break] *)
  | Aborted.                     (* [assert(!inBlock.count(iter))] fails *)

(** The choice between the entry [cand] under [mi] ([None] at the end of
    the index, [rest] the index after it) and the best modified entry:
    the chosen iterator, [fUsingModified], the modified entry when it is
    used, and [mi] afterwards. [None]: nothing is left to choose from. *)
Definition select_entry (mp : CTxMemPool) (s : Selection)
  (cand : option txiter) (rest : list txiter)
  : option (txiter * bool * option CTxMemPoolModifiedEntry * list txiter) :=
  match cand, best_modified (mapModifiedTx s) with
  | None, Some (it, x) => Some (it, true, Some x, rest)
  | None, None => None
  | Some c, Some (it, x) =>
      let fresh := mkMod (GetSizeWithAncestors (entry mp c))
                         (GetModFeesWithAncestors (entry mp c))
                         (GetSigOpCostWithAncestors (entry mp c)) in
      if CompareTxMemPoolEntryByAncestorFee (it, x) (c, fresh)
      then Some (it, true, Some x, c :: rest)
      else Some (c, false, None, rest)
  | Some c, None => Some (c, false, None, rest)
  end.

(** The body of the loop from [assert(!inBlock.count(iter))] on. The fee
    test and [TestPackage] fail in the same way and are one condition
    here. *)
Definition evaluate_package (mp : CTxMemPool) (s : Selection)
  (iter : txiter) (fUsingModified : bool)
  (x : option CTxMemPoolModifiedEntry) (mi' : list txiter) : Outcome :=
  let a := assembler s in
  if decide (iter ∈ inBlock a) then Aborted
  else
    let packageSize :=
      match x with
      | Some x => nSizeWithAncestors x
      | None => GetSizeWithAncestors (entry mp iter)
      end in
    let packageFees :=
      match x with
      | Some x => nModFeesWithAncestors x
      | None => GetModFeesWithAncestors (entry mp iter)
      end in
    let packageSigOpsCost :=
      match x with
      | Some x => nSigOpCostWithAncestors x
      | None => GetSigOpCostWithAncestors (entry mp iter)
      end in
    if (packageFees <? blockMinFeeRate_GetFee packageSize)
       || negb (TestPackage a packageSize packageSigOpsCost)
    then
      let s' := fail_package s fUsingModified iter mi' true in
      if (MAX_CONSECUTIVE_FAILURES <? nConsecutiveFailed s')
         && (to_u32 (nBlockMaxWeight a - 4000) <? nBlockWeight a)
      then Finished s' else Continue s'
    else
      let ancestors :=
        {[iter]} ∪ (CalculateMemPoolAncestors mp iter ∖ inBlock a) in
      if negb (TestPackageTransactions mp a ancestors)
      then Continue (fail_package s fUsingModified iter mi' false)
      else
        let sortedEntries := SortForBlock mp ancestors in
        let a' := fold_left (AddToBlock mp) sortedEntries a in
        let m' := fold_left (fun m it => delete it m) sortedEntries
                            (mapModifiedTx s) in
        let '(m'', n) := UpdatePackagesForAdded mp ancestors m' in
        Continue (mkSelection a' mi' m'' (failedTx s) 0
                    (nPackagesSelected s + 1)
                    (nDescendantsUpdated s + n)).

(** One evaluation of the loop condition and body of [addPackageTxs]. *)
Definition addPackageTxs_step (mp : CTxMemPool) (s : Selection) : Outcome :=
  let run (cand : option txiter) (rest : list txiter) : Outcome :=
    match select_entry mp s cand rest with
    | None => Finished s
    | Some (iter, fUsingModified, x, mi') =>
        evaluate_package mp s iter fUsingModified x mi'
    end in
  match mi s with
  | [] => if decide (mapModifiedTx s = ∅) then Finished s else run None []
  | c :: rest =>
      if SkipMapTxEntry s c
      then Continue (mkSelection (assembler s) rest (mapModifiedTx s)
                       (failedTx s) (nConsecutiveFailed s)
                       (nPackagesSelected s) (nDescendantsUpdated s))
      else run (Some c) rest
  end.

(** [addPackageTxs], for at most [fuel] evaluations of the loop
    condition. [None] is the failed assertion. *)
Fixpoint addPackageTxs_loop (fuel : nat) (mp : CTxMemPool) (s : Selection)
  : option Selection :=
  match fuel with
  | O => Some s
  | S fuel' =>
      match addPackageTxs_step mp s with
      | Continue s' => addPackageTxs_loop fuel' mp s'
      | Finished s' => Some s'
      | Aborted => None
      end
  end.

(** The state in which [CreateNewBlock] enters the loop: [resetBlock],
    the witness flag, and the initial
    [UpdatePackagesForAdded(inBlock, mapModifiedTx)] on empty sets. *)
Definition addPackageTxs_init (mp : CTxMemPool) (a : BlockAssembler)
  : Selection :=
  let '(m, _) := UpdatePackagesForAdded mp (inBlock a) ∅ in
  mkSelection a (mapTx mp) m ∅ 0 0 0.

Definition addPackageTxs (fuel : nat) (mp : CTxMemPool) (a : BlockAssembler)
  : option Selection :=
  addPackageTxs_loop fuel mp (addPackageTxs_init mp a).

End WithPolicy.

End Miner.

(** ** The header of a block template ([miner.cpp]) *)

Module BlockTemplate.
Import Block.

Definition set_nTime (h : CBlockHeader) (t : Z) : CBlockHeader :=
  mkHeader (nVersion h) (hashPrevBlock h) (hashMerkleRoot h) t (nBits h)
           (nNonce h).

Definition set_nBits (h : CBlockHeader) (bits : Z) : CBlockHeader :=
  mkHeader (nVersion h) (hashPrevBlock h) (hashMerkleRoot h) (nTime h) bits
           (nNonce h).

Definition set_hashPrevBlock (h : CBlockHeader) (hash : Z) : CBlockHeader :=
  mkHeader (nVersion h) hash (hashMerkleRoot h) (nTime h) (nBits h)
           (nNonce h).

Definition set_nNonce (h : CBlockHeader) (nonce : Z) : CBlockHeader :=
  mkHeader (nVersion h) (hashPrevBlock h) (hashMerkleRoot h) (nTime h)
           (nBits h) nonce.

Section WithFloatingPoint.
Context `{Pow.FloatingPoint}.

(** [UpdateTime(pblock, consensusParams, pindexPrev)]: the header it
    leaves and the value it returns. [nMedianTimePast] is
    [pindexPrev->GetMedianTimePast()] and [adjustedTime] what
    [GetAdjustedTime()] returns; an assignment to [nTime] converts to
    [uint32_t]. [None] is a failed assertion of [GetNextWorkRequired]. *)
Definition UpdateTime (pblock : CBlockHeader) (p : Pow.Params)
  (pindexPrev : list Pow.CBlockIndex) (nMedianTimePast adjustedTime : Z)
  : option (CBlockHeader * Z) :=
  let nOldTime := nTime pblock in
  let nNewTime := Z.max (nMedianTimePast + 1) adjustedTime in
  let pblock1 := if nOldTime <? nNewTime
                 then set_nTime pblock (to_u32 nNewTime) else pblock in
  if Pow.fPowAllowMinDifficultyBlocks p then
    bits ← Pow.GetNextWorkRequired pindexPrev (GetBlockTime pblock1) p;
    Some (set_nBits pblock1 bits, nNewTime - nOldTime)
  else Some (pblock1, nNewTime - nOldTime).

(** What [CreateNewBlock] does to the header of the template, apart from
    the version: the time it sets before the transactions are selected
    ([difficultyForkHeight] is the consensus parameter, [now] the adjusted
    time read there), and the part under "Fill in header", where
    [UpdateTime] reads the adjusted time again ([now']). *)
Definition CreateNewBlock_header (pblock : CBlockHeader)
  (nHeight difficultyForkHeight : Z) (p : Pow.Params)
  (pindexPrev : list Pow.CBlockIndex) (hashPrev nMedianTimePast now now' : Z)
  : option CBlockHeader :=
  let safeTime := Z.max (nMedianTimePast + 1) now in
  let pblock1 :=
    set_nTime pblock
      (to_u32 (if difficultyForkHeight <=? nHeight
               then Z.min safeTime (nMedianTimePast + 20 * 60)
               else now)) in
  let pblock2 := set_hashPrevBlock pblock1 hashPrev in
  '(pblock3, _) ← UpdateTime pblock2 p pindexPrev nMedianTimePast now';
  bits ← Pow.GetNextWorkRequired pindexPrev (GetBlockTime pblock3) p;
  Some (set_nNonce (set_nBits pblock3 bits) 0).

End WithFloatingPoint.

End BlockTemplate.

(** * Part II: specification-side definitions and sample inputs *)

Module Sums.

(** The sum of [f] over a list. *)
Definition sumZ {A} (f : A -> Z) (l : list A) : Z :=
  fold_right (fun x acc => f x + acc) 0 l.

End Sums.

Module TokenSpec.
Import Ser Token Ledger.


(** What a CREATE leaves behind on a token that already has metadata. *)
Definition credited_without_registering (l l' : TokenLedger)
  (o : TokenOperation) : Prop :=
  Balance l' (from o) (token o)
  = wrap64 (Balance l (from o) (token o) + amount o) /\
  TotalSupply l' (token o) = wrap64 (TotalSupply l (token o) + amount o) /\
  m_token_meta l' = m_token_meta l /\
  m_history l' !! token o = Some (default [] (m_history l !! token o) ++ [o]).


(** A node that decodes every address to the key hash 0 and recovers
    from every signature a key whose hash is 0, so that every signature
    verifies; it sends no fee, and the hash of a serialisation is its
    little-endian value. *)
Definition accepting_node : Node :=
  {| DecodeDestination := fun _ => PKHash 0;
     DecodeBase64ToBytes := fun _ => Some [];
     Hash256 := le_val;
     RecoverCompact := fun _ _ => Some [];
     Hash160 := fun _ => 0;
     SendGovernanceFee := fun _ _ => false;
     ChainActiveHeight := 100 |}.

(** A ledger on which alice created the token T with supply 1000. *)
Definition ledger_with_T : TokenLedger :=
  mkLedger {[ ("alice"%string, "T"%string) := 1000 ]} ∅
           {[ "T"%string := 1000 ]}
           {[ "T"%string := mkMeta "Gold" "GLD" 8 "alice" 7 ]} ∅ ∅ 0
           TOKEN_DEFAULT_FEE_PER_VBYTE TOKEN_CREATE_FEE_PER_VBYTE.

(** mallory creates T again, for 500. *)
Definition op_create_T : TokenOperation :=
  mkOp 0 "mallory" "" "" "T" 500 "Gold" "GLD" 8 1700000000 "mallory" "sig"
       "" "".

(** bob, who holds nothing, transfers 5 T to carol. *)
Definition op_transfer_5 : TokenOperation :=
  mkOp 1 "bob" "carol" "" "T" 5 "" "" 0 1700000000 "bob" "sig" "" "".

(** bob, who holds nothing, transfers -5 T to carol. *)
Definition op_transfer_minus_5 : TokenOperation :=
  mkOp 1 "bob" "carol" "" "T" (-5) "" "" 0 1700000000 "bob" "sig" "" "".

(** An operation whose 34-character memo starts with the character of
    code 33. *)
Definition op_memo34 : TokenOperation :=
  mkOp 1 "bob" "carol" "" "T" 5 "" "" 0 1700000000 "bob" "sig" ""
       "!abcdefghijklmnopqrstuvwxyz0123456".

End TokenSpec.

Module PowSpec.
Import Arith256 Pow Sums.

Definition null_index : CBlockIndex := mkIndex 0 0 0.

(** The block [i] steps behind the tip. *)
Definition block_at (c : list CBlockIndex) (i : nat) : CBlockIndex :=
  nth i c null_index.

(** LWMA3 as the specification words it: the solve time of block [i]
    clipped to [-6T, 6T], the sums over the last N = 60 blocks weighted by
    [i + 1], [k = N (N + 1) / 2], and the limit when the weighted solve
    time is not positive. *)
Definition clipped_solvetime (T : Z) (c : list CBlockIndex) (i : nat) : Z :=
  Z.max (- 6 * T)
        (Z.min (6 * T)
               (GetBlockTime (block_at c i) - GetBlockTime (block_at c (S i)))).

Definition weighted_solvetimes (T : Z) (c : list CBlockIndex) : Z :=
  sumZ (fun i => clipped_solvetime T c i * (Z.of_nat i + 1)) (seq 0 60).

Definition weighted_targets (c : list CBlockIndex) : Z :=
  sumZ (fun i => SetCompact (nBits (block_at c i)) * (Z.of_nat i + 1))
       (seq 0 60).

Definition lwma3_target (p : Params) (c : list CBlockIndex) : Z :=
  let T := nPowTargetSpacing p in
  let k := 60 * 61 / 2 in
  let limit := active_limit p (nHeight (block_at c 0) + 1) in
  let t := weighted_solvetimes T c in
  if t <=? 0 then limit
  else Z.min limit (weighted_targets c * T / (k * t)).

(** The parameters [p] with other limits. *)
Definition with_limits (p : Params) (limit limitYespower : Z) : Params :=
  mkParams limit limitYespower (hashGenesisBlock p) (yespowerForkHeight p)
           (nextDifficultyForkHeight p) (nextDifficultyFork2Height p)
           (nextDifficultyFork3Height p) (nextDifficultyFork5Height p)
           (nPowTargetSpacing p) (nPowTargetTimespan p)
           (fPowAllowMinDifficultyBlocks p) (fPowNoRetargeting p).

(** [n] blocks from [height] down, [step] seconds apart, all with the
    same [bits]. *)
Fixpoint chain_from (n : nat) (height time step bits : Z)
  : list CBlockIndex :=
  match n with
  | O => []
  | S n' => mkIndex height time bits
            :: chain_from n' (height - 1) (time - step) step bits
  end.

(** A network whose LWMA3 fork is at height 0 and whose DGW3-Nova fork is
    at height 1000: limit 0x1e0fffff, spacing 120 s, a two-week
    adjustment interval. *)
Definition params_lwma : Params :=
  mkParams (SetCompact 0x1e0fffff) (SetCompact 0x1e0fffff) 0 1 0 1000 1000
           100000 120 (14 * 24 * 3600) false false.

(** Heights 60 down to 0, 120 s apart, all at the limit. *)
Definition chain61 : list CBlockIndex :=
  chain_from 61 60 1007200 120 0x1e0fffff.

(** A network with DGW3-Nova from height 0 and the 24-block window. *)
Definition params_nova : Params :=
  mkParams (SetCompact 0x1e0fffff) (SetCompact 0x1e0fffff) 0 1 0 0 0
           1000000000 120 (14 * 24 * 3600) false false.

(** Heights 23 down to 0, all at the limit: 1000 s apart, the tip 100 s
    after its predecessor. *)
Definition chain24 : list CBlockIndex :=
  mkIndex 23 1022100 0x1e0fffff :: chain_from 23 22 1022000 1000 0x1e0fffff.

(** A floating-point unit for which the decay factor is never above 1.0.
    The sample inputs do not reach the decay. *)
Definition no_decay : FloatingPoint :=
  {| decayFactor_u64 := fun _ _ => None |}.

(** A hash function under which every header hashes to 1. *)
Definition hash_one : MemoryHardHash unit :=
  {| yespower_tls := fun _ _ => Some 1; GetHash := fun _ => 1 |}.

End PowSpec.

Module MinerSpec.
Import Miner Sums.

(** The script of the miner, of the governance wallet and of the operator
    wallet in the examples. *)
Definition miner_script : list byte := [x01].
Definition gov_script : list byte := [x02].
Definition op_script : list byte := [x03].

(** *** The mempool contract of the package selection *)

(** The entry and its in-mempool ancestors. *)
Definition with_ancestors (mp : CTxMemPool) (it : txiter) : gset txiter :=
  {[it]} ∪ CalculateMemPoolAncestors mp it.

(** The sum of [f] over the members of [X] that are not in the block. *)
Definition sum_outside (f : txiter -> Z) (X B : gset txiter) : Z :=
  sumZ f (filter (fun a => a ∉ B) (elements X)).

(** A consistent view of the mempool: the weight of an entry is at most
    four times its virtual size, sigop costs are not negative, the cached
    aggregates of an entry cover the entry and its ancestors and fit
    their machine types with room to spare, a descendant of an entry has
    that entry among its ancestors, and ancestors of ancestors are
    ancestors. *)
Record consistent_mempool (mp : CTxMemPool) : Prop := {
  weight_le_vsize : forall it,
    0 <= GetTxWeight (entry mp it) <= 4 * GetTxSize (entry mp it);
  sigops_nonneg : forall it, 0 <= GetSigOpCost (entry mp it);
  size_aggregate : forall it,
    sumZ (fun a => GetTxSize (entry mp a)) (elements (with_ancestors mp it))
    <= GetSizeWithAncestors (entry mp it) < 2 ^ 61;
  sigops_aggregate : forall it,
    sumZ (fun a => GetSigOpCost (entry mp a))
         (elements (with_ancestors mp it))
    <= GetSigOpCostWithAncestors (entry mp it) < 2 ^ 62;
  descendants_ancestors : forall it d,
    d ∈ CalculateDescendants mp it -> d <> it ->
    it ∈ CalculateMemPoolAncestors mp d;
  ancestors_transitive : forall a b,
    a ∈ CalculateMemPoolAncestors mp b ->
    CalculateMemPoolAncestors mp a ⊆ CalculateMemPoolAncestors mp b
}.

(** The consistency of the consensus limits. *)
Definition policy_ok `{Policy} : Prop :=
  8000 <= MAX_BLOCK_WEIGHT <= 2 ^ 32 /\ 400 <= MAX_BLOCK_SIGOPS_COST < 2 ^ 62.

Definition need_size (mp : CTxMemPool) (it : txiter) (B : gset txiter) : Z :=
  sum_outside (fun a => GetTxSize (entry mp a)) (with_ancestors mp it) B.

Definition need_sigops (mp : CTxMemPool) (it : txiter) (B : gset txiter) : Z :=
  sum_outside (fun a => GetSigOpCost (entry mp a)) (with_ancestors mp it) B.

(** A modified entry of [d] is good for the block [B] when its
    aggregates lie between what [d] and its ancestors outside [B] need
    and the cached aggregates of [d]. *)
Definition good (mp : CTxMemPool) (B : gset txiter) (d : txiter)
  (xo : option CTxMemPoolModifiedEntry) : Prop :=
  match xo with
  | None => True
  | Some x =>
      need_size mp d B <= nSizeWithAncestors x
                       <= GetSizeWithAncestors (entry mp d) /\
      need_sigops mp d B <= nSigOpCostWithAncestors x
                         <= GetSigOpCostWithAncestors (entry mp d)
  end.

Definition all_good (mp : CTxMemPool) (B : gset txiter)
  (m : gmap txiter CTxMemPoolModifiedEntry) : Prop :=
  forall d, good mp B d (m !! d).

(** The package of [iter]: what [addPackageTxs] calls [ancestors] after
    [onlyUnconfirmed] and the insertion of [iter]. *)
Definition package_of (mp : CTxMemPool) (iter : txiter) (B : gset txiter)
  : gset txiter :=
  {[iter]} ∪ (CalculateMemPoolAncestors mp iter ∖ B).

(** What holds of the selection between iterations: the two limits, the
    modified entries good for the block and none of them in it, the block
    closed under ancestors, and the configured maximum in place. *)
Record Inv `{Policy} (mp : CTxMemPool) (maxW : Z) (s : Selection)
  : Prop := {
  inv_weight :
    0 <= nBlockWeight (assembler s) <= nBlockMaxWeight (assembler s);
  inv_max : nBlockMaxWeight (assembler s) <= 2 ^ 32;
  inv_sigops :
    0 <= nBlockSigOpsCost (assembler s) <= MAX_BLOCK_SIGOPS_COST;
  inv_good : all_good mp (inBlock (assembler s)) (mapModifiedTx s);
  inv_disjoint : forall d,
    is_Some (mapModifiedTx s !! d) -> d ∉ inBlock (assembler s);
  inv_closed : forall b,
    b ∈ inBlock (assembler s) ->
    CalculateMemPoolAncestors mp b ⊆ inBlock (assembler s);
  inv_configured : nBlockMaxWeight (assembler s) = maxW
}.

(** *** A mempool of a parent and its child *)

(** No transaction. *)
Definition null_entry : CTxMemPoolEntry :=
  mkEntry 0 0 0 0 0 0 0 0 1 (fun _ _ => true) false.

(** The parent: 100 vbytes, fee 100. *)
Definition parent_entry : CTxMemPoolEntry :=
  mkEntry 400 100 4 100 100 100 100 4 1 (fun _ _ => true) false.

(** The child: 150 vbytes, fee 15000; with its parent 250 vbytes. *)
Definition child_entry : CTxMemPoolEntry :=
  mkEntry 600 150 8 15000 15000 250 15100 12 2 (fun _ _ => true) false.

(** Iterator 1 is the parent, 2 the child; the child has the better
    ancestor score. *)
Definition sample_mempool : CTxMemPool :=
  mkMemPool
    (fun it => if it =? 1 then parent_entry
               else if it =? 2 then child_entry else null_entry)
    [2; 1]
    (fun it => if it =? 2 then {[1]} else ∅)
    (fun it => if it =? 1 then {[1; 2]} else {[it]}).

(** Bitcoin's limits, a minimum fee of one unit per vbyte, and the
    ancestor score compared exactly. *)
Definition sample_policy : Policy :=
  {| MAX_BLOCK_WEIGHT := 4000000;
     MAX_BLOCK_SIGOPS_COST := 80000;
     blockMinFeeRate_GetFee := fun size => size;
     CompareTxMemPoolEntryByAncestorFee := fun a b =>
       let f1 := nModFeesWithAncestors (snd a) * nSizeWithAncestors (snd b) in
       let f2 := nSizeWithAncestors (snd a) * nModFeesWithAncestors (snd b) in
       if f1 =? f2 then fst a <? fst b else f2 <? f1 |}.

End MinerSpec.

Module LedgerSpec.
Import Ser Token Ledger.

(** The sum of the balances that all wallets hold of the token [tk]. *)
Definition balances_of (l : TokenLedger) (tk : string) : Z :=
  map_fold (fun k v acc => if decide (k.2 = tk) then v + acc else acc) 0
           (m_balances l).

(** The balances of every token add up to its total supply, as 64-bit
    patterns. *)
Definition supply_consistent (l : TokenLedger) : Prop :=
  forall tk, (balances_of l tk - TotalSupply l tk) mod 2 ^ 64 = 0.

(** The operation [o] under another signer, signature and wallet name. *)
Definition with_signature (o : TokenOperation) (sg sig w : string)
  : TokenOperation :=
  mkOp (op o) (from o) (to o) (spender o) (token o) (amount o) (name o)
       (symbol o) (decimals o) (timestamp o) sg sig w (memo o).

(** The address an operation has to be signed by. *)
Definition expected_signer (o : TokenOperation) : string :=
  if op o =? TokenOp_to_u8 TRANSFERFROM then spender o else from o.

(** Every operation of the history has its hash among the seen ones. *)
Definition history_seen `{Node} (l : TokenLedger) : Prop :=
  forall tk ops o,
    m_history l !! tk = Some ops -> o ∈ ops ->
    TokenOperationHash o ∈ m_seen_ops l.

(** A call that changes a ledger without clearing it: one of the two
    entry points for an operation, a connected block, or a new fee
    rate. *)
Inductive LedgerCall : Type :=
  | CallApply (o : TokenOperation) (wallet_name : string) (broadcast : bool)
  | CallReplay (o : TokenOperation) (height : Z)
  | CallProcessBlock (block : list (list CScript)) (height : Z)
  | CallSetFeeRate (fee_per_vbyte : Z).

(** The ledger after a call, and after a sequence of calls. *)
Definition after_call `{Node} (l : TokenLedger) (c : LedgerCall)
  : TokenLedger :=
  match c with
  | CallApply o w b => fst (ApplyOperation l o w b)
  | CallReplay o h => fst (ReplayOperation l o h)
  | CallProcessBlock block h => fst (ProcessBlock l block h)
  | CallSetFeeRate fee => SetFeeRate l fee
  end.

Definition after_calls `{Node} (l : TokenLedger) (cs : list LedgerCall)
  : TokenLedger :=
  fold_left after_call cs l.

(** No output of a readable block of the chain decodes to a token
    operation. *)
Definition no_token_outputs (block_at : Z -> option (list (list CScript)))
  : Prop :=
  forall h block tx script,
    block_at h = Some block -> tx ∈ block -> script ∈ tx ->
    DecodeTokenOp script default_op = None.

(** The gap between the balances and the supply of a token moves by a
    multiple of 2^64. *)
Definition same_gap (l l' : TokenLedger) : Prop :=
  forall tk,
    ((balances_of l' tk - TotalSupply l' tk)
     - (balances_of l tk - TotalSupply l tk)) mod 2 ^ 64 = 0.

(** An operation whose code is 9, with a memo. *)
Definition op_code_9 : TokenOperation :=
  mkOp 9 "bob" "carol" "" "T" 5 "" "" 0 1700000000 "bob" "sig" "" "hello".

(** The ledger on which alice holds 1000 T and has approved bob for 400. *)
Definition ledger_with_allowance : TokenLedger :=
  mkLedger {[ ("alice"%string, "T"%string) := 1000 ]}
           {[ ("alice"%string, "bob"%string, "T"%string) := 400 ]}
           {[ "T"%string := 1000 ]}
           {[ "T"%string := mkMeta "Gold" "GLD" 8 "alice" 7 ]} ∅ ∅ 0
           TOKEN_DEFAULT_FEE_PER_VBYTE TOKEN_CREATE_FEE_PER_VBYTE.

(** A node and a signer for the examples of signing: the base-64 text of
    bytes is the bytes read as a string, the compact signature of a key
    is the key itself, which is also the public key recovered from it,
    and every address decodes to the hash every key has. *)
Definition echo_node : Node :=
  {| DecodeDestination := fun _ => PKHash 7;
     DecodeBase64ToBytes := fun s => Some (list_byte_of_string s);
     Hash256 := le_val;
     RecoverCompact := fun _ sig => Some sig;
     Hash160 := fun _ => 7;
     SendGovernanceFee := fun _ _ => false;
     ChainActiveHeight := 100 |}.

Definition echo_signer : Signer (list byte) :=
  {| SignCompact := fun key _ => Some key;
     EncodeBase64 := string_of_list_byte |}.

End LedgerSpec.

Module BlockSpec.
Import Block.

(** A header with a negative version and the largest nonce. *)
Definition sample_header : CBlockHeader :=
  mkHeader (-3) (2 ^ 255 + 5) 123456789 1700000000 0x1e0fffff 4294967295.

End BlockSpec.

Module SelectionSpec.
Import Miner Sums MinerSpec.

(** The counters of the assembler are the sums over the transactions it
    has taken, which are pairwise different and make up [inBlock]. *)
Record accounted (mp : CTxMemPool) (a : BlockAssembler) : Prop := {
  acc_nodup : NoDup (vtx a);
  acc_inBlock : inBlock a = list_to_set (vtx a);
  acc_count : nBlockTx a = Z.of_nat (length (vtx a));
  acc_fees : nFees a = sumZ (fun it => GetFee (entry mp it)) (vtx a);
  acc_weight :
    nBlockWeight a
    = 4000 + sumZ (fun it => GetTxWeight (entry mp it)) (vtx a);
  acc_sigops :
    nBlockSigOpsCost a
    = 400 + sumZ (fun it => GetSigOpCost (entry mp it)) (vtx a)
}.

(** Every transaction taken is final at the height and lock-time cutoff
    of the block, and has no witness unless witnesses are included. *)
Definition admitted (mp : CTxMemPool) (a : BlockAssembler) : Prop :=
  forall it, it ∈ vtx a ->
    IsFinalTx (entry mp it) (nHeight a) (nLockTimeCutoff a) = true /\
    (fIncludeWitness a = false -> HasWitness (entry mp it) = false).

(** Every transaction of the list comes after all its in-mempool
    ancestors. *)
Definition parents_first (mp : CTxMemPool) (l : list txiter) : Prop :=
  forall l1 x l2, l = l1 ++ x :: l2 ->
    CalculateMemPoolAncestors mp x ⊆ list_to_set l1.

(** The cached ancestor count of an entry is above that of each of its
    ancestors. *)
Definition counts_ancestors (mp : CTxMemPool) : Prop :=
  forall a b, a ∈ CalculateMemPoolAncestors mp b ->
    GetCountWithAncestors (entry mp a) < GetCountWithAncestors (entry mp b).

(** The order [CompareTxIterByAncestorCount] sorts by, read as "not
    after": fewer ancestors, or as many and not the larger hash. *)
Definition count_le (mp : CTxMemPool) (a b : txiter) : Prop :=
  GetCountWithAncestors (entry mp a) < GetCountWithAncestors (entry mp b)
  \/ (GetCountWithAncestors (entry mp a) = GetCountWithAncestors (entry mp b)
      /\ a <= b).

(** What holds of the assembler between iterations of [addPackageTxs],
    for the height, cutoff and witness flag it was set up with. *)
Record well_assembled (mp : CTxMemPool) (height cutoff : Z) (witness : bool)
  (a : BlockAssembler) : Prop := {
  wa_accounted : accounted mp a;
  wa_admitted : admitted mp a;
  wa_order : counts_ancestors mp -> parents_first mp (vtx a);
  wa_height : nHeight a = height;
  wa_cutoff : nLockTimeCutoff a = cutoff;
  wa_witness : fIncludeWitness a = witness
}.

End SelectionSpec.

(** * Part III: properties *)

(** ** Integers and sums *)

Module IntFacts.
Import Arith256 Sums.

Local Set Warnings "-clear-no-such-hyp".

Lemma sumZ_seq_shift (f : nat -> Z) a n :
  sumZ f (seq (S a) n) = sumZ (fun j => f (S j)) (seq a n).
Proof.
  revert a. induction n as [|n IH]; intros a; [done|].
  cbn [seq sumZ fold_right]. f_equal. apply IH.
Qed.

Lemma sumZ_seq_S (f : nat -> Z) n :
  sumZ f (seq 0 (S n)) = f O + sumZ (fun j => f (S j)) (seq 0 n).
Proof. cbn [seq sumZ fold_right]. f_equal. apply sumZ_seq_shift. Qed.

Lemma sumZ_ext {A} (f g : A -> Z) l :
  (forall x, f x = g x) -> sumZ f l = sumZ g l.
Proof. intros E. induction l; simpl; [done|]. by rewrite E, IHl. Qed.

Lemma wrap256_range z : 0 <= wrap256 z < 2 ^ 256.
Proof. unfold wrap256. apply Z.mod_pos_bound. lia. Qed.

Lemma wrap256_small z : 0 <= z < 2 ^ 256 -> wrap256 z = z.
Proof. unfold wrap256. intros. by apply Z.mod_small. Qed.

Lemma to_u32_small z : 0 <= z < 2 ^ 32 -> to_u32 z = z.
Proof. unfold to_u32. intros. by apply Z.mod_small. Qed.

Lemma to_u64_small z : 0 <= z < 2 ^ 64 -> to_u64 z = z.
Proof. unfold to_u64. intros. by apply Z.mod_small. Qed.

Lemma sumZ_nonneg {A} (f : A -> Z) l :
  (forall x, 0 <= f x) -> 0 <= sumZ f l.
Proof. intros Hf. induction l; simpl; [lia|]. specialize (Hf a). lia. Qed.

Lemma sumZ_le {A} (f g : A -> Z) l :
  (forall x, f x <= g x) -> sumZ f l <= sumZ g l.
Proof. intros Hf. induction l; simpl; [lia|]. specialize (Hf a). lia. Qed.

Lemma sumZ_scale {A} (k : Z) (g : A -> Z) l :
  sumZ (fun x => k * g x) l = k * sumZ g l.
Proof. induction l; simpl; [lia|]. rewrite IHl. lia. Qed.

Lemma sumZ_app {A} (f : A -> Z) l k : sumZ f (l ++ k) = sumZ f l + sumZ f k.
Proof. induction l; simpl; lia. Qed.

Lemma sumZ_perm {A} (f : A -> Z) l k : l ≡ₚ k -> sumZ f l = sumZ f k.
Proof. induction 1; simpl; lia. Qed.

Lemma sumZ_filter_le {A} (f : A -> Z) (P : A -> Prop) `{!forall x, Decision (P x)} l :
  (forall x, 0 <= f x) -> sumZ f (filter P l) <= sumZ f l.
Proof.
  intros Hf. induction l as [|a l IH]; [done|].
  rewrite filter_cons. specialize (Hf a). destruct (decide (P a)); simpl; lia.
Qed.

Lemma sumZ_filter_mono {A} (f : A -> Z) (P Q : A -> Prop)
  `{!forall x, Decision (P x)} `{!forall x, Decision (Q x)} l :
  (forall x, 0 <= f x) -> (forall x, Q x -> P x) ->
  sumZ f (filter Q l) <= sumZ f (filter P l).
Proof.
  intros Hf HPQ. induction l as [|a l IH]; [done|].
  rewrite !filter_cons. specialize (Hf a). specialize (HPQ a).
  destruct (decide (P a)), (decide (Q a)); simpl; try lia. tauto.
Qed.

Lemma sumZ_filter_remove (f : Z -> Z) (S : gset Z) (it : Z) l :
  NoDup l -> it ∈ l -> it ∉ S ->
  sumZ f (filter (fun a => a ∉ S) l)
  = f it + sumZ f (filter (fun a => a ∉ S ∪ {[it]}) l).
Proof.
  intros Hnd Hin HS. induction l as [|a l IH]; [by apply elem_of_nil in Hin|].
  apply NoDup_cons in Hnd as [Ha Hnd].
  rewrite !filter_cons.
  destruct (decide (a = it)) as [->|Hne].
  - rewrite decide_True by done. rewrite (decide_False (P := it ∉ S ∪ {[it]})) by set_solver.
    simpl. f_equal. clear IH.
    induction l as [|b l IH]; [done|].
    rewrite !filter_cons. apply NoDup_cons in Hnd as [_ Hnd].
    assert (b <> it) by set_solver.
    destruct (decide (b ∉ S)).
    + rewrite decide_True by set_solver. simpl. f_equal. apply IH; set_solver.
    + rewrite decide_False by set_solver. apply IH; set_solver.
  - assert (it ∈ l) by set_solver.
    destruct (decide (a ∉ S)).
    + rewrite decide_True by set_solver. simpl. rewrite IH by done. lia.
    + rewrite decide_False by set_solver. by apply IH.
Qed.

Lemma sumZ_cons {A} (f : A -> Z) x l : sumZ f (x :: l) = f x + sumZ f l.
Proof. reflexivity. Qed.

End IntFacts.

(** ** The wire format of token operations *)

Module SerProps.
Import Ser Token Ledger TokenSpec.

Lemma byte_val_range b : 0 <= byte_val b < 256.
Proof. unfold byte_val. pose proof (Byte.to_N_bounded b). lia. Qed.

Lemma byte_val_u8 z : byte_val (u8 z) = z mod 256.
Proof.
  unfold byte_val, u8.
  assert (Hr : 0 <= z mod 256 < 256) by (apply Z.mod_pos_bound; lia).
  destruct (Byte.of_N (Z.to_N (z mod 256))) as [b|] eqn:E.
  - apply Byte.to_of_N in E. rewrite E. lia.
  - exfalso. apply Byte.of_N_None_iff in E. lia.
Qed.

Lemma u8_byte_val b : u8 (byte_val b) = b.
Proof.
  unfold u8. rewrite Z.mod_small by apply byte_val_range.
  unfold byte_val. rewrite N2Z.id, Byte.of_to_N. reflexivity.
Qed.

Lemma length_le_bytes n z : length (le_bytes n z) = n.
Proof. revert z. induction n; intros; simpl; [done|]. by rewrite IHn. Qed.

Lemma le_val_le_bytes n z : le_val (le_bytes n z) = z mod 256 ^ Z.of_nat n.
Proof.
  revert z. induction n; intros z.
  - simpl. by rewrite Z.mod_1_r.
  - cbn [le_bytes le_val]. rewrite byte_val_u8, IHn.
    rewrite Nat2Z.inj_succ, Z.pow_succ_r by lia.
    rewrite Z.rem_mul_r by lia. lia.
Qed.

Lemma read_bytes_app (bs rest : list byte) n :
  n = length bs -> read_bytes n (bs ++ rest) = Some (bs, rest).
Proof.
  intros ->. unfold read_bytes. rewrite length_app.
  destruct (Nat.ltb_spec (length bs + length rest) (length bs)); [lia|].
  by rewrite take_app_length, drop_app_length.
Qed.

Lemma read_le_app n z rest :
  0 <= z < 256 ^ Z.of_nat n ->
  read_le n (le_bytes n z ++ rest) = Some (z, rest).
Proof.
  intros Hz. unfold read_le, bind.
  rewrite read_bytes_app by (by rewrite length_le_bytes).
  unfold ret. by rewrite le_val_le_bytes, Z.mod_small.
Qed.

Lemma read_u8_cons z rest :
  0 <= z < 256 -> read_u8 (u8 z :: rest) = Some (z, rest).
Proof. intros. unfold read_u8. by rewrite byte_val_u8, Z.mod_small. Qed.

Lemma mod64_neg z : - 2 ^ 63 <= z < 0 -> z mod 2 ^ 64 = z + 2 ^ 64.
Proof. intros. symmetry. apply Z.mod_unique with (q := -1); lia. Qed.

Lemma read_i64_app z rest :
  in_int64 z -> read_i64 (le_bytes 8 z ++ rest) = Some (z, rest).
Proof.
  unfold in_int64. intros Hz. unfold read_i64, read_le, bind.
  rewrite read_bytes_app by (by rewrite length_le_bytes).
  unfold ret. rewrite le_val_le_bytes.
  change (256 ^ Z.of_nat 8) with (2 ^ 64).
  destruct (Z_lt_le_dec z 0).
  - rewrite mod64_neg by lia.
    destruct (Z.ltb_spec (z + 2 ^ 64) (2 ^ 63)); [lia|].
    do 2 f_equal. lia.
  - rewrite Z.mod_small by lia.
    destruct (Z.ltb_spec z (2 ^ 63)); [done|lia].
Qed.

Lemma ReadCompactSize_Write n rest :
  0 <= n <= MAX_SIZE ->
  ReadCompactSize (WriteCompactSize n ++ rest) = Some (n, rest).
Proof.
  unfold MAX_SIZE. intros Hn. unfold WriteCompactSize, ReadCompactSize.
  destruct (Z.ltb_spec n 253).
  { unfold bind at 1. cbn [app]. rewrite read_u8_cons by lia.
    unfold bind. destruct (Z.ltb_spec n 253); [|lia]. unfold ret.
    unfold MAX_SIZE. destruct (Z.ltb_spec 33554432 n); [lia|done]. }
  destruct (Z.leb_spec n 65535).
  { unfold bind at 1. cbn [app]. rewrite read_u8_cons by lia.
    cbn [Z.ltb Z.eqb Z.compare Pos.compare Pos.compare_cont Pos.eqb].
    unfold bind. change (le_bytes 2 n ++ rest) with (le_bytes 2 n ++ rest).
    rewrite read_le_app by (change (256 ^ Z.of_nat 2) with 65536; lia).
    destruct (Z.ltb_spec n 253); [lia|]. unfold ret, MAX_SIZE.
    destruct (Z.ltb_spec 33554432 n); [lia|done]. }
  destruct (Z.leb_spec n 4294967295).
  { unfold bind at 1. cbn [app]. rewrite read_u8_cons by lia.
    cbn [Z.ltb Z.eqb Z.compare Pos.compare Pos.compare_cont Pos.eqb].
    unfold bind.
    rewrite read_le_app by (change (256 ^ Z.of_nat 4) with 4294967296; lia).
    destruct (Z.ltb_spec n 65536); [lia|]. unfold ret, MAX_SIZE.
    destruct (Z.ltb_spec 33554432 n); [lia|done]. }
  lia.
Qed.

Lemma length_list_byte_of_string s :
  length (list_byte_of_string s) = String.length s.
Proof.
  unfold list_byte_of_string. rewrite length_map.
  induction s; simpl; [done|]. by rewrite IHs.
Qed.

Lemma read_string_ser s rest :
  (strlen s <=? MAX_SIZE) = true ->
  read_string (ser_string s ++ rest) = Some (s, rest).
Proof.
  intros Hs. apply Z.leb_le in Hs. unfold read_string, ser_string.
  rewrite <- app_assoc. unfold bind at 1.
  rewrite ReadCompactSize_Write by (unfold strlen in *; lia).
  unfold bind. rewrite read_bytes_app.
  - unfold ret. by rewrite string_of_list_byte_of_string.
  - rewrite length_list_byte_of_string. unfold strlen. lia.
Qed.

Lemma in_int64b_true z : in_int64b z = true -> in_int64 z.
Proof. unfold in_int64b, in_int64. intros H%andb_true_iff. lia. Qed.

(** The operation a reader leaves in [obj]: the wire fields of [o], the
    wallet name of [obj]. *)
Lemma read_fields_ser obj o rest :
  op_in_range o = true -> strings_readable o = true ->
  read_fields obj (ser_fields o ++ rest)
  = Some (set_memo (set_wallet_name o (wallet_name obj)) (memo obj), rest).
Proof.
  unfold op_in_range, strings_readable. cbn [forallb].
  rewrite !andb_true_iff, !Z.leb_le, !Z.ltb_lt.
  intros (((((Ho1 & Ho2) & Ha%in_int64b_true) & Hd1) & Hd2) & Ht%in_int64b_true).
  intros (Hf & Hto & Hsp & Htk & Hnm & Hsy & Hsg & Hsig & Hmemo & _).
  apply Z.leb_le in Hf, Hto, Hsp, Htk, Hnm, Hsy, Hsg, Hsig.
  unfold read_fields, ser_fields. rewrite <- !app_assoc. cbn [app].
  unfold bind at 1. rewrite read_u8_cons by lia.
  unfold bind at 1. rewrite read_string_ser by assumption.
  unfold bind at 1. rewrite read_string_ser by assumption.
  unfold bind at 1. rewrite read_string_ser by assumption.
  unfold bind at 1. rewrite read_string_ser by assumption.
  unfold bind at 1. rewrite read_i64_app by assumption.
  unfold bind at 1. rewrite read_string_ser by assumption.
  unfold bind at 1. rewrite read_string_ser by assumption.
  unfold bind at 1. rewrite read_u8_cons by lia.
  unfold bind at 1. rewrite read_i64_app by assumption.
  unfold bind at 1. rewrite read_string_ser by assumption.
  unfold bind at 1. rewrite read_string_ser by assumption.
  reflexivity.
Qed.

Lemma set_memo_own o w :
  set_memo (set_memo (set_wallet_name o w) "") (memo o) = set_wallet_name o w.
Proof. by destruct o. Qed.

Lemma memo_readable o :
  strings_readable o = true -> (strlen (memo o) <=? MAX_SIZE) = true.
Proof.
  unfold strings_readable. cbn [forallb]. rewrite !andb_true_iff. tauto.
Qed.

Lemma Unserialize_Serialize obj o rest :
  op_in_range o = true -> strings_readable o = true ->
  Unserialize obj (Serialize o ++ rest)
  = Some (set_wallet_name o (wallet_name obj), rest).
Proof.
  intros Hr Hs. unfold Unserialize, Serialize. rewrite <- app_assoc.
  unfold bind at 1. rewrite read_fields_ser by assumption.
  destruct (String.eqb_spec (memo o) "") as [Hm|Hm].
  - cbn [app]. unfold bind. rewrite read_u8_cons by lia. simpl.
    unfold ret. do 2 f_equal. destruct o; simpl in *. by subst.
  - cbn [app]. unfold bind at 1. rewrite read_u8_cons by lia. simpl.
    unfold bind. rewrite read_string_ser by (by apply memo_readable).
    unfold ret. by destruct o.
Qed.

Lemma push_opcode_le n : 0 <= n -> push_opcode n <= OP_PUSHDATA4.
Proof.
  unfold push_opcode, OP_PUSHDATA4, OP_PUSHDATA2, OP_PUSHDATA1. intros.
  destruct (Z.ltb_spec n 76); [lia|].
  destruct (n <=? 255); [lia|]. destruct (n <=? 65535); lia.
Qed.

Lemma push_opcode_ok (data : list byte) :
  (OP_PUSHDATA4 <? push_opcode (Z.of_nat (length data))) = false.
Proof.
  apply Z.ltb_ge, push_opcode_le. lia.
Qed.

Lemma DecodeTokenOp_script obj data :
  data <> [] ->
  DecodeTokenOp (op_return_script data) obj
  = match Unserialize obj data with
    | Some (o, _) => Some o
    | None => match Unserialize_legacy obj data with
              | Some (o, _) => Some o
              | None => None
              end
    end.
Proof.
  intros Hd. unfold DecodeTokenOp, op_return_script.
  rewrite Z.eqb_refl. cbn [negb]. destruct data; [done|].
  by rewrite push_opcode_ok.
Qed.


Lemma Serialize_nonempty o : Serialize o <> [].
Proof. unfold Serialize, ser_fields. discriminate. Qed.

Lemma DecodeTokenOp_Serialize obj o :
  op_in_range o = true -> strings_readable o = true ->
  DecodeTokenOp (op_return_script (Serialize o)) obj
  = Some (set_wallet_name o (wallet_name obj)).
Proof.
  intros Hr Hs. rewrite DecodeTokenOp_script by apply Serialize_nonempty.
  rewrite <- (app_nil_r (Serialize o)).
  by rewrite Unserialize_Serialize.
Qed.


Section WithNode.
Context `{Node}.


End WithNode.



End SerProps.

(** ** The token ledger *)

Module TokenProps.
Import Ser Token Ledger TokenSpec.

Lemma wrap64_id z : in_int64 z -> wrap64 z = z.
Proof. unfold in_int64, wrap64. intros. rewrite Z.mod_small; lia. Qed.

Lemma at0_touch `{Countable K} (m : gmap K Z) k k' :
  at0 (touch m k) k' = at0 m k'.
Proof.
  unfold at0, touch. destruct (m !! k) eqn:E; [done|].
  destruct (decide (k = k')) as [->|Hne].
  - by rewrite lookup_insert_eq, E.
  - by rewrite lookup_insert_ne.
Qed.

Lemma at0_add_at_eq `{Countable K} (m : gmap K Z) k v :
  at0 (add_at m k v) k = wrap64 (at0 m k + v).
Proof. unfold at0 at 1, add_at. by rewrite lookup_insert_eq. Qed.

Lemma at0_add_at_ne `{Countable K} (m : gmap K Z) k k' v :
  k <> k' -> at0 (add_at m k v) k' = at0 m k'.
Proof. intros. unfold at0, add_at. by rewrite lookup_insert_ne. Qed.

Lemma at0_insert_eq `{Countable K} (m : gmap K Z) k v :
  at0 (<[k := v]> m) k = v.
Proof. unfold at0. by rewrite lookup_insert_eq. Qed.

Lemma at0_insert_ne `{Countable K} (m : gmap K Z) k k' v :
  k <> k' -> at0 (<[k := v]> m) k' = at0 m k'.
Proof. intros. unfold at0. by rewrite lookup_insert_ne. Qed.

Lemma push_history_lookup l o :
  m_history (push_history l o) !! token o
  = Some (default [] (m_history l !! token o) ++ [o]).
Proof. unfold push_history. simpl. by rewrite lookup_insert_eq. Qed.

Section WithNode.
Context `{Node}.



Lemma dispatch_create_existing l o h meta :
  TokenOp_of_u8 (op o) = Some CREATE ->
  m_token_meta l !! token o = Some meta ->
  exists l', dispatch l o h = (l', true) /\
    Balance l' (from o) (token o)
    = wrap64 (Balance l (from o) (token o) + amount o) /\
    TotalSupply l' (token o) = wrap64 (TotalSupply l (token o) + amount o) /\
    m_token_meta l' = m_token_meta l /\ m_history l' = m_history l.
Proof.
  intros Hop Hm. unfold dispatch. rewrite Hop. unfold CreateToken. simpl.
  rewrite Hm. eexists; split; [reflexivity|]. simpl.
  unfold Balance, TotalSupply. simpl. rewrite !at0_add_at_eq. done.
Qed.

(** C7: the code does not refuse a CREATE on a registered token. With a
    valid signature and an unseen hash it succeeds in [ApplyOperation]
    and in [ReplayOperation] for any sender: the metadata is kept, but
    the amount is credited to the sender and to the supply, and the
    operation is appended to the history. The operator check of the MINT
    case is bypassed. *)
Theorem CREATE_on_registered_token_credits l o wallet bc height meta :
  TokenOp_of_u8 (op o) = Some CREATE ->
  m_token_meta l !! token o = Some meta ->
  VerifySignature o = true ->
  TokenOperationHash o ∉ m_seen_ops l ->
  (exists l', ApplyOperation l o wallet bc = (l', true)
              /\ credited_without_registering l l' o) /\
  (exists l', ReplayOperation l o height = (l', true)
              /\ credited_without_registering l l' o).
Proof.
  intros Hop Hm Hsig Hseen. unfold ApplyOperation, ReplayOperation.
  rewrite Hsig. simpl. rewrite !decide_False by assumption.
  set (l0 := with_seen_ops l _).
  split.
  - destruct (dispatch_create_existing l0 o ChainActiveHeight meta Hop Hm)
      as (l' & Hd & Hb & Hs & Hmeta & Hh).
    rewrite Hd. eexists; split; [reflexivity|].
    unfold credited_without_registering.
    rewrite push_history_lookup.
    repeat split.
    + destruct (_ && _); exact Hb.
    + destruct (_ && _); exact Hs.
    + destruct (_ && _); exact Hmeta.
    + destruct (_ && _); simpl; by rewrite Hh.
  - destruct (dispatch_create_existing l0 o height meta Hop Hm)
      as (l' & Hd & Hb & Hs & Hmeta & Hh).
    rewrite Hd. eexists; split; [reflexivity|].
    unfold credited_without_registering.
    rewrite push_history_lookup. rewrite Hh. done.
Qed.

Lemma dispatch_transfer_negative l o h :
  TokenOp_of_u8 (op o) = Some TRANSFER ->
  - 2 ^ 63 < amount o < 0 ->
  Balance l (from o) (token o) = 0 ->
  from o <> to o ->
  in_int64 (Balance l (to o) (token o) + amount o) ->
  exists l', dispatch l o h = (l', true) /\
    Balance l' (from o) (token o) = - amount o /\
    Balance l' (to o) (token o) = Balance l (to o) (token o) + amount o.
Proof.
  intros Hop Ha Hb Hne Hr. unfold dispatch. rewrite Hop. unfold Transfer.
  unfold Balance in *. rewrite at0_touch, Hb.
  destruct (0 <? amount o) eqn:E; [lia|].
  eexists; split; [reflexivity|]. simpl.
  assert (Hk : (to o, token o) <> (from o, token o)) by congruence.
  assert (Hk' : (from o, token o) <> (to o, token o)) by congruence.
  split.
  - rewrite at0_add_at_ne by done. rewrite at0_insert_eq.
    apply wrap64_id. unfold in_int64. lia.
  - rewrite at0_add_at_eq. rewrite at0_insert_ne by done. rewrite at0_touch.
    by apply wrap64_id.
Qed.

(** C10. A TRANSFER of a negative amount from a sender whose balance is
    zero, with a valid signature and an unseen hash, succeeds in
    [ApplyOperation] and in [ReplayOperation]: no handler checks the sign
    of the amount. The sender's balance rises to the positive [- amount]
    and the recipient's falls by as much, below zero when it was zero. *)
Theorem TRANSFER_negative_amount_accepted l o wallet bc height :
  TokenOp_of_u8 (op o) = Some TRANSFER ->
  - 2 ^ 63 < amount o < 0 ->
  VerifySignature o = true ->
  TokenOperationHash o ∉ m_seen_ops l ->
  Balance l (from o) (token o) = 0 ->
  from o <> to o ->
  in_int64 (Balance l (to o) (token o) + amount o) ->
  (exists l', ApplyOperation l o wallet bc = (l', true) /\
     0 < Balance l' (from o) (token o) /\
     Balance l' (from o) (token o) = - amount o /\
     Balance l' (to o) (token o) = Balance l (to o) (token o) + amount o) /\
  (exists l', ReplayOperation l o height = (l', true) /\
     0 < Balance l' (from o) (token o) /\
     Balance l' (from o) (token o) = - amount o /\
     Balance l' (to o) (token o) = Balance l (to o) (token o) + amount o).
Proof.
  intros Hop Ha Hsig Hseen Hb Hne Hr. unfold ApplyOperation, ReplayOperation.
  rewrite Hsig. simpl. rewrite !decide_False by assumption.
  set (l0 := with_seen_ops l _).
  split.
  - destruct (dispatch_transfer_negative l0 o ChainActiveHeight
                Hop Ha Hb Hne Hr) as (l' & Hd & Hf & Ht).
    rewrite Hd. eexists; split; [reflexivity|].
    destruct (_ && _); (split; [ | split]);
      solve [ exact Hf | exact Ht
            | change (0 < Balance l' (from o) (token o)); lia ].
  - destruct (dispatch_transfer_negative l0 o height Hop Ha Hb Hne Hr)
      as (l' & Hd & Hf & Ht).
    rewrite Hd. eexists; split; [reflexivity|].
    split; [ | split];
      solve [ exact Hf | exact Ht
            | change (0 < Balance l' (from o) (token o)); lia ].
Qed.

End WithNode.

(** C7, the failing input: on [ledger_with_T], where alice is the
    operator of T, the CREATE of mallory is applied and replayed with
    success; 500 is credited to her and to the supply and the history
    grows. *)
Lemma CREATE_on_registered_token_counterexample :
  TokenOp_of_u8 (op op_create_T) = Some CREATE /\
  is_Some (m_token_meta ledger_with_T !! token op_create_T) /\
  (let r := ApplyOperation (H := accepting_node) ledger_with_T op_create_T
                           "" false in
   snd r = true /\ Balance (fst r) "mallory" "T" = 500
   /\ TotalSupply (fst r) "T" = 1500
   /\ m_history (fst r) !! "T"%string = Some [op_create_T]) /\
  (let r := ReplayOperation (H := accepting_node) ledger_with_T op_create_T
                            100 in
   snd r = true /\ Balance (fst r) "mallory" "T" = 500
   /\ TotalSupply (fst r) "T" = 1500
   /\ m_history (fst r) !! "T"%string = Some [op_create_T]).
Proof. vm_compute. repeat split; eauto. Qed.

Lemma CREATE_on_registered_token_witness :
  TokenOp_of_u8 (op op_create_T) = Some CREATE /\
  m_token_meta ledger_with_T !! token op_create_T
  = Some (mkMeta "Gold" "GLD" 8 "alice" 7) /\
  VerifySignature (H := accepting_node) op_create_T = true /\
  (TokenOperationHash (H := accepting_node) op_create_T
     ∉ m_seen_ops ledger_with_T) /\
  ((exists l', ApplyOperation (H := accepting_node) ledger_with_T
                 op_create_T "" false = (l', true)
               /\ credited_without_registering ledger_with_T l' op_create_T)
   /\
   (exists l', ReplayOperation (H := accepting_node) ledger_with_T
                 op_create_T 100 = (l', true)
               /\ credited_without_registering ledger_with_T l' op_create_T)).
Proof.
  split; [reflexivity|]. split; [reflexivity|]. split; [reflexivity|].
  split; [apply not_elem_of_empty|].
  apply (CREATE_on_registered_token_credits (H := accepting_node)
           ledger_with_T op_create_T "" false 100
           (mkMeta "Gold" "GLD" 8 "alice" 7));
    [reflexivity | reflexivity | reflexivity | apply not_elem_of_empty].
Defined.



Lemma TRANSFER_negative_amount_witness :
  TokenOp_of_u8 (op op_transfer_minus_5) = Some TRANSFER /\
  amount op_transfer_minus_5 = -5 /\
  Balance empty_ledger "bob" "T" = 0 /\
  Balance empty_ledger "carol" "T" = 0 /\
  ((exists l', ApplyOperation (H := accepting_node) empty_ledger
                 op_transfer_minus_5 "" false = (l', true) /\
      0 < Balance l' "bob" "T" /\
      Balance l' "bob" "T" = 5 /\
      Balance l' "carol" "T" = -5) /\
   (exists l', ReplayOperation (H := accepting_node) empty_ledger
                 op_transfer_minus_5 100 = (l', true) /\
      0 < Balance l' "bob" "T" /\
      Balance l' "bob" "T" = 5 /\
      Balance l' "carol" "T" = -5)).
Proof.
  split; [reflexivity|]. split; [reflexivity|]. split; [reflexivity|].
  split; [reflexivity|].
  apply (TRANSFER_negative_amount_accepted (H := accepting_node)
           empty_ledger op_transfer_minus_5 "" false 100);
    [ reflexivity | simpl; lia | reflexivity | apply not_elem_of_empty
    | reflexivity | discriminate | vm_compute; split; congruence ].
Defined.

End TokenProps.

(** ** Proof of work *)

Module PowProps.
Import Arith256 Pow Sums PowSpec IntFacts.

Lemma add256_mul32 s x w y :
  0 <= w < 2 ^ 32 ->
  wrap256 (add256 s (mul32 x w) + y) = wrap256 (s + (x * w + y)).
Proof.
  intros Hw. unfold add256, mul32, wrap256. rewrite to_u32_small by done.
  rewrite Z.add_mod_idemp_l by lia.
  replace (s + (x * w) mod 2 ^ 256 + y)
    with ((x * w) mod 2 ^ 256 + (s + y)) by lia.
  rewrite Z.add_mod_idemp_l by lia. f_equal. lia.
Qed.

Lemma clipped_solvetime_cons T b c j :
  clipped_solvetime T (b :: c) (S j) = clipped_solvetime T c j.
Proof. reflexivity. Qed.

Lemma block_at_cons b c j : block_at (b :: c) (S j) = block_at c j.
Proof. reflexivity. Qed.

Lemma clipped_solvetime_head T b pb rest :
  clipped_solvetime T (b :: pb :: rest) 0
  = (let s0 := GetBlockTime b - GetBlockTime pb in
     let s1 := if 6 * T <? s0 then 6 * T else s0 in
     if s1 <? - 6 * T then - 6 * T else s1).
Proof.
  unfold clipped_solvetime, block_at. cbn [nth]. cbv zeta.
  destruct (Z.ltb_spec (6 * T) (GetBlockTime b - GetBlockTime pb));
    match goal with |- context [?a <? ?b] => destruct (Z.ltb_spec a b) end;
    lia.
Qed.

Lemma lwma_loop_sums T n : forall c i t s,
  (n < length c)%nat -> 0 <= i -> i + Z.of_nat n < 2 ^ 32 ->
  0 <= s < 2 ^ 256 ->
  lwma_loop n i c T t s
  = (t + sumZ (fun j => clipped_solvetime T c j * (i + Z.of_nat j + 1))
              (seq 0 n),
     wrap256 (s + sumZ (fun j => SetCompact (nBits (block_at c j))
                                 * (i + Z.of_nat j + 1)) (seq 0 n))).
Proof.
  induction n as [|n IH]; intros c i t s Hlen Hi Hn Hs.
  - simpl. rewrite !Z.add_0_r. by rewrite wrap256_small.
  - destruct c as [|b [|pb rest]]; simpl in Hlen; try lia.
    cbn [lwma_loop]. rewrite IH; [|simpl; lia|lia|lia|apply wrap256_range].
    rewrite !sumZ_seq_S. rewrite clipped_solvetime_head. cbv zeta.
    change (block_at (b :: pb :: rest) 0) with b.
    change (Z.of_nat 0) with 0. rewrite !Z.add_0_r.
    rewrite add256_mul32 by lia.
    rewrite (sumZ_ext
               (fun j => clipped_solvetime T (b :: pb :: rest) (S j)
                         * (i + Z.of_nat (S j) + 1))
               (fun j => clipped_solvetime T (pb :: rest) j
                         * (i + 1 + Z.of_nat j + 1))).
    2:{ intros j. rewrite clipped_solvetime_cons. f_equal. lia. }
    rewrite (sumZ_ext
               (fun j => SetCompact (nBits (block_at (b :: pb :: rest) (S j)))
                         * (i + Z.of_nat (S j) + 1))
               (fun j => SetCompact (nBits (block_at (pb :: rest) j))
                         * (i + 1 + Z.of_nat j + 1))).
    2:{ intros j. rewrite block_at_cons. f_equal. lia. }
    f_equal. lia.
Qed.

Lemma SetCompact_nonneg n : 0 <= SetCompact n.
Proof.
  unfold SetCompact, SetCompact_full. cbn [fst].
  destruct (Z.shiftr n 24 <=? 3).
  - apply Z.shiftr_nonneg. apply Z.land_nonneg. right. lia.
  - apply wrap256_range.
Qed.

Lemma weighted_targets_nonneg c : 0 <= weighted_targets c.
Proof.
  apply sumZ_nonneg. intros i. pose proof (SetCompact_nonneg (nBits (block_at c i))).
  apply Z.mul_nonneg_nonneg; lia.
Qed.

Lemma weighted_solvetimes_le T c : 0 <= T -> weighted_solvetimes T c <= 6 * T * 1830.
Proof.
  intros HT. unfold weighted_solvetimes.
  etransitivity.
  - apply (sumZ_le _ (fun i => (6 * T) * (Z.of_nat i + 1))). intros i.
    apply Z.mul_le_mono_nonneg_r; [lia|]. unfold clipped_solvetime. lia.
  - rewrite sumZ_scale.
    replace (sumZ (fun i => Z.of_nat i + 1) (seq 0 60)) with 1830 by reflexivity.
    lia.
Qed.

(** The loop of [Lwma3] computes the weighted average of the
    specification, given 60 predecessors and magnitudes that do not
    wrap. *)
Lemma Lwma3_weighted_average p c :
  (60 < length c)%nat ->
  nextDifficultyForkHeight p + 60 <= nHeight (block_at c 0) + 1 ->
  0 < nPowTargetSpacing p < 2 ^ 32 ->
  weighted_targets c * nPowTargetSpacing p < 2 ^ 256 ->
  Lwma3 c p = Some (GetCompact (lwma3_target p c)).
Proof.
  intros Hlen Hh HT HW. destruct c as [|tip rest]; [simpl in Hlen; lia|].
  unfold Lwma3, lwma3_target. change (block_at (tip :: rest) 0) with tip in *.
  destruct (Z.ltb_spec (nHeight tip + 1) (nextDifficultyForkHeight p + 60));
    [lia|].
  change (Z.to_nat 60) with 60%nat.
  rewrite lwma_loop_sums by (simpl in *; lia).
  rewrite (sumZ_ext _ (fun i => clipped_solvetime (nPowTargetSpacing p)
                                  (tip :: rest) i * (Z.of_nat i + 1)))
    by (intros; f_equal; lia).
  rewrite (sumZ_ext (fun j => SetCompact (nBits (block_at (tip :: rest) j))
                              * (0 + Z.of_nat j + 1))
                    (fun i => SetCompact (nBits (block_at (tip :: rest) i))
                              * (Z.of_nat i + 1)))
    by (intros; f_equal; lia).
  fold (weighted_solvetimes (nPowTargetSpacing p) (tip :: rest)).
  fold (weighted_targets (tip :: rest)).
  set (t := weighted_solvetimes (nPowTargetSpacing p) (tip :: rest)) in *.
  set (W := weighted_targets (tip :: rest)) in *.
  rewrite !Z.add_0_l.
  pose proof (weighted_targets_nonneg (tip :: rest)) as HW0. fold W in HW0.
  pose proof (weighted_solvetimes_le (nPowTargetSpacing p) (tip :: rest)) as Ht.
  fold t in Ht.
  assert (HWlt : W < 2 ^ 256) by nia.
  rewrite (wrap256_small W) by lia.
  destruct (Z.leb_spec t 0); [reflexivity|].
  unfold div64, mul32.
  change (Z.quot (60 * (60 + 1)) 2) with 1830.
  change (60 * 61 / 2) with 1830.
  rewrite to_u32_small by lia. rewrite wrap256_small by lia.
  rewrite to_u64_small by lia.
  destruct (Z.eqb_spec (1830 * t) 0); [lia|].
  cbn [mbind option_bind]. f_equal. f_equal.
  destruct (Z.ltb_spec (active_limit p (nHeight tip + 1))
                       (W * nPowTargetSpacing p / (1830 * t))); lia.
Qed.

Section WithFloatingPoint.
Context `{FloatingPoint}.

Lemma GetNextWorkRequired_off_boundary tip rest bt p :
  nHeight tip + 1 < nextDifficultyFork2Height p ->
  nPowTargetSpacing p <> 0 ->
  DifficultyAdjustmentInterval p <> 0 ->
  Z.rem (nHeight tip + 1) (DifficultyAdjustmentInterval p) <> 0 ->
  fPowAllowMinDifficultyBlocks p = false ->
  GetNextWorkRequired (tip :: rest) bt p = Some (nBits tip).
Proof.
  intros Hh HT Hi Hrem Hmin. unfold GetNextWorkRequired.
  destruct (Z.leb_spec (nextDifficultyFork2Height p) (nHeight tip + 1));
    [lia|].
  destruct (Z.eqb_spec (nPowTargetSpacing p) 0); [done|].
  destruct (Z.eqb_spec (DifficultyAdjustmentInterval p) 0); [done|].
  cbn [orb].
  destruct (Z.eqb_spec (Z.rem (nHeight tip + 1)
                              (DifficultyAdjustmentInterval p)) 0); [done|].
  cbn [negb]. by rewrite Hmin.
Qed.

Lemma GetNextWorkRequired_on_boundary tip rest bt p :
  nHeight tip + 1 < nextDifficultyFork2Height p ->
  nPowTargetSpacing p <> 0 ->
  DifficultyAdjustmentInterval p <> 0 ->
  Z.rem (nHeight tip + 1) (DifficultyAdjustmentInterval p) = 0 ->
  GetNextWorkRequired (tip :: rest) bt p
  = (let nHeightFirst := nHeight tip - (DifficultyAdjustmentInterval p - 1) in
     if nHeightFirst <? 0 then None
     else pindexFirst ← GetAncestor (tip :: rest) nHeightFirst;
          CalculateNextWorkRequired tip (GetBlockTime pindexFirst) p).
Proof.
  intros Hh HT Hi Hrem. unfold GetNextWorkRequired.
  destruct (Z.leb_spec (nextDifficultyFork2Height p) (nHeight tip + 1));
    [lia|].
  destruct (Z.eqb_spec (nPowTargetSpacing p) 0); [done|].
  destruct (Z.eqb_spec (DifficultyAdjustmentInterval p) 0); [done|].
  cbn [orb]. rewrite Hrem. reflexivity.
Qed.

(** C1, as amended. Below [nextDifficultyFork2Height] the retarget
    function applies the legacy rule and never LWMA3: off a boundary of
    the adjustment interval (no minimum-difficulty rule) it returns the
    bits of the tip, on a boundary [CalculateNextWorkRequired] from the
    first block of the interval. [Lwma3] itself, on a tip with 60
    predecessors and at least N = 60 blocks past
    [nextDifficultyForkHeight], returns the compact form of the LWMA3
    target: the limit if the weighted solve time [t] is not positive, else
    the smaller of the limit and [sumTarget * T / (k * t)]. *)
Theorem GetNextWorkRequired_legacy_and_Lwma3 tip rest bt p :
  nHeight tip + 1 < nextDifficultyFork2Height p ->
  0 < nPowTargetSpacing p < 2 ^ 32 ->
  DifficultyAdjustmentInterval p <> 0 ->
  fPowAllowMinDifficultyBlocks p = false ->
  (Z.rem (nHeight tip + 1) (DifficultyAdjustmentInterval p) <> 0 ->
   GetNextWorkRequired (tip :: rest) bt p = Some (nBits tip)) /\
  (Z.rem (nHeight tip + 1) (DifficultyAdjustmentInterval p) = 0 ->
   GetNextWorkRequired (tip :: rest) bt p
   = (let nHeightFirst :=
        nHeight tip - (DifficultyAdjustmentInterval p - 1) in
      if nHeightFirst <? 0 then None
      else pindexFirst ← GetAncestor (tip :: rest) nHeightFirst;
           CalculateNextWorkRequired tip (GetBlockTime pindexFirst) p)) /\
  ((60 < length (tip :: rest))%nat ->
   nextDifficultyForkHeight p + 60 <= nHeight tip + 1 ->
   weighted_targets (tip :: rest) * nPowTargetSpacing p < 2 ^ 256 ->
   Lwma3 (tip :: rest) p = Some (GetCompact (lwma3_target p (tip :: rest)))).
Proof.
  intros Hh HT Hi Hmin. split; [|split].
  - intros Hrem. apply GetNextWorkRequired_off_boundary; try done. lia.
  - intros Hrem. apply GetNextWorkRequired_on_boundary; try done. lia.
  - intros Hlen Hf HW. by apply Lwma3_weighted_average.
Qed.

(** Past its early return DGW3-Nova never reads the limits: with any
    other pair of limits the result is the same. *)
Lemma DarkGravityWave3Nova_ignores_limits tip rest p l ly :
  (if nextDifficultyFork5Height p <=? nHeight tip + 1 then 12 else 24)
  <= nHeight tip + 1 ->
  DarkGravityWave3Nova (tip :: rest) (with_limits p l ly)
  = DarkGravityWave3Nova (tip :: rest) p.
Proof.
  intros Hw. unfold DarkGravityWave3Nova.
  cbn [with_limits nextDifficultyFork5Height nextDifficultyFork3Height
       nPowTargetSpacing].
  set (v9 := nextDifficultyFork5Height p <=? nHeight tip + 1) in *.
  set (w := if v9 then 12 else 24) in *.
  destruct (Z.ltb_spec (nHeight tip + 1) w); [lia|].
  assert (E : (nHeight tip + 1 <=? 1) = false).
  { apply Z.leb_gt. destruct v9; subst w; lia. }
  rewrite E. cbn [andb]. reflexivity.
Qed.

(** Below the window the limit of the height is returned. *)
Lemma DarkGravityWave3Nova_early tip rest p :
  nHeight tip + 1
  < (if nextDifficultyFork5Height p <=? nHeight tip + 1 then 12 else 24) ->
  DarkGravityWave3Nova (tip :: rest) p
  = Some (GetCompact (active_limit p (nHeight tip + 1))).
Proof.
  intros Hw. unfold DarkGravityWave3Nova.
  destruct (nextDifficultyFork5Height p <=? nHeight tip + 1);
    destruct (Z.ltb_spec (nHeight tip + 1) 12);
    destruct (Z.ltb_spec (nHeight tip + 1) 24); try lia; reflexivity.
Qed.

(** C2: the target DGW3-Nova returns on [chain24] is three times the
    active limit. The cap is guarded by [nextHeight <= 1], which is false
    wherever the function gets past its early return. *)
Theorem DarkGravityWave3Nova_above_limit :
  DarkGravityWave3Nova chain24 params_nova = Some 0x1e2ffffd /\
  SetCompact 0x1e2ffffd = 3 * active_limit params_nova 24 /\
  active_limit params_nova 24 < SetCompact 0x1e2ffffd.
Proof. vm_compute. repeat split; reflexivity. Qed.

End WithFloatingPoint.

(** C1, the claim as stated fails: on [chain61], whose next height 61 is
    between the two forks and 60 past the first, the retarget function
    returns the bits of the tip, which are not the LWMA3 target. *)
Lemma GetNextWorkRequired_not_Lwma3_counterexample :
  nextDifficultyForkHeight params_lwma + 60 <= 61
  /\ 61 < nextDifficultyFork2Height params_lwma
  /\ length chain61 = 61%nat
  /\ GetNextWorkRequired (H := no_decay) chain61 1007320 params_lwma
     = Some 0x1e0fffff
  /\ GetCompact (lwma3_target params_lwma chain61) = 0x1d023cfd
  /\ Lwma3 chain61 params_lwma = Some 0x1d023cfd.
Proof.
  split; [vm_compute; discriminate|]. split; [vm_compute; reflexivity|].
  split; [reflexivity|]. split; [vm_compute; reflexivity|].
  split; vm_compute; reflexivity.
Qed.

Lemma GetNextWorkRequired_legacy_and_Lwma3_witness :
  61 < nextDifficultyFork2Height params_lwma /\
  GetNextWorkRequired (H := no_decay) chain61 1007320 params_lwma
  = Some 0x1e0fffff /\
  Lwma3 chain61 params_lwma
  = Some (GetCompact (lwma3_target params_lwma chain61)).
Proof.
  pose proof (GetNextWorkRequired_legacy_and_Lwma3 (H := no_decay)
                (mkIndex 60 1007200 0x1e0fffff)
                (chain_from 60 59 1007080 120 0x1e0fffff)
                1007320 params_lwma) as W.
  destruct W as (Hoff & _ & Hlwma);
    [ vm_compute; reflexivity | vm_compute; split; reflexivity
    | vm_compute; discriminate | reflexivity | ].
  split; [vm_compute; reflexivity|]. split.
  - apply Hoff. vm_compute. discriminate.
  - apply Hlwma; [simpl; lia | vm_compute; discriminate
                 | vm_compute; reflexivity].
Defined.

Section WithHash.
Context {Header : Type} `{MemoryHardHash Header}.

(** C3: at and past the memory-hard fork, from height 2 on, verification
    accepts a block whose target is above the active limit as soon as the
    memory-hard hash of the header is at most that target; the limit is
    not consulted on this path. *)
Theorem CheckProofOfWork_accepts_above_limit hash block nBits p height
  target h :
  2 <= height ->
  yespowerForkHeight p <= height ->
  SetCompact_full nBits = (target, false, false) ->
  target <> 0 ->
  active_limit p height < target ->
  yespower_tls block height = Some h ->
  h <= target ->
  CheckProofOfWork hash block nBits p height = true.
Proof.
  intros Hh Hf Hbits Hz Hlim Hy Hle. unfold CheckProofOfWork.
  destruct (Z.eqb_spec height 0); [lia|].
  destruct (Z.leb_spec (yespowerForkHeight p) height); [|lia].
  unfold CheckProofOfWorkWithHeight. rewrite Hbits.
  destruct (Z.eqb_spec height 0); [lia|]. cbn [orb].
  destruct (hash =? hashGenesisBlock p); [reflexivity|].
  destruct (Z.eqb_spec target 0); [done|]. cbn [orb].
  destruct (Z.leb_spec 1 height); [|lia].
  destruct (Z.eqb_spec height 1); [lia|].
  unfold CheckYespower. rewrite Hy. by apply Z.leb_le.
Qed.

(** Below the fork the same target is refused. *)
Lemma CheckProofOfWork_sha_rejects_above_limit hash block nBits p height :
  height <> 0 ->
  height < yespowerForkHeight p ->
  powLimit p < SetCompact nBits ->
  CheckProofOfWork hash block nBits p height = false.
Proof.
  intros Hh Hf Hlim. unfold CheckProofOfWork.
  destruct (Z.eqb_spec height 0); [done|].
  destruct (Z.leb_spec (yespowerForkHeight p) height); [lia|].
  unfold SetCompact in Hlim.
  destruct (SetCompact_full nBits) as [[target fNegative] fOverflow].
  cbn [fst] in Hlim. apply Z.ltb_lt in Hlim. rewrite Hlim.
  by rewrite !orb_true_r.
Qed.

End WithHash.

Lemma CheckProofOfWork_accepts_above_limit_witness :
  SetCompact_full 0x2100ffff = (0xffff * 2 ^ 240, false, false) /\
  active_limit params_nova 2 < 0xffff * 2 ^ 240 /\
  CheckProofOfWork (H := hash_one) 7 tt 0x2100ffff params_nova 2 = true.
Proof.
  split; [vm_compute; reflexivity|]. split; [vm_compute; reflexivity|].
  apply (CheckProofOfWork_accepts_above_limit (H := hash_one) 7 tt
           0x2100ffff params_nova 2 (0xffff * 2 ^ 240) 1);
    [ lia | vm_compute; discriminate | vm_compute; reflexivity
    | vm_compute; discriminate | vm_compute; reflexivity | reflexivity
    | vm_compute; discriminate ].
Defined.

End PowProps.

(** ** The coinbase *)

Module CoinbaseProps.
Import Miner MinerSpec.

(** C4: with an invalid governance address and a valid operator address
    the construction resizes the outputs to one and then assigns
    [vout[2]], an access past the end of the vector. *)
Theorem CreateNewBlock_vout_fallback_out_of_range scriptPubKeyIn nHeight
  subsidy nFees opScript burnEnd :
  CreateNewBlock_vout scriptPubKeyIn nHeight subsidy nFees
    (mkCoinbaseParams None (Some opScript) burnEnd) = None.
Proof. reflexivity. Qed.

(** With neither address valid the fallback is as the specification has
    it: one output, the whole reward, to the miner. *)
Lemma CreateNewBlock_vout_fallback_no_operator scriptPubKeyIn nHeight
  subsidy nFees burnEnd :
  CreateNewBlock_vout scriptPubKeyIn nHeight subsidy nFees
    (mkCoinbaseParams None None burnEnd)
  = Some [mkTxOut (if (1 <=? nHeight) && (nHeight <=? burnEnd)
                   then subsidy else subsidy + nFees) scriptPubKeyIn].
Proof. reflexivity. Qed.

(** The three outputs when both addresses are valid. *)
Lemma CreateNewBlock_vout_split scriptPubKeyIn nHeight subsidy nFees
  govScript opScript burnEnd :
  CreateNewBlock_vout scriptPubKeyIn nHeight subsidy nFees
    (mkCoinbaseParams (Some govScript) (Some opScript) burnEnd)
  = (let blockReward := if (1 <=? nHeight) && (nHeight <=? burnEnd)
                        then subsidy else subsidy + nFees in
     let governanceReward := Z.quot (blockReward * 7300) 10000 in
     let operatorReward := Z.quot (blockReward * 500) 10000 in
     Some [mkTxOut (blockReward - governanceReward - operatorReward)
                   scriptPubKeyIn;
           mkTxOut governanceReward govScript;
           mkTxOut operatorReward opScript]).
Proof. reflexivity. Qed.

(** C5, as amended. At height 100 past the burn window, with subsidy
    50e8, fees 1e8 and both addresses valid, the outputs are miner
    11.22e8, governance 37.23e8 and operator 2.55e8: governance is 7300
    and operator 500 basis points of the reward 51e8, the miner has the
    remainder, and the three sum to 51e8. *)
Theorem CreateNewBlock_vout_height_100 scriptPubKeyIn govScript opScript
  burnEnd :
  burnEnd < 100 ->
  CreateNewBlock_vout scriptPubKeyIn 100 5000000000 100000000
    (mkCoinbaseParams (Some govScript) (Some opScript) burnEnd)
  = Some [mkTxOut 1122000000 scriptPubKeyIn;
          mkTxOut 3723000000 govScript;
          mkTxOut 255000000 opScript]
  /\ 3723000000 = Z.quot (5100000000 * GOV_BPS) BPS_DENOM
  /\ 255000000 = Z.quot (5100000000 * OP_BPS) BPS_DENOM
  /\ 1122000000 = 5100000000 - 3723000000 - 255000000
  /\ 1122000000 + 3723000000 + 255000000 = 5100000000.
Proof.
  intros Hb. rewrite CreateNewBlock_vout_split.
  destruct (Z.leb_spec 100 burnEnd); [lia|].
  rewrite andb_false_r. repeat split; reflexivity.
Qed.

Lemma CreateNewBlock_vout_height_100_witness :
  CreateNewBlock_vout miner_script 100 5000000000 100000000
    (mkCoinbaseParams (Some gov_script) (Some op_script) 0)
  = Some [mkTxOut 1122000000 miner_script;
          mkTxOut 3723000000 gov_script;
          mkTxOut 255000000 op_script]
  /\ 3723000000 = Z.quot (5100000000 * GOV_BPS) BPS_DENOM
  /\ 255000000 = Z.quot (5100000000 * OP_BPS) BPS_DENOM
  /\ 1122000000 = 5100000000 - 3723000000 - 255000000
  /\ 1122000000 + 3723000000 + 255000000 = 5100000000.
Proof.
  apply (CreateNewBlock_vout_height_100 miner_script gov_script op_script 0).
  lia.
Defined.

(** C5, the claim as stated fails: the miner output of the scenario is
    11.22e8, not 22e8, and the three amounts of the claim sum to 61.78e8,
    not to 51e8. *)
Lemma CreateNewBlock_vout_height_100_counterexample :
  (nValue <$> (CreateNewBlock_vout miner_script 100 5000000000 100000000
                 (mkCoinbaseParams (Some gov_script) (Some op_script) 0)
               ≫= head)) = Some 1122000000
  /\ 1122000000 <> 2200000000
  /\ 2200000000 + 3723000000 + 255000000 <> 5100000000.
Proof. split; [reflexivity|]. split; discriminate. Qed.

End CoinbaseProps.

(** ** Package selection *)

Module SelectionProps.
Import Miner Sums MinerSpec IntFacts.

Local Set Warnings "-clear-no-such-hyp".

(** A set in visiting order holds the members of the set, once each. *)
Lemma in_order_perm (s : gset Z) : in_order s ≡ₚ elements s.
Proof. apply merge_sort_Permutation. Qed.

Lemma NoDup_in_order (s : gset Z) : NoDup (in_order s).
Proof. rewrite in_order_perm. apply NoDup_elements. Qed.

Lemma elem_of_in_order (s : gset Z) x : x ∈ in_order s <-> x ∈ s.
Proof. by rewrite in_order_perm, elem_of_elements. Qed.

Lemma in_order_empty : in_order ∅ = [].
Proof. unfold in_order. by rewrite elements_empty. Qed.

Lemma in_order_sorted (s : gset Z) : StronglySorted Z.le (in_order s).
Proof.
  apply StronglySorted_merge_sort.
  - intros x y z. apply Z.le_trans.
  - intros x y. destruct (Z.le_ge_cases x y); [by left|by right].
Qed.

Section Consistent.
Context `{Policy} (mp : CTxMemPool) (Hmp : consistent_mempool mp).

Lemma size_nonneg it : 0 <= GetTxSize (entry mp it).
Proof. pose proof (weight_le_vsize mp Hmp it). lia. Qed.

Lemma need_size_bounds d B :
  0 <= need_size mp d B <= GetSizeWithAncestors (entry mp d).
Proof.
  unfold need_size, sum_outside. split.
  - apply sumZ_nonneg. intros. apply size_nonneg.
  - etransitivity; [apply sumZ_filter_le; intros; apply size_nonneg|].
    apply (size_aggregate mp Hmp).
Qed.

Lemma need_sigops_bounds d B :
  0 <= need_sigops mp d B <= GetSigOpCostWithAncestors (entry mp d).
Proof.
  unfold need_sigops, sum_outside. split.
  - apply sumZ_nonneg. intros. apply (sigops_nonneg mp Hmp).
  - etransitivity;
      [apply sumZ_filter_le; intros; apply (sigops_nonneg mp Hmp)|].
    apply (sigops_aggregate mp Hmp).
Qed.

Lemma need_size_mono d (B B' : gset txiter) :
  B ⊆ B' -> need_size mp d B' <= need_size mp d B.
Proof.
  intros HB. unfold need_size, sum_outside.
  apply sumZ_filter_mono; [intros; apply size_nonneg|]. set_solver.
Qed.

Lemma need_sigops_mono d (B B' : gset txiter) :
  B ⊆ B' -> need_sigops mp d B' <= need_sigops mp d B.
Proof.
  intros HB. unfold need_sigops, sum_outside.
  apply sumZ_filter_mono; [intros; apply (sigops_nonneg mp Hmp)|]. set_solver.
Qed.

Lemma need_size_remove d (B : gset txiter) it :
  it ∈ with_ancestors mp d -> it ∉ B ->
  need_size mp d B = GetTxSize (entry mp it) + need_size mp d (B ∪ {[it]}).
Proof.
  intros Hin HB. unfold need_size, sum_outside.
  apply (sumZ_filter_remove (fun a => GetTxSize (entry mp a)));
    [apply NoDup_elements | by apply elem_of_elements | done].
Qed.

Lemma need_sigops_remove d (B : gset txiter) it :
  it ∈ with_ancestors mp d -> it ∉ B ->
  need_sigops mp d B
  = GetSigOpCost (entry mp it) + need_sigops mp d (B ∪ {[it]}).
Proof.
  intros Hin HB. unfold need_sigops, sum_outside.
  apply (sumZ_filter_remove (fun a => GetSigOpCost (entry mp a)));
    [apply NoDup_elements | by apply elem_of_elements | done].
Qed.

Lemma good_mono (B B' : gset txiter) d xo :
  B ⊆ B' -> good mp B d xo -> good mp B' d xo.
Proof.
  intros HB. destruct xo as [x|]; [|done]. unfold good.
  pose proof (need_size_mono d B B' HB). pose proof (need_sigops_mono d B B' HB).
  lia.
Qed.

Lemma update_descendant_other it d d' m :
  d' <> d -> update_descendant mp it d m !! d' = m !! d'.
Proof.
  intros Hne. unfold update_descendant.
  destruct (m !! d); by rewrite lookup_insert_ne.
Qed.

Lemma update_descendant_good (B : gset txiter) it d m :
  it ∈ with_ancestors mp d -> it ∉ B ->
  good mp B d (m !! d) ->
  good mp (B ∪ {[it]}) d (update_descendant mp it d m !! d).
Proof.
  intros Hin HB Hg. unfold update_descendant.
  pose proof (need_size_remove d B it Hin HB) as Es.
  pose proof (need_sigops_remove d B it Hin HB) as Eg.
  pose proof (need_size_bounds d (B ∪ {[it]})) as Bs.
  pose proof (need_sigops_bounds d (B ∪ {[it]})) as Bg.
  pose proof (need_size_bounds d B) as Bs0.
  pose proof (need_sigops_bounds d B) as Bg0.
  pose proof (size_nonneg it) as Hs.
  pose proof (sigops_nonneg mp Hmp it) as Hso.
  pose proof (size_aggregate mp Hmp d) as [_ Hlt].
  destruct (m !! d) as [x|] eqn:E; rewrite lookup_insert_eq; unfold good in *;
    cbn [nSizeWithAncestors nSigOpCostWithAncestors].
  - rewrite to_u64_small by lia. lia.
  - rewrite to_u64_small by lia. lia.
Qed.

Lemma update_fold_inner (B P : gset txiter) it ds :
  NoDup ds -> it ∉ B ->
  (forall d, d ∈ ds -> d ∉ P -> it ∈ with_ancestors mp d) ->
  forall acc d,
    (d ∈ ds -> d ∉ P -> good mp B d (fst acc !! d) ->
     good mp (B ∪ {[it]}) d (fst (fold_left (update_step mp P it) ds acc) !! d))
    /\ (d ∉ ds \/ d ∈ P ->
        fst (fold_left (update_step mp P it) ds acc) !! d = fst acc !! d).
Proof.
  intros Hnd HB Hanc. induction ds as [|d0 ds IH]; intros acc d.
  { split; [intros Hd; by apply elem_of_nil in Hd|done]. }
  apply NoDup_cons in Hnd as [Hd0 Hnd].
  assert (Hanc' : forall d, d ∈ ds -> d ∉ P -> it ∈ with_ancestors mp d).
  { intros ???. apply Hanc; [by apply list_elem_of_further|done]. }
  specialize (IH Hnd Hanc'). cbn [fold_left].
  destruct (IH (update_step mp P it acc d0) d) as [IH1 IH2].
  assert (Hstep : d <> d0 \/ d ∈ P ->
                  fst (update_step mp P it acc d0) !! d = fst acc !! d).
  { unfold update_step. destruct (decide (d0 ∈ P)); [done|].
    intros [Hne|HP]; cbn [fst].
    - by apply update_descendant_other.
    - apply update_descendant_other. intros ->. done. }
  split.
  - intros Hd HP Hg. apply elem_of_cons in Hd as [->|Hd].
    + rewrite IH2 by (by left).
      unfold update_step. rewrite decide_False by done. cbn [fst].
      apply update_descendant_good; try done.
      apply Hanc; [apply list_elem_of_here|done].
    + apply IH1; try done. rewrite Hstep; [done|].
      left. intros ->. done.
  - intros Hd. rewrite IH2.
    + apply Hstep. destruct Hd as [Hd|Hd]; [|by right].
      left. intros ->. apply Hd, list_elem_of_here.
    + destruct Hd as [Hd|Hd]; [|by right].
      left. intros Hin. apply Hd. by apply list_elem_of_further.
Qed.

Lemma update_outer_spec (B P : gset txiter) it acc :
  it ∈ P -> it ∉ B -> all_good mp B (fst acc) ->
  all_good mp (B ∪ {[it]}) (fst (update_outer mp P acc it))
  /\ (forall d, is_Some (fst (update_outer mp P acc it) !! d) ->
       is_Some (fst acc !! d)
       \/ ((d ∉ P) /\ it ∈ CalculateMemPoolAncestors mp d)).
Proof.
  intros HP HB Hg. unfold update_outer.
  pose proof (update_fold_inner B P it
                (in_order (CalculateDescendants mp it))
                (NoDup_in_order _) HB) as Hin.
  assert (Hanc : forall d, d ∈ in_order (CalculateDescendants mp it) ->
                           d ∉ P -> it ∈ CalculateMemPoolAncestors mp d).
  { intros d Hd HdP. apply elem_of_in_order in Hd.
    apply (descendants_ancestors mp Hmp); [done|]. intros ->. done. }
  assert (Hanc' : forall d, d ∈ in_order (CalculateDescendants mp it) ->
                            d ∉ P -> it ∈ with_ancestors mp d).
  { intros d Hd HdP. unfold with_ancestors. apply elem_of_union_r.
    by apply Hanc. }
  specialize (Hin Hanc' acc).
  split.
  - intros d. destruct (Hin d) as [H1 H2].
    destruct (decide (d ∈ in_order (CalculateDescendants mp it)));
      [destruct (decide (d ∈ P))|].
    + rewrite H2 by (by right). eapply good_mono; [|apply Hg]. set_solver.
    + by apply H1.
    + rewrite H2 by (by left). eapply good_mono; [|apply Hg]. set_solver.
  - intros d Hs. destruct (Hin d) as [H1 H2].
    destruct (decide (d ∈ in_order (CalculateDescendants mp it)));
      [destruct (decide (d ∈ P))|].
    + left. by rewrite <- H2 by (by right).
    + right. split; [done|]. by apply Hanc.
    + left. by rewrite <- H2 by (by left).
Qed.

Lemma update_fold_outer (P : gset txiter) its :
  NoDup its ->
  forall (B : gset txiter) acc,
    (forall it, it ∈ its -> it ∈ P /\ it ∉ B) ->
    all_good mp B (fst acc) ->
    all_good mp (B ∪ list_to_set its) (fst (fold_left (update_outer mp P) its acc))
    /\ (forall d, is_Some (fst (fold_left (update_outer mp P) its acc) !! d) ->
         is_Some (fst acc !! d)
         \/ ((d ∉ P) /\ exists it, it ∈ its
                                 /\ it ∈ CalculateMemPoolAncestors mp d)).
Proof.
  induction 1 as [|it its Hit Hnd IH]; intros B acc Hits Hg.
  { cbn [fold_left]. split; [|by left].
    intros d. eapply good_mono; [|apply Hg]. set_solver. }
  cbn [fold_left].
  destruct (Hits it (list_elem_of_here _ _)) as [HP HB].
  destruct (update_outer_spec B P it acc HP HB Hg) as [Hg1 Hk1].
  destruct (IH (B ∪ {[it]}) (update_outer mp P acc it)) as [Hg2 Hk2];
    [|done|].
  { intros it' Hit'. destruct (Hits it' (list_elem_of_further _ _ _ Hit')).
    split; [done|]. apply not_elem_of_union. split; [done|].
    apply not_elem_of_singleton. intros ->. done. }
  split.
  - rewrite list_to_set_cons.
    replace (B ∪ ({[it]} ∪ list_to_set its))
      with (B ∪ {[it]} ∪ list_to_set its) by set_solver.
    done.
  - intros d Hs. destruct (Hk2 d Hs) as [Hs'|(HdP & it' & Hit' & Ha)].
    + destruct (Hk1 d Hs') as [?|[? ?]]; [by left|].
      right. split; [done|]. exists it. split; [apply list_elem_of_here|done].
    + right. split; [done|]. exists it'.
      split; [by apply list_elem_of_further|done].
Qed.

Lemma UpdatePackagesForAdded_unfold P m :
  UpdatePackagesForAdded mp P m
  = fold_left (update_outer mp P) (in_order P) (m, 0).
Proof. reflexivity. Qed.

Lemma UpdatePackagesForAdded_spec (B P : gset txiter) m :
  P ## B -> all_good mp B m ->
  all_good mp (B ∪ P) (fst (UpdatePackagesForAdded mp P m))
  /\ (forall d, is_Some (fst (UpdatePackagesForAdded mp P m) !! d) ->
       is_Some (m !! d)
       \/ ((d ∉ P) /\ exists it, it ∈ P /\ it ∈ CalculateMemPoolAncestors mp d)).
Proof.
  intros Hdisj Hg. rewrite UpdatePackagesForAdded_unfold.
  destruct (update_fold_outer P (in_order P) (NoDup_in_order _) B (m, 0))
    as [H1 H2]; [|done|].
  { intros it Hit%elem_of_in_order. split; [done|]. set_solver. }
  split.
  - replace (B ∪ P) with (B ∪ list_to_set (in_order P)); [done|].
    f_equal. apply set_eq. intros x.
    by rewrite elem_of_list_to_set, elem_of_in_order.
  - intros d Hs. destruct (H2 d Hs) as [?|(? & it & Hit%elem_of_in_order & ?)];
      [by left|]. right. eauto.
Qed.

Lemma insert_by_perm lt x l : insert_by lt x l ≡ₚ x :: l.
Proof.
  induction l as [|y l IH]; [done|]. cbn [insert_by].
  destruct (lt y x); [|done]. rewrite IH. apply Permutation_swap.
Qed.

Lemma SortForBlock_perm (P : gset txiter) : SortForBlock mp P ≡ₚ elements P.
Proof.
  unfold SortForBlock. rewrite <- in_order_perm.
  induction (in_order P) as [|x l IH]; [done|].
  cbn [fold_right]. rewrite insert_by_perm. by rewrite IH.
Qed.

Lemma fold_delete_lookup (l : list txiter)
  (m : gmap txiter CTxMemPoolModifiedEntry) d :
  fold_left (fun m it => delete it m) l m !! d
  = if decide (d ∈ l) then None else m !! d.
Proof.
  revert m. induction l as [|x l IH]; intros m; cbn [fold_left].
  { rewrite decide_False; [done|]. apply not_elem_of_nil. }
  rewrite IH. destruct (decide (d ∈ l)).
  - rewrite decide_True; [done|]. by apply list_elem_of_further.
  - destruct (decide (d = x)) as [->|Hne].
    + rewrite decide_True by apply list_elem_of_here.
      apply lookup_delete_eq.
    + rewrite decide_False by (by apply not_elem_of_cons).
      by apply lookup_delete_ne.
Qed.

Lemma best_modified_lookup (m : gmap txiter CTxMemPoolModifiedEntry) it x :
  best_modified m = Some (it, x) -> m !! it = Some x.
Proof.
  unfold best_modified. intros Hb. apply elem_of_map_to_list.
  revert Hb. generalize (map_to_list m). intros l.
  induction l as [|y l IH]; [done|]. cbn [fold_right].
  destruct (fold_right _ None l) as [b|] eqn:E.
  - destruct (CompareTxMemPoolEntryByAncestorFee y b).
    + intros [= ->]. apply list_elem_of_here.
    + intros [= ->]. apply list_elem_of_further. by apply IH.
  - intros [= ->]. apply list_elem_of_here.
Qed.

Lemma best_modified_nonempty (m : gmap txiter CTxMemPoolModifiedEntry) :
  m <> ∅ -> is_Some (best_modified m).
Proof.
  intros Hm. unfold best_modified.
  destruct (map_to_list m) as [|y l] eqn:E.
  { by apply map_to_list_empty_iff in E. }
  cbn [fold_right]. destruct (fold_right _ None l); [|by eexists].
  destruct (CompareTxMemPoolEntryByAncestorFee y p); by eexists.
Qed.

(** [AddToBlock] over a list whose weights and sigops do not wrap. *)
Lemma AddToBlock_fold l : forall a,
  0 <= nBlockWeight a ->
  nBlockWeight a + sumZ (fun it => GetTxWeight (entry mp it)) l < 2 ^ 64 ->
  0 <= nBlockSigOpsCost a ->
  nBlockSigOpsCost a + sumZ (fun it => GetSigOpCost (entry mp it)) l < 2 ^ 64 ->
  nBlockWeight (fold_left (AddToBlock mp) l a)
  = nBlockWeight a + sumZ (fun it => GetTxWeight (entry mp it)) l
  /\ nBlockSigOpsCost (fold_left (AddToBlock mp) l a)
     = nBlockSigOpsCost a + sumZ (fun it => GetSigOpCost (entry mp it)) l
  /\ inBlock (fold_left (AddToBlock mp) l a) = list_to_set l ∪ inBlock a
  /\ nBlockMaxWeight (fold_left (AddToBlock mp) l a) = nBlockMaxWeight a.
Proof.
  induction l as [|x l IH]; intros a Hw Hwl Hs Hsl; cbn [fold_left].
  { change (sumZ _ []) with 0. repeat split; try lia. set_solver. }
  rewrite !sumZ_cons in *.
  pose proof (weight_le_vsize mp Hmp x) as Hx.
  pose proof (sigops_nonneg mp Hmp x) as Hsx.
  assert (0 <= sumZ (fun it => GetTxWeight (entry mp it)) l).
  { apply sumZ_nonneg. intros y. pose proof (weight_le_vsize mp Hmp y). lia. }
  assert (0 <= sumZ (fun it => GetSigOpCost (entry mp it)) l).
  { apply sumZ_nonneg. intros y. apply (sigops_nonneg mp Hmp). }
  assert (Ew : nBlockWeight (AddToBlock mp a x)
               = nBlockWeight a + GetTxWeight (entry mp x)).
  { cbn [AddToBlock nBlockWeight]. apply to_u64_small. lia. }
  assert (Es : nBlockSigOpsCost (AddToBlock mp a x)
               = nBlockSigOpsCost a + GetSigOpCost (entry mp x)).
  { cbn [AddToBlock nBlockSigOpsCost]. apply to_u64_small. lia. }
  destruct (IH (AddToBlock mp a x)) as (E1 & E2 & E3 & E4);
    [rewrite Ew; lia | rewrite Ew; lia | rewrite Es; lia | rewrite Es; lia |].
  rewrite E1, E2, E3, E4, Ew, Es.
  cbn [AddToBlock inBlock nBlockMaxWeight].
  repeat split; try lia. set_solver.
Qed.

Lemma package_sum f iter (B : gset txiter) :
  iter ∉ B ->
  sumZ f (elements (package_of mp iter B))
  = sum_outside f (with_ancestors mp iter) B.
Proof.
  intros Hi. unfold sum_outside. apply sumZ_perm.
  apply NoDup_Permutation;
    [apply NoDup_elements | apply NoDup_filter, NoDup_elements |].
  intros x. rewrite list_elem_of_filter, !elem_of_elements.
  unfold package_of, with_ancestors. set_solver.
Qed.

Lemma Inv_fail_package maxW s fUsingModified iter mi' counts :
  Inv mp maxW s -> Inv mp maxW (fail_package s fUsingModified iter mi' counts).
Proof.
  intros [Hw Hm Hs Hg Hd Hc Hmw]. split; cbn [fail_package assembler mapModifiedTx];
    try done.
  - intros d. destruct fUsingModified; [|apply Hg].
    rewrite lookup_delete. destruct (decide (iter = d)); [done|apply Hg].
  - intros d. destruct fUsingModified; [|apply Hd].
    rewrite lookup_delete. destruct (decide (iter = d)); [by intros [? ?]|apply Hd].
Qed.

Lemma select_entry_spec s cand rest iter fUsingModified xo mi' :
  select_entry mp s cand rest = Some (iter, fUsingModified, xo, mi') ->
  (fUsingModified = true /\ exists x, xo = Some x /\ mapModifiedTx s !! iter = Some x)
  \/ (fUsingModified = false /\ xo = None /\ cand = Some iter).
Proof.
  unfold select_entry.
  destruct cand as [c|], (best_modified (mapModifiedTx s)) as [[it x]|] eqn:E;
    try discriminate.
  - destruct (CompareTxMemPoolEntryByAncestorFee _ _); intros [= <- <- <- <-].
    + left. split; [done|]. exists x. split; [done|].
      by apply best_modified_lookup.
    + by right.
  - intros [= <- <- <- <-]. by right.
  - intros [= <- <- <- <-]. left. split; [done|]. exists x. split; [done|].
    by apply best_modified_lookup.
Qed.

Lemma TestPackage_true a ps psig :
  TestPackage a ps psig = true ->
  to_u64 (nBlockWeight a + 4 * ps) < nBlockMaxWeight a
  /\ to_u64 (nBlockSigOpsCost a + psig) < MAX_BLOCK_SIGOPS_COST.
Proof.
  unfold TestPackage, WITNESS_SCALE_FACTOR.
  destruct (Z.leb_spec (nBlockMaxWeight a) (to_u64 (nBlockWeight a + 4 * ps)));
    [discriminate|].
  destruct (Z.leb_spec MAX_BLOCK_SIGOPS_COST
                       (to_u64 (nBlockSigOpsCost a + psig)));
    [discriminate|]. done.
Qed.

Lemma evaluate_package_Inv maxW s iter fUsingModified xo mi' :
  policy_ok -> Inv mp maxW s ->
  (fUsingModified = true /\ exists x, xo = Some x /\ mapModifiedTx s !! iter = Some x)
  \/ (fUsingModified = false /\ xo = None /\ iter ∉ inBlock (assembler s)) ->
  match evaluate_package mp s iter fUsingModified xo mi' with
  | Continue s' | Finished s' => Inv mp maxW s'
  | Aborted => False
  end.
Proof.
  intros [Hpw Hps] HI Hsel.
  pose proof HI as [Hw Hm Hs Hg Hd Hc Hmw].
  set (a := assembler s) in *. set (B := inBlock a) in *.
  assert (HiB : iter ∉ B).
  { destruct Hsel as [(_ & x & _ & Hx)|(_ & _ & ?)]; [|done].
    apply Hd. by eexists. }
  unfold evaluate_package. fold a. fold B.
  rewrite decide_False by done.
  set (ps := match xo with Some x => nSizeWithAncestors x
                         | None => GetSizeWithAncestors (entry mp iter) end).
  set (pf := match xo with Some x => nModFeesWithAncestors x
                         | None => GetModFeesWithAncestors (entry mp iter) end).
  set (psig := match xo with Some x => nSigOpCostWithAncestors x
                           | None => GetSigOpCostWithAncestors (entry mp iter)
               end).
  assert (Hps_b : need_size mp iter B <= ps
                  <= GetSizeWithAncestors (entry mp iter)
                  /\ need_sigops mp iter B <= psig
                     <= GetSigOpCostWithAncestors (entry mp iter)).
  { destruct Hsel as [(_ & x & -> & Hx)|(_ & -> & _)]; subst ps psig.
    - specialize (Hg iter). rewrite Hx in Hg. exact Hg.
    - pose proof (need_size_bounds iter B). pose proof (need_sigops_bounds iter B).
      lia. }
  cbv zeta.
  destruct ((pf <? blockMinFeeRate_GetFee ps) || negb (TestPackage a ps psig))
    eqn:Efail.
  { destruct (_ && _); by apply Inv_fail_package. }
  apply orb_false_iff in Efail as [_ HT]. apply negb_false_iff in HT.
  apply TestPackage_true in HT as [HTw HTs].
  fold (package_of mp iter B).
  destruct (negb (TestPackageTransactions mp a (package_of mp iter B))).
  { by apply Inv_fail_package. }
  set (P := package_of mp iter B).
  pose proof (size_aggregate mp Hmp iter) as [_ Hlt].
  pose proof (sigops_aggregate mp Hmp iter) as [_ Hlts].
  pose proof (need_size_bounds iter B) as Hns.
  pose proof (need_sigops_bounds iter B) as Hnsig.
  rewrite to_u64_small in HTw by lia.
  rewrite to_u64_small in HTs by lia.
  (* the sums over the sorted package *)
  pose proof (SortForBlock_perm P) as Hperm.
  assert (Ewt : sumZ (fun it => GetTxWeight (entry mp it)) (SortForBlock mp P)
                <= 4 * need_size mp iter B).
  { rewrite (sumZ_perm _ _ _ Hperm).
    unfold need_size. rewrite <- (package_sum _ iter B HiB). fold P.
    rewrite <- sumZ_scale. apply sumZ_le. intros y.
    pose proof (weight_le_vsize mp Hmp y). lia. }
  assert (Ewt0 : 0 <= sumZ (fun it => GetTxWeight (entry mp it))
                          (SortForBlock mp P)).
  { apply sumZ_nonneg. intros y. pose proof (weight_le_vsize mp Hmp y). lia. }
  assert (Est : sumZ (fun it => GetSigOpCost (entry mp it)) (SortForBlock mp P)
                = need_sigops mp iter B).
  { rewrite (sumZ_perm _ _ _ Hperm). unfold need_sigops.
    by rewrite <- (package_sum _ iter B HiB). }
  destruct (AddToBlock_fold (SortForBlock mp P) a) as (E1 & E2 & E3 & E4);
    try lia.
  assert (EB : inBlock (fold_left (AddToBlock mp) (SortForBlock mp P) a) = B ∪ P).
  { rewrite E3. fold B. apply set_eq. intros y.
    rewrite elem_of_union, elem_of_list_to_set, Hperm, elem_of_elements.
    set_solver. }
  assert (HPB : P ## B).
  { unfold P, package_of. set_solver. }
  set (m' := fold_left (fun m it => delete it m) (SortForBlock mp P)
                       (mapModifiedTx s)).
  assert (Hm' : forall d, m' !! d = if decide (d ∈ P) then None
                                    else mapModifiedTx s !! d).
  { intros d. unfold m'. rewrite fold_delete_lookup.
    destruct (decide (d ∈ SortForBlock mp P)) as [Hin|Hin];
      rewrite Hperm, elem_of_elements in Hin.
    - by rewrite decide_True.
    - by rewrite decide_False. }
  assert (Hg' : all_good mp B m').
  { intros d. rewrite Hm'. destruct (decide (d ∈ P)); [done|apply Hg]. }
  destruct (UpdatePackagesForAdded_spec B P m' HPB Hg') as [Hg'' Hk].
  destruct (UpdatePackagesForAdded mp P m') as [m'' n]. cbn [fst] in *.
  split; cbn [assembler mapModifiedTx].
  - rewrite E1, E4. lia.
  - by rewrite E4.
  - rewrite E2. pose proof (sigops_nonneg mp Hmp). lia.
  - by rewrite EB.
  - intros d Hsd. rewrite EB.
    destruct (Hk d Hsd) as [Hs'|(HdP & it & HitP & Hanc)].
    + rewrite Hm' in Hs'. destruct (decide (d ∈ P)); [by destruct Hs'|].
      specialize (Hd d Hs'). set_solver.
    + apply not_elem_of_union. split; [|done].
      intros HdB. specialize (Hc d HdB). set_solver.
  - intros b. rewrite EB. intros [HbB|HbP]%elem_of_union.
    + specialize (Hc b HbB). set_solver.
    + unfold P, package_of in HbP.
      apply elem_of_union in HbP as [->%elem_of_singleton|Hb].
      * unfold P, package_of. intros y Hy.
        destruct (decide (y ∈ B)); set_solver.
      * apply elem_of_difference in Hb as [Hb _].
        pose proof (ancestors_transitive mp Hmp b iter Hb) as Ht.
        unfold P, package_of. intros y Hy.
        destruct (decide (y ∈ B)); set_solver.
  - by rewrite E4.
Qed.

Lemma addPackageTxs_step_Inv maxW s :
  policy_ok -> Inv mp maxW s ->
  match addPackageTxs_step mp s with
  | Continue s' | Finished s' => Inv mp maxW s'
  | Aborted => False
  end.
Proof.
  intros Hp HI. unfold addPackageTxs_step.
  destruct (mi s) as [|c rest].
  - destruct (decide (mapModifiedTx s = ∅)); [done|].
    destruct (select_entry mp s None []) as [[[[iter fU] xo] mi']|] eqn:E;
      [|done].
    apply evaluate_package_Inv; try done.
    apply select_entry_spec in E as [?|(_ & _ & ?)]; [by left|done].
  - destruct (SkipMapTxEntry s c) eqn:Eskip.
    { destruct HI. by split. }
    destruct (select_entry mp s (Some c) rest) as [[[[iter fU] xo] mi']|] eqn:E;
      [|done].
    apply evaluate_package_Inv; try done.
    apply select_entry_spec in E as [?|(? & ? & [= <-])]; [by left|].
    right. repeat split; try done.
    unfold SkipMapTxEntry in Eskip.
    apply orb_false_iff in Eskip as [Eskip _].
    apply orb_false_iff in Eskip as [_ Eskip].
    by apply bool_decide_eq_false in Eskip.
Qed.

Lemma addPackageTxs_loop_Inv maxW fuel : forall s,
  policy_ok -> Inv mp maxW s ->
  exists s', addPackageTxs_loop fuel mp s = Some s' /\ Inv mp maxW s'.
Proof.
  induction fuel as [|fuel IH]; intros s Hp HI; cbn [addPackageTxs_loop].
  { by exists s. }
  pose proof (addPackageTxs_step_Inv maxW s Hp HI) as Hstep.
  destruct (addPackageTxs_step mp s) as [s'|s'|]; [by apply IH| |done].
  by exists s'.
Qed.

Lemma Inv_init opt height cutoff witness :
  policy_ok ->
  Inv mp (nBlockMaxWeight (BlockAssembler_new opt height cutoff witness))
      (addPackageTxs_init mp (BlockAssembler_new opt height cutoff witness)).
Proof.
  intros [Hpw Hps]. unfold addPackageTxs_init, BlockAssembler_new.
  cbn [inBlock]. rewrite UpdatePackagesForAdded_unfold, in_order_empty.
  cbn [fold_left].
  assert (Hmax : 4000 <= Z.max 4000 (Z.min (MAX_BLOCK_WEIGHT - 4000) opt)
                 < 2 ^ 32) by lia.
  split; cbn [assembler mapModifiedTx nBlockWeight nBlockMaxWeight
              nBlockSigOpsCost inBlock].
  - rewrite to_u32_small by lia. lia.
  - rewrite to_u32_small by lia. lia.
  - lia.
  - intros d. by rewrite lookup_empty.
  - intros d. rewrite lookup_empty. by intros [? ?].
  - intros b Hb. by apply not_elem_of_empty in Hb.
  - done.
Qed.

(** C6. On a consistent mempool view, after any number of rounds of
    package selection the loop has not stopped on its assertion, the
    block weight, which starts at the 4000 reserved for the coinbase, is
    at most [nBlockMaxWeight], and the sigops cost, which starts at the
    400 reserved, is at most [MAX_BLOCK_SIGOPS_COST]: a package passes
    [TestPackage] on aggregates that cover all its transactions before
    any of them is added. *)
Theorem addPackageTxs_within_limits opt height cutoff witness fuel :
  policy_ok ->
  exists s,
    addPackageTxs fuel mp (BlockAssembler_new opt height cutoff witness)
    = Some s
    /\ nBlockMaxWeight (assembler s)
       = Z.max 4000 (Z.min (MAX_BLOCK_WEIGHT - 4000) opt)
    /\ 4000 <= nBlockMaxWeight (assembler s) <= MAX_BLOCK_WEIGHT - 4000
    /\ nBlockWeight (assembler s) <= nBlockMaxWeight (assembler s)
    /\ nBlockSigOpsCost (assembler s) <= MAX_BLOCK_SIGOPS_COST.
Proof.
  intros Hp. unfold addPackageTxs.
  destruct (addPackageTxs_loop_Inv _ fuel _ Hp
              (Inv_init opt height cutoff witness Hp)) as (s & Hs & HI).
  exists s. split; [done|]. destruct HI as [Hw _ Hso _ _ _ Hmw].
  destruct Hp as [Hpw _].
  assert (E : nBlockMaxWeight (BlockAssembler_new opt height cutoff witness)
              = Z.max 4000 (Z.min (MAX_BLOCK_WEIGHT - 4000) opt)).
  { cbn [BlockAssembler_new nBlockMaxWeight]. apply to_u32_small. lia. }
  rewrite Hmw in *. rewrite E in *. lia.
Qed.
End Consistent.

Lemma sample_mempool_consistent : consistent_mempool sample_mempool.
Proof.
  split.
  - intros it. cbn [sample_mempool entry].
    destruct (it =? 1); [|destruct (it =? 2)]; vm_compute; split; discriminate.
  - intros it. cbn [sample_mempool entry].
    destruct (it =? 1); [|destruct (it =? 2)]; vm_compute; discriminate.
  - intros it. unfold with_ancestors. cbn [sample_mempool entry CalculateMemPoolAncestors].
    destruct (Z.eqb_spec it 1) as [->|H1].
    { vm_compute. split; [discriminate|reflexivity]. }
    destruct (Z.eqb_spec it 2) as [->|H2].
    { vm_compute. split; [discriminate|reflexivity]. }
    rewrite (right_id_L ∅ (∪)), elements_singleton. cbn [sumZ fold_right].
    destruct (Z.eqb_spec it 1); [done|]. destruct (Z.eqb_spec it 2); [done|].
    vm_compute. split; [discriminate|reflexivity].
  - intros it. unfold with_ancestors. cbn [sample_mempool entry CalculateMemPoolAncestors].
    destruct (Z.eqb_spec it 1) as [->|H1].
    { vm_compute. split; [discriminate|reflexivity]. }
    destruct (Z.eqb_spec it 2) as [->|H2].
    { vm_compute. split; [discriminate|reflexivity]. }
    rewrite (right_id_L ∅ (∪)), elements_singleton. cbn [sumZ fold_right].
    destruct (Z.eqb_spec it 1); [done|]. destruct (Z.eqb_spec it 2); [done|].
    vm_compute. split; [discriminate|reflexivity].
  - intros it d. cbn [sample_mempool CalculateDescendants CalculateMemPoolAncestors].
    destruct (Z.eqb_spec it 1) as [->|H1].
    + intros Hd Hne. assert (d = 2) as -> by set_solver. cbn. set_solver.
    + intros Hd Hne. set_solver.
  - intros a b. cbn [sample_mempool CalculateMemPoolAncestors].
    destruct (Z.eqb_spec b 2) as [->|H2]; [|set_solver].
    intros Ha. assert (a = 1) as -> by set_solver. cbn. set_solver.
Qed.

Lemma sample_policy_ok : policy_ok (H := sample_policy).
Proof. vm_compute. repeat split; discriminate. Qed.

(** On the sample mempool the selection takes the package of the child:
    the parent first, then the child. *)
Example sample_selection :
  (fun s => (vtx (assembler s), nBlockWeight (assembler s),
             nBlockSigOpsCost (assembler s), nFees (assembler s)))
    <$> addPackageTxs (H := sample_policy) 10 sample_mempool
          (BlockAssembler_new (H := sample_policy) 3996000 100 0 true)
  = Some ([1; 2], 5000, 412, 15100).
Proof. vm_compute. reflexivity. Qed.

Lemma addPackageTxs_within_limits_witness :
  consistent_mempool sample_mempool /\
  policy_ok (H := sample_policy) /\
  exists s,
    addPackageTxs (H := sample_policy) 10 sample_mempool
      (BlockAssembler_new (H := sample_policy) 3996000 100 0 true) = Some s
    /\ nBlockMaxWeight (assembler s)
       = Z.max 4000 (Z.min (MAX_BLOCK_WEIGHT (Policy := sample_policy) - 4000)
                           3996000)
    /\ 4000 <= nBlockMaxWeight (assembler s)
            <= MAX_BLOCK_WEIGHT (Policy := sample_policy) - 4000
    /\ nBlockWeight (assembler s) <= nBlockMaxWeight (assembler s)
    /\ nBlockSigOpsCost (assembler s)
       <= MAX_BLOCK_SIGOPS_COST (Policy := sample_policy).
Proof.
  split; [exact sample_mempool_consistent|].
  split; [exact sample_policy_ok|].
  exact (addPackageTxs_within_limits (H := sample_policy) sample_mempool
           sample_mempool_consistent 3996000 100 0 true 10 sample_policy_ok).
Defined.

End SelectionProps.

(** ** The ledger: invariants, acceptance and queries *)

Module LedgerProps.
Import Ser Token Ledger TokenSpec LedgerSpec IntFacts TokenProps.
Local Set Warnings "-clear-no-such-hyp".

Lemma balances_of_insert (l : TokenLedger) (tk : string) (k : string * string) (v : Z) :
  balances_of (with_balances l (<[k := v]> (m_balances l))) tk
  = balances_of l tk + (if decide (k.2 = tk) then v - at0 (m_balances l) k else 0).
Proof.
  assert (Hc : forall (m' : gmap (string * string) Z) (j1 j2 : string * string)
                      (z1 z2 y : Z),
             j1 <> j2 -> m' !! j1 = Some z1 -> m' !! j2 = Some z2 ->
             (if decide (j1.2 = tk) then z1 + (if decide (j2.2 = tk) then z2 + y else y)
              else (if decide (j2.2 = tk) then z2 + y else y))
             = (if decide (j2.2 = tk) then z2 + (if decide (j1.2 = tk) then z1 + y else y)
                else (if decide (j1.2 = tk) then z1 + y else y))).
  { intros. repeat case_decide; lia. }
  unfold balances_of, at0. cbn [with_balances m_balances].
  destruct (m_balances l !! k) as [x|] eqn:E.
  - rewrite <- (insert_delete_eq (m_balances l) k v).
    rewrite (map_fold_insert_L _ _ k v (delete k (m_balances l)));
      [|apply Hc|apply lookup_delete_eq].
    rewrite (map_fold_delete_L _ _ k x (m_balances l)); [|apply Hc|exact E].
    cbn. case_decide; lia.
  - rewrite (map_fold_insert_L _ _ k v (m_balances l)); [|apply Hc|exact E].
    cbn. case_decide; lia.
Qed.

Lemma same_gap_refl l : same_gap l l.
Proof. intros tk. rewrite Z.sub_diag. reflexivity. Qed.

Lemma same_gap_trans l1 l2 l3 : same_gap l1 l2 -> same_gap l2 l3 -> same_gap l1 l3.
Proof.
  intros H1 H2 tk. specialize (H1 tk). specialize (H2 tk).
  Z.div_mod_to_equations. lia.
Qed.

Lemma same_gap_consistent l l' :
  same_gap l l' -> supply_consistent l -> supply_consistent l'.
Proof.
  intros H1 H2 tk. specialize (H1 tk). specialize (H2 tk).
  Z.div_mod_to_equations. lia.
Qed.

Lemma same_gap_eq l l' :
  m_balances l' = m_balances l -> m_totalSupply l' = m_totalSupply l ->
  same_gap l l'.
Proof.
  intros Hb Hs tk. unfold balances_of, TotalSupply. rewrite Hb, Hs.
  rewrite Z.sub_diag. reflexivity.
Qed.

Lemma balances_of_touch l k tk :
  balances_of (with_balances l (touch (m_balances l) k)) tk = balances_of l tk.
Proof.
  unfold touch. destruct (m_balances l !! k) eqn:E.
  - by destruct l.
  - rewrite balances_of_insert. unfold at0. rewrite E. cbn.
    case_decide; lia.
Qed.

Lemma balances_of_ext l l' tk :
  m_balances l' = m_balances l -> balances_of l' tk = balances_of l tk.
Proof. unfold balances_of. by intros ->. Qed.

(** Adding [v] to a balance and to the supply of its token. *)
Lemma balances_of_with_totalSupply l s tk :
  balances_of (with_totalSupply l s) tk = balances_of l tk.
Proof. reflexivity. Qed.

Lemma balances_of_add_at l k v tk :
  balances_of (with_balances l (add_at (m_balances l) k v)) tk
  = balances_of l tk
    + (if decide (k.2 = tk)
       then wrap64 (at0 (m_balances l) k + v) - at0 (m_balances l) k else 0).
Proof. unfold add_at. apply balances_of_insert. Qed.

Lemma credit_same_gap l w t v :
  same_gap l
    (with_totalSupply (with_balances l (add_at (m_balances l) (w, t) v))
       (add_at (m_totalSupply l) t v)).
Proof.
  intros tk. rewrite balances_of_with_totalSupply, balances_of_add_at.
  unfold TotalSupply. cbn [with_totalSupply m_totalSupply snd].
  destruct (decide (t = tk)) as [->|Hne].
  - rewrite at0_add_at_eq. unfold wrap64. Z.div_mod_to_equations. lia.
  - rewrite at0_add_at_ne by done.
    replace (_ - _) with 0 by lia. reflexivity.
Qed.

Lemma debit_gap l w t v tk' :
  balances_of
    (with_balances l
       (<[(w, t) := v]> (touch (m_balances l) (w, t)))) tk'
  = balances_of l tk'
    + (if decide (t = tk') then v - at0 (m_balances l) (w, t) else 0).
Proof.
  change (with_balances l (<[(w, t) := v]> (touch (m_balances l) (w, t))))
    with (with_balances (with_balances l (touch (m_balances l) (w, t)))
            (<[(w, t) := v]>
               (m_balances (with_balances l (touch (m_balances l) (w, t)))))).
  rewrite balances_of_insert, balances_of_touch.
  cbn [with_balances m_balances snd]. by rewrite at0_touch.
Qed.

Lemma move_same_gap l fr t tk amt :
  same_gap l
    (with_balances l
       (add_at (<[(fr, tk) := wrap64 (at0 (touch (m_balances l) (fr, tk))
                                          (fr, tk) - amt)]>
                  (touch (m_balances l) (fr, tk))) (t, tk) amt)).
Proof.
  intros tk'.
  set (v := wrap64 _).
  set (b1 := <[(fr, tk) := v]> _).
  change (with_balances l (add_at b1 (t, tk) amt))
    with (with_balances (with_balances l b1)
            (add_at (m_balances (with_balances l b1)) (t, tk) amt)).
  rewrite balances_of_add_at. unfold b1. rewrite debit_gap.
  unfold TotalSupply. cbn [with_balances m_balances m_totalSupply snd].
  fold b1. subst v. rewrite at0_touch.
  destruct (decide (tk = tk')); [|replace (_ - _) with 0 by lia; reflexivity].
  generalize (at0 b1 (t, tk)) (at0 (m_balances l) (fr, tk)).
  intros x y. unfold wrap64. Z.div_mod_to_equations. lia.
Qed.

Section WithNode.
Context `{Node}.

Lemma CreateToken_same_gap l w tk amt nm sy de h :
  same_gap l (CreateToken l w tk amt nm sy de h).
Proof.
  unfold CreateToken. cbv zeta.
  eapply same_gap_trans; [apply (credit_same_gap l w tk amt)|].
  destruct (_ !! tk); [apply same_gap_refl|]. by apply same_gap_eq.
Qed.

Lemma Transfer_same_gap l fr t tk amt :
  same_gap l (fst (Transfer l fr t tk amt)).
Proof.
  unfold Transfer. cbv zeta. destruct (_ <? amt); cbn [fst].
  - intros tk'. rewrite balances_of_touch. unfold TotalSupply.
    cbn. rewrite Z.sub_diag. reflexivity.
  - apply move_same_gap.
Qed.

Lemma TransferFrom_same_gap l sp fr t tk amt :
  same_gap l (fst (TransferFrom l sp fr t tk amt)).
Proof.
  unfold TransferFrom. cbv zeta.
  destruct (_ !! (fr, sp, tk)); [|apply same_gap_refl].
  destruct (_ <? amt); [apply same_gap_refl|].
  destruct (_ <? amt); cbn [fst].
  - intros tk'. rewrite balances_of_touch. unfold TotalSupply.
    cbn. rewrite Z.sub_diag. reflexivity.
  - eapply same_gap_trans; [apply (move_same_gap l fr t tk amt)|].
    by apply same_gap_eq.
Qed.

Lemma Burn_same_gap l w tk amt : same_gap l (fst (Burn l w tk amt)).
Proof.
  unfold Burn. cbv zeta.
  destruct (_ !! tk); [|apply same_gap_refl].
  destruct (_ <? amt); cbn [fst].
  - intros tk'. rewrite balances_of_touch. unfold TotalSupply.
    cbn. rewrite Z.sub_diag. reflexivity.
  - intros tk'. rewrite balances_of_with_totalSupply, debit_gap.
    unfold TotalSupply. cbn [with_totalSupply with_balances m_totalSupply].
    rewrite at0_touch.
    destruct (decide (tk = tk')) as [->|Hne].
    + rewrite at0_add_at_eq.
      generalize (at0 (m_balances l) (w, tk')) (at0 (m_totalSupply l) tk').
      intros x y. unfold wrap64. Z.div_mod_to_equations. lia.
    + rewrite at0_add_at_ne by done.
      replace (_ - _) with 0 by lia. reflexivity.
Qed.

Lemma Mint_same_gap l w tk amt : same_gap l (fst (Mint l w tk amt)).
Proof.
  unfold Mint. cbv zeta.
  destruct (_ !! tk); [|apply same_gap_refl]. exact (credit_same_gap l w tk amt).
Qed.

Lemma dispatch_same_gap l o h : same_gap l (fst (dispatch l o h)).
Proof.
  unfold dispatch.
  destruct (TokenOp_of_u8 (op o)) as [[]|]; cbn [fst].
  - apply CreateToken_same_gap.
  - apply Transfer_same_gap.
  - by apply same_gap_eq.
  - apply TransferFrom_same_gap.
  - by apply same_gap_eq.
  - unfold DecreaseAllowance. cbv zeta. destruct (_ <=? _); by apply same_gap_eq.
  - destruct (_ !! token o); [apply Burn_same_gap|apply same_gap_refl].
  - destruct (_ !! token o) as [m|]; [|apply same_gap_refl].
    destruct (negb _); [apply same_gap_refl|apply Mint_same_gap].
  - unfold TransferOwnership. destruct (_ !! token o) as [m|]; [|apply same_gap_refl].
    destruct (negb _); [apply same_gap_refl|by apply same_gap_eq].
  - apply same_gap_refl.
Qed.

Lemma ReplayOperation_same_gap l o h : same_gap l (fst (ReplayOperation l o h)).
Proof.
  unfold ReplayOperation.
  destruct (negb _); [apply same_gap_refl|]. cbv zeta.
  destruct (decide _); [apply same_gap_refl|].
  set (l0 := with_seen_ops l _).
  pose proof (dispatch_same_gap l0 o h) as Hd.
  destruct (dispatch l0 o h) as [l1 ok]. cbn [fst] in Hd.
  eapply same_gap_trans; [by apply (same_gap_eq l l0)|].
  eapply same_gap_trans; [exact Hd|].
  destruct ok; cbn [fst]; [by apply same_gap_eq|apply same_gap_refl].
Qed.

Lemma ApplyOperation_same_gap l o w b : same_gap l (fst (ApplyOperation l o w b)).
Proof.
  unfold ApplyOperation.
  destruct (negb _); [apply same_gap_refl|]. cbv zeta.
  destruct (decide _); [apply same_gap_refl|].
  set (l0 := with_seen_ops l _).
  pose proof (dispatch_same_gap l0 o ChainActiveHeight) as Hd.
  destruct (dispatch l0 o ChainActiveHeight) as [l1 ok]. cbn [fst] in Hd.
  eapply same_gap_trans; [by apply (same_gap_eq l l0)|].
  eapply same_gap_trans; [exact Hd|].
  destruct ok; cbn [fst]; [|apply same_gap_refl].
  destruct (_ && _); by apply same_gap_eq.
Qed.

(** What no case of the switch writes. *)
Lemma dispatch_frame l o h :
  m_seen_ops (fst (dispatch l o h)) = m_seen_ops l
  /\ m_history (fst (dispatch l o h)) = m_history l
  /\ m_governance_fees (fst (dispatch l o h)) = m_governance_fees l
  /\ m_fee_per_vbyte (fst (dispatch l o h)) = m_fee_per_vbyte l
  /\ m_create_fee_per_vbyte (fst (dispatch l o h)) = m_create_fee_per_vbyte l.
Proof.
  unfold dispatch, CreateToken, Transfer, TransferFrom, DecreaseAllowance,
    Burn, Mint, TransferOwnership.
  destruct (TokenOp_of_u8 (op o)) as [[]|]; cbv zeta;
    repeat match goal with
           | |- context [match ?x with _ => _ end] => destruct x
           end; done.
Qed.

Lemma replay_supply l o h :
  supply_consistent l -> supply_consistent (fst (ReplayOperation l o h)).
Proof. apply same_gap_consistent, ReplayOperation_same_gap. Qed.

Lemma replay_output_supply h l script :
  supply_consistent l -> supply_consistent (replay_output h l script).
Proof.
  unfold replay_output. destruct (DecodeTokenOp _ _); [apply replay_supply|done].
Qed.

Lemma replay_block_supply block : forall l h,
  supply_consistent l -> supply_consistent (replay_block l block h).
Proof.
  unfold replay_block. induction block as [|tx block IH]; intros l h Hl; [done|].
  cbn [fold_left]. apply IH. clear IH. revert l Hl.
  induction tx as [|s tx IHt]; intros l Hl; [done|].
  cbn [fold_left]. apply IHt. by apply replay_output_supply.
Qed.

Lemma cleared_supply l : supply_consistent (cleared l).
Proof. intros tk. reflexivity. Qed.


Lemma replay_frame l o h :
  m_fee_per_vbyte (fst (ReplayOperation l o h)) = m_fee_per_vbyte l
  /\ m_create_fee_per_vbyte (fst (ReplayOperation l o h))
     = m_create_fee_per_vbyte l.
Proof.
  unfold ReplayOperation.
  destruct (negb _); [done|]. cbv zeta. destruct (decide _); [done|].
  set (l0 := with_seen_ops l _).
  destruct (dispatch_frame l0 o h) as (_ & _ & _ & E1 & E2).
  destruct (dispatch l0 o h) as [l1 []]; cbn [fst] in *; by rewrite ?E1, ?E2.
Qed.

Lemma replay_block_frame block : forall l h,
  m_fee_per_vbyte (replay_block l block h) = m_fee_per_vbyte l
  /\ m_create_fee_per_vbyte (replay_block l block h)
     = m_create_fee_per_vbyte l.
Proof.
  unfold replay_block. induction block as [|tx block IH]; intros l h; [done|].
  cbn [fold_left]. destruct (IH (fold_left (replay_output h) tx l) h) as [-> ->].
  clear IH. revert l. induction tx as [|s tx IHt]; intros l; [done|].
  cbn [fold_left]. destruct (IHt (replay_output h l s)) as [-> ->].
  unfold replay_output. destruct (DecodeTokenOp _ _); [apply replay_frame|done].
Qed.

Lemma rescan_fold_frame block_at hs : forall l,
  let l' := fold_left (fun l h => match block_at h with
                                  | None => l
                                  | Some block => replay_block l block h
                                  end) hs l in
  m_fee_per_vbyte l' = m_fee_per_vbyte l
  /\ m_create_fee_per_vbyte l' = m_create_fee_per_vbyte l.
Proof.
  induction hs as [|x hs IH]; intros l; [done|].
  cbn [fold_left]. cbv zeta in IH. 
  match goal with |- context [fold_left ?f hs ?a] => destruct (IH a) as [-> ->] end.
  destruct (block_at x); [apply replay_block_frame|done].
Qed.

Lemma rescan_fold_supply block_at hs : forall l,
  supply_consistent l ->
  supply_consistent
    (fold_left (fun l h => match block_at h with
                           | None => l
                           | Some block => replay_block l block h
                           end) hs l).
Proof.
  induction hs as [|x hs IH]; intros l Hl; [done|].
  cbn [fold_left]. apply IH.
  destruct (block_at x); [by apply replay_block_supply|done].
Qed.

(** X1. The balances of every token add up to its total supply modulo
    2^64, and [ApplyOperation], [ReplayOperation] and [ProcessBlock] keep
    it so, whatever the operation is and whether it is accepted or not:
    every handler adds to or takes from a balance what it adds to or takes
    from the supply, or moves it between two balances. *)
Theorem supply_consistent_preserved l o w b h block :
  supply_consistent l ->
  supply_consistent (fst (ApplyOperation l o w b)) /\
  supply_consistent (fst (ReplayOperation l o h)) /\
  supply_consistent (fst (ProcessBlock l block h)).
Proof.
  intros Hl. split; [|split].
  - revert Hl. apply same_gap_consistent, ApplyOperation_same_gap.
  - by apply replay_supply.
  - by apply replay_block_supply.
Qed.

(** X2. After [RescanFromHeight] the balances of every token add up to
    its total supply modulo 2^64, whatever the blocks of the chain hold
    and whatever the ledger held before. *)
Theorem RescanFromHeight_supply_consistent act block_at l from_height :
  supply_consistent (fst (RescanFromHeight act block_at l from_height)).
Proof.
  unfold RescanFromHeight. cbn [fst].
  apply rescan_fold_supply, cleared_supply.
Qed.

(** X3. [RescanFromHeight] is idempotent: a second rescan from the same
    height over the same chain gives the ledger and the tip height of the
    first. The rescan clears everything but the two fee rates, which no
    replayed operation changes. *)
Theorem RescanFromHeight_idempotent act block_at l from_height :
  RescanFromHeight act block_at
    (fst (RescanFromHeight act block_at l from_height)) from_height
  = RescanFromHeight act block_at l from_height.
Proof.
  unfold RescanFromHeight at 1 3. cbv zeta. f_equal. f_equal.
  unfold RescanFromHeight. cbn [fst]. unfold cleared at 1 3.
  match goal with
  | |- context [fold_left ?f ?hs (cleared l)] =>
      destruct (rescan_fold_frame block_at hs (cleared l)) as [-> ->]
  end.
  reflexivity.
Qed.

Lemma TokenOperationHash_with_signature o sg sig w :
  TokenOperationHash (with_signature o sg sig w) = TokenOperationHash o.
Proof. reflexivity. Qed.

(** The two entry points run the same guard and the same switch. *)
Lemma ApplyOperation_seen l o w b :
  VerifySignature o = true ->
  TokenOperationHash o ∈ m_seen_ops (fst (ApplyOperation l o w b)).
Proof.
  intros Hs. unfold ApplyOperation. rewrite Hs. cbn [negb]. cbv zeta.
  destruct (decide _) as [Hin|Hin]; [done|].
  set (l0 := with_seen_ops l _).
  destruct (dispatch_frame l0 o ChainActiveHeight) as (E & _).
  destruct (dispatch l0 o ChainActiveHeight) as [l1 ok]. cbn [fst] in E.
  assert (TokenOperationHash o ∈ m_seen_ops l1).
  { rewrite E. unfold l0. cbn. set_solver. }
  destruct ok; [|done]. by destruct (_ && _).
Qed.

Lemma ReplayOperation_seen l o h :
  VerifySignature o = true ->
  TokenOperationHash o ∈ m_seen_ops (fst (ReplayOperation l o h)).
Proof.
  intros Hs. unfold ReplayOperation. rewrite Hs. cbn [negb]. cbv zeta.
  destruct (decide _) as [Hin|Hin]; [done|].
  set (l0 := with_seen_ops l _).
  destruct (dispatch_frame l0 o h) as (E & _).
  destruct (dispatch l0 o h) as [l1 ok]. cbn [fst] in E.
  assert (TokenOperationHash o ∈ m_seen_ops l1).
  { rewrite E. unfold l0. cbn. set_solver. }
  by destruct ok.
Qed.

Lemma seen_rejected l o w b h :
  TokenOperationHash o ∈ m_seen_ops l ->
  ApplyOperation l o w b = (l, false) /\ ReplayOperation l o h = (l, false).
Proof.
  intros Hin. unfold ApplyOperation, ReplayOperation.
  destruct (negb _); [done|]. cbv zeta. by destruct (decide _).
Qed.

Lemma ApplyOperation_seen_mono l o w b :
  m_seen_ops l ⊆ m_seen_ops (fst (ApplyOperation l o w b)).
Proof.
  unfold ApplyOperation. destruct (negb _); [done|]. cbv zeta.
  destruct (decide _); [done|].
  set (l0 := with_seen_ops l _).
  destruct (dispatch_frame l0 o ChainActiveHeight) as (E & _).
  destruct (dispatch l0 o ChainActiveHeight) as [l1 ok]. cbn [fst] in E.
  assert (m_seen_ops l ⊆ m_seen_ops l1).
  { rewrite E. unfold l0. cbn. set_solver. }
  destruct ok; [|done]. by destruct (_ && _).
Qed.

Lemma ReplayOperation_seen_mono l o h :
  m_seen_ops l ⊆ m_seen_ops (fst (ReplayOperation l o h)).
Proof.
  unfold ReplayOperation. destruct (negb _); [done|]. cbv zeta.
  destruct (decide _); [done|].
  set (l0 := with_seen_ops l _).
  destruct (dispatch_frame l0 o h) as (E & _).
  destruct (dispatch l0 o h) as [l1 ok]. cbn [fst] in E.
  assert (m_seen_ops l ⊆ m_seen_ops l1).
  { rewrite E. unfold l0. cbn. set_solver. }
  by destruct ok.
Qed.

Lemma replay_block_seen_mono block : forall l h,
  m_seen_ops l ⊆ m_seen_ops (replay_block l block h).
Proof.
  unfold replay_block. induction block as [|tx block IH]; intros l h; [done|].
  cbn [fold_left]. etransitivity; [|apply IH]. clear IH. revert l.
  induction tx as [|s tx IHt]; intros l; [done|].
  cbn [fold_left]. etransitivity; [|apply IHt].
  unfold replay_output.
  destruct (DecodeTokenOp _ _); [apply ReplayOperation_seen_mono|done].
Qed.

Lemma after_calls_seen_mono cs : forall l,
  m_seen_ops l ⊆ m_seen_ops (after_calls l cs).
Proof.
  unfold after_calls. induction cs as [|c cs IH]; intros l; [done|].
  cbn [fold_left]. etransitivity; [|apply IH].
  destruct c; cbn [after_call ProcessBlock fst SetFeeRate m_seen_ops].
  - apply ApplyOperation_seen_mono.
  - apply ReplayOperation_seen_mono.
  - apply replay_block_seen_mono.
  - done.
Qed.

Lemma replay_block_no_outputs block : forall l h,
  (forall tx script, tx ∈ block -> script ∈ tx ->
                     DecodeTokenOp script default_op = None) ->
  replay_block l block h = l.
Proof.
  unfold replay_block. induction block as [|tx block IH]; intros l h Hn; [done|].
  cbn [fold_left].
  assert (E : fold_left (replay_output h) tx l = l).
  { assert (Ht : forall script, script ∈ tx ->
                   DecodeTokenOp script default_op = None).
    { intros s Hs. apply (Hn tx s); [apply list_elem_of_here|done]. }
    clear Hn IH. revert l. induction tx as [|s tx IHt]; intros l; [done|].
    cbn [fold_left]. unfold replay_output at 2.
    rewrite (Ht s) by apply list_elem_of_here.
    apply IHt. intros s' Hs'. apply Ht. by apply list_elem_of_further. }
  rewrite E. apply IH. intros tx' s Htx Hs. apply (Hn tx' s); [|done].
  by apply list_elem_of_further.
Qed.

Lemma RescanFromHeight_no_outputs act block_at l from_height :
  no_token_outputs block_at ->
  fst (RescanFromHeight act block_at l from_height) = cleared l.
Proof.
  intros Hn. unfold RescanFromHeight. cbv zeta. cbn [fst].
  generalize (cleared l). 
  induction (heights _ _) as [|h hs IH]; intros l0; [done|].
  cbn [fold_left]. destruct (block_at h) as [block|] eqn:E; [|apply IH].
  rewrite replay_block_no_outputs; [apply IH|].
  intros tx s Htx Hs. by apply (Hn h block tx s).
Qed.

(** X4. A seen operation stays rejected. Once [ApplyOperation] or
    [ReplayOperation] has run on an operation with a valid signature,
    accepted or not, then after any further calls of [ApplyOperation],
    [ReplayOperation], [ProcessBlock] and [SetFeeRate] every operation
    with the same fields is rejected by both entry points and leaves the
    ledger as it is, whatever signer, signature and wallet name it
    carries: the set of seen hashes only grows under these calls, and the
    hash covers none of the three. The guarantee ends at a rescan:
    [RescanFromHeight] empties the set and rebuilds it from the chain
    alone, so that over a chain without token outputs it is empty
    afterwards. *)
Theorem seen_operation_stays_rejected l o w b h calls sg sig w' b' h' :
  VerifySignature o = true ->
  (let l1 := after_calls (fst (ApplyOperation l o w b)) calls in
   ApplyOperation l1 (with_signature o sg sig w') w' b' = (l1, false) /\
   ReplayOperation l1 (with_signature o sg sig w') h' = (l1, false)) /\
  (let l1 := after_calls (fst (ReplayOperation l o h)) calls in
   ApplyOperation l1 (with_signature o sg sig w') w' b' = (l1, false) /\
   ReplayOperation l1 (with_signature o sg sig w') h' = (l1, false)) /\
  (forall act block_at from_height,
     no_token_outputs block_at ->
     m_seen_ops (fst (RescanFromHeight act block_at
                        (after_calls (fst (ApplyOperation l o w b)) calls)
                        from_height)) = ∅).
Proof.
  intros Hs. split; [|split].
  - cbv zeta. apply seen_rejected. rewrite TokenOperationHash_with_signature.
    apply after_calls_seen_mono. by apply ApplyOperation_seen.
  - cbv zeta. apply seen_rejected. rewrite TokenOperationHash_with_signature.
    apply after_calls_seen_mono. by apply ReplayOperation_seen.
  - intros act block_at from_height Hn.
    by rewrite RescanFromHeight_no_outputs.
Qed.

Lemma VerifySignature_true o :
  VerifySignature o = true ->
  IsValidDestination (DecodeDestination (signer o)) = true /\
  MessageVerify (signer o) (signature o) (BuildTokenMsg o) = OK /\
  signer o = expected_signer o.
Proof.
  unfold VerifySignature, expected_signer.
  destruct (IsValidDestination _); [|done]. cbn [negb].
  destruct (MessageVerify _ _ _); try done.
  destruct (String.eqb _ _) eqn:E; [|done].
  apply String.eqb_eq in E. done.
Qed.

Lemma push_history_other l o tk :
  tk <> token o -> m_history (push_history l o) !! tk = m_history l !! tk.
Proof. intros Hne. unfold push_history. cbn. by rewrite lookup_insert_ne. Qed.

(** What an accepted operation has passed and left behind. *)
Lemma ApplyOperation_true l o w b l' :
  ApplyOperation l o w b = (l', true) ->
  VerifySignature o = true /\
  (TokenOperationHash o ∉ m_seen_ops l) /\
  m_seen_ops l' = {[TokenOperationHash o]} ∪ m_seen_ops l /\
  m_history l' = m_history (push_history l o).
Proof.
  unfold ApplyOperation.
  destruct (VerifySignature o) eqn:Hs; [|done]. cbn [negb]. cbv zeta.
  destruct (decide _) as [Hin|Hin]; [done|].
  set (l0 := with_seen_ops l _).
  destruct (dispatch_frame l0 o ChainActiveHeight) as (E1 & E2 & _).
  destruct (dispatch l0 o ChainActiveHeight) as [l1 ok]. cbn [fst] in E1, E2.
  destruct ok; [|done]. intros [= <-].
  split; [done|]. split; [done|]. split.
  - destruct (_ && _); cbn; by rewrite E1.
  - unfold push_history. destruct (_ && _); cbn; by rewrite E2.
Qed.

Lemma ReplayOperation_true l o h l' :
  ReplayOperation l o h = (l', true) ->
  VerifySignature o = true /\
  (TokenOperationHash o ∉ m_seen_ops l) /\
  m_seen_ops l' = {[TokenOperationHash o]} ∪ m_seen_ops l /\
  m_history l' = m_history (push_history l o).
Proof.
  unfold ReplayOperation.
  destruct (VerifySignature o) eqn:Hs; [|done]. cbn [negb]. cbv zeta.
  destruct (decide _) as [Hin|Hin]; [done|].
  set (l0 := with_seen_ops l _).
  destruct (dispatch_frame l0 o h) as (E1 & E2 & _).
  destruct (dispatch l0 o h) as [l1 ok]. cbn [fst] in E1, E2.
  destruct ok; [|done]. intros [= <-].
  split; [done|]. split; [done|]. split.
  - cbn; by rewrite E1.
  - unfold push_history. cbn; by rewrite E2.
Qed.

(** X5. [ApplyOperation] and [ReplayOperation] accept an operation only
    if [MessageVerify] returns OK for its signer, signature and canonical
    message, the signer is the sender (the spender for a TRANSFERFROM),
    and the hash of the operation was not seen before. *)
Theorem accepted_only_if_signed_and_unseen l o w b h :
  snd (ApplyOperation l o w b) = true \/ snd (ReplayOperation l o h) = true ->
  MessageVerify (signer o) (signature o) (BuildTokenMsg o) = OK /\
  signer o = expected_signer o /\
  (TokenOperationHash o ∉ m_seen_ops l).
Proof.
  intros [E|E].
  - destruct (ApplyOperation l o w b) as [l' ok] eqn:Ea. cbn in E. subst ok.
    apply ApplyOperation_true in Ea as (Hs & Hin & _).
    destruct (VerifySignature_true o Hs) as (_ & Hm & Hsg). done.
  - destruct (ReplayOperation l o h) as [l' ok] eqn:Ea. cbn in E. subst ok.
    apply ReplayOperation_true in Ea as (Hs & Hin & _).
    destruct (VerifySignature_true o Hs) as (_ & Hm & Hsg). done.
Qed.

(** X6. An operation whose code is none of the nine of [TokenOp] finds
    no case in the switch and is accepted: with a valid signature and an
    unseen hash, both entry points return true, leave balances,
    allowances, supplies and metadata as they are, and append the
    operation to the history of its token. *)
Theorem unknown_op_code_accepted l o w b h :
  TokenOp_of_u8 (op o) = None ->
  VerifySignature o = true ->
  TokenOperationHash o ∉ m_seen_ops l ->
  (exists l', ApplyOperation l o w b = (l', true) /\
     m_balances l' = m_balances l /\ m_allowances l' = m_allowances l /\
     m_totalSupply l' = m_totalSupply l /\ m_token_meta l' = m_token_meta l /\
     TokenHistory l' (token o) ""
     = TokenHistory l (token o) "" ++ [o]) /\
  (exists l', ReplayOperation l o h = (l', true) /\
     m_balances l' = m_balances l /\ m_allowances l' = m_allowances l /\
     m_totalSupply l' = m_totalSupply l /\ m_token_meta l' = m_token_meta l /\
     TokenHistory l' (token o) ""
     = TokenHistory l (token o) "" ++ [o]).
Proof.
  intros Hop Hs Hin.
  assert (Hh : forall l2 : TokenLedger,
             m_history l2 = m_history l ->
             TokenHistory (push_history l2 o) (token o) ""
             = TokenHistory l (token o) "" ++ [o]).
  { intros l2 E. unfold TokenHistory. rewrite push_history_lookup, E.
    destruct (m_history l !! token o) as [ops|]; cbn [default].
    - rewrite List.filter_app. cbn.
      f_equal. 
    - reflexivity. }
  unfold ApplyOperation, ReplayOperation, dispatch.
  rewrite Hs, Hop. cbn [negb]. cbv zeta. rewrite !decide_False by done.
  split; eexists; (split; [reflexivity|]).
  - destruct (_ && _); repeat split; by rewrite ?Hh.
  - repeat split; by rewrite ?Hh.
Qed.


Lemma CreateToken_fresh l w tk amt nm sy de h :
  m_token_meta l !! tk = None ->
  let l' := CreateToken l w tk amt nm sy de h in
  GetTokenMeta l' tk = Some (mkMeta nm sy de w h) /\
  (forall tk', tk' <> tk -> GetTokenMeta l' tk' = GetTokenMeta l tk') /\
  Balance l' w tk = wrap64 (Balance l w tk + amt) /\
  TotalSupply l' tk = wrap64 (TotalSupply l tk + amt) /\
  (forall w' tk', (w', tk') <> (w, tk) -> Balance l' w' tk' = Balance l w' tk') /\
  (forall tk', tk' <> tk -> TotalSupply l' tk' = TotalSupply l tk') /\
  m_allowances l' = m_allowances l.
Proof.
  intros Hm. unfold CreateToken. cbv zeta.
  cbn [with_totalSupply with_balances m_token_meta m_totalSupply].
  rewrite Hm. unfold GetTokenMeta, Balance, TotalSupply, RegisterToken. cbn.
  repeat split.
  - by rewrite lookup_insert_eq.
  - intros tk' Hne. by rewrite lookup_insert_ne.
  - apply at0_add_at_eq.
  - apply at0_add_at_eq.
  - intros w' tk' Hne. by apply at0_add_at_ne.
  - intros tk' Hne. by apply at0_add_at_ne.
Qed.

(** X7. A CREATE on a token without metadata, with a valid signature and
    an unseen hash, is accepted and registers the token: its metadata are
    the name, symbol and decimals of the operation, the sender as
    operator and the creation height (the height of the active chain in
    [ApplyOperation], the given height in [ReplayOperation]); the metadata
    of other tokens stay, and the amount is added to the balance of the
    sender and to the supply. *)
Theorem CREATE_registers_fresh_token l o w b h :
  TokenOp_of_u8 (op o) = Some CREATE ->
  m_token_meta l !! token o = None ->
  VerifySignature o = true ->
  TokenOperationHash o ∉ m_seen_ops l ->
  (exists l', ApplyOperation l o w b = (l', true) /\
     GetTokenMeta l' (token o)
     = Some (mkMeta (name o) (symbol o) (decimals o) (from o)
                    ChainActiveHeight) /\
     (forall tk, tk <> token o -> GetTokenMeta l' tk = GetTokenMeta l tk) /\
     Balance l' (from o) (token o)
     = wrap64 (Balance l (from o) (token o) + amount o) /\
     TotalSupply l' (token o) = wrap64 (TotalSupply l (token o) + amount o)) /\
  (exists l', ReplayOperation l o h = (l', true) /\
     GetTokenMeta l' (token o)
     = Some (mkMeta (name o) (symbol o) (decimals o) (from o) h) /\
     (forall tk, tk <> token o -> GetTokenMeta l' tk = GetTokenMeta l tk) /\
     Balance l' (from o) (token o)
     = wrap64 (Balance l (from o) (token o) + amount o) /\
     TotalSupply l' (token o) = wrap64 (TotalSupply l (token o) + amount o)).
Proof.
  intros Hop Hm Hs Hin.
  unfold ApplyOperation, ReplayOperation, dispatch.
  rewrite Hs, Hop. cbn [negb]. cbv zeta. rewrite !decide_False by done.
  set (l0 := with_seen_ops l _).
  split.
  - destruct (CreateToken_fresh l0 (from o) (token o) (amount o) (name o)
                (symbol o) (decimals o) ChainActiveHeight Hm)
      as (E1 & E2 & E3 & E4 & _).
    eexists. split; [reflexivity|].
    destruct (_ && _); by repeat split.
  - destruct (CreateToken_fresh l0 (from o) (token o) (amount o) (name o)
                (symbol o) (decimals o) h Hm) as (E1 & E2 & E3 & E4 & _).
    eexists. split; [reflexivity|]. by repeat split.
Qed.

Lemma TokenHistory_push l o tk f :
  TokenHistory (push_history l o) tk f
  = TokenHistory l tk f
    ++ (if bool_decide (tk = token o) && history_match f o then [o] else []).
Proof.
  unfold TokenHistory. destruct (decide (tk = token o)) as [->|Hne].
  - rewrite push_history_lookup, bool_decide_eq_true_2 by done. cbn [andb].
    destruct (m_history l !! token o) as [ops|]; cbn [default].
    + by rewrite List.filter_app.
    + cbn. by destruct (history_match f o).
  - rewrite push_history_other, bool_decide_eq_false_2 by done.
    cbn [andb]. by rewrite app_nil_r.
Qed.

Lemma TokenHistory_ext l l' tk f :
  m_history l' = m_history l -> TokenHistory l' tk f = TokenHistory l tk f.
Proof. unfold TokenHistory. by intros ->. Qed.

(** X8. The history is append-only. After [ApplyOperation] or
    [ReplayOperation], [TokenHistory] of any token under any address
    filter is what it was before, followed by the operation exactly when
    the operation was accepted, the token is its token and the filter
    lets it through. *)
Theorem TokenHistory_append_only l o w b h tk f :
  TokenHistory (fst (ApplyOperation l o w b)) tk f
  = TokenHistory l tk f
    ++ (if snd (ApplyOperation l o w b) && bool_decide (tk = token o)
           && history_match f o then [o] else []) /\
  TokenHistory (fst (ReplayOperation l o h)) tk f
  = TokenHistory l tk f
    ++ (if snd (ReplayOperation l o h) && bool_decide (tk = token o)
           && history_match f o then [o] else []).
Proof.
  unfold ApplyOperation, ReplayOperation.
  destruct (negb _); [cbn [fst snd andb]; by rewrite !app_nil_r|]. cbv zeta.
  destruct (decide _); [cbn [fst snd andb]; by rewrite !app_nil_r|].
  set (l0 := with_seen_ops l _).
  split.
  - destruct (dispatch_frame l0 o ChainActiveHeight) as (_ & E & _).
    destruct (dispatch l0 o ChainActiveHeight) as [l1 []]; cbn [fst snd andb] in *.
    + rewrite <- andb_assoc. cbn [andb]. rewrite TokenHistory_push.
      f_equal. destruct (_ && _); by apply TokenHistory_ext.
    + rewrite app_nil_r. by apply TokenHistory_ext.
  - destruct (dispatch_frame l0 o h) as (_ & E & _).
    destruct (dispatch l0 o h) as [l1 []]; cbn [fst snd andb] in *.
    + rewrite TokenHistory_push. f_equal. by apply TokenHistory_ext.
    + rewrite app_nil_r. by apply TokenHistory_ext.
Qed.


Lemma first_memo_app ops o :
  (forall x, x ∈ ops -> TokenOperationHash x <> TokenOperationHash o) ->
  first_memo (ops ++ [o]) (TokenOperationHash o) = memo o.
Proof.
  induction ops as [|x ops IH]; intros Hx; cbn.
  - by rewrite Z.eqb_refl.
  - destruct (Z.eqb_spec (TokenOperationHash x) (TokenOperationHash o)) as [E|_].
    + exfalso. apply (Hx x); [left|done].
    + apply IH. intros y Hy. apply Hx. by right.
Qed.

Lemma memo_after_push l l' o :
  history_seen l ->
  (TokenOperationHash o ∉ m_seen_ops l) ->
  m_seen_ops l' = {[TokenOperationHash o]} ∪ m_seen_ops l ->
  m_history l' = m_history (push_history l o) ->
  GetTokenTxMemo l' (token o) (TokenOperationHash o) = memo o /\
  history_seen l'.
Proof.
  intros Hl Hin Hseen Hh. split.
  - unfold GetTokenTxMemo. rewrite Hh, push_history_lookup.
    apply first_memo_app. intros x Hx E.
    destruct (m_history l !! token o) as [ops|] eqn:Eo; cbn in Hx.
    + apply Hin. rewrite <- E. by apply (Hl (token o) ops x).
    + by apply elem_of_nil in Hx.
  - intros tk ops x Hops Hx. rewrite Hseen. rewrite Hh in Hops.
    destruct (decide (tk = token o)) as [->|Hne].
    + rewrite push_history_lookup in Hops. injection Hops as <-.
      apply elem_of_app in Hx as [Hx|Hx].
      * destruct (m_history l !! token o) as [ops|] eqn:Eo; cbn in Hx.
        -- apply elem_of_union_r. by apply (Hl (token o) ops x).
        -- by apply elem_of_nil in Hx.
      * apply list_elem_of_singleton in Hx as ->. set_solver.
    + rewrite push_history_other in Hops by done.
      apply elem_of_union_r. by apply (Hl tk ops x).
Qed.

(** X9. On a ledger where every operation of the history has its hash
    among the seen ones, an accepted operation can be found again:
    [GetTokenTxMemo] of its token and hash returns its memo, and the
    ledger after it is such a ledger again. *)
Theorem GetTokenTxMemo_of_accepted l o w b h l' :
  history_seen l ->
  ApplyOperation l o w b = (l', true) \/ ReplayOperation l o h = (l', true) ->
  GetTokenTxMemo l' (token o) (TokenOperationHash o) = memo o /\
  history_seen l'.
Proof.
  intros Hl [E|E].
  - apply ApplyOperation_true in E as (_ & Hin & Hseen & Hh).
    by apply (memo_after_push l).
  - apply ReplayOperation_true in E as (_ & Hin & Hseen & Hh).
    by apply (memo_after_push l).
Qed.


(** X10. [Transfer] of an amount between 0 and the balance of the sender
    succeeds (the balance of the recipient staying in range): the sender
    has the amount less and the recipient the amount more, a transfer to
    oneself leaves the balance as it is, and no other balance, no supply,
    no allowance and no metadata change. *)
Theorem Transfer_moves_amount l fr t tk amt :
  0 <= amt <= Balance l fr tk ->
  Balance l fr tk < 2 ^ 63 ->
  in_int64 (Balance l t tk + amt) ->
  exists l', Transfer l fr t tk amt = (l', true) /\
    (fr <> t ->
     Balance l' fr tk = Balance l fr tk - amt /\
     Balance l' t tk = Balance l t tk + amt) /\
    (fr = t -> Balance l' fr tk = Balance l fr tk) /\
    (forall w k, (w, k) <> (fr, tk) -> (w, k) <> (t, tk) ->
                 Balance l' w k = Balance l w k) /\
    m_totalSupply l' = m_totalSupply l /\
    m_allowances l' = m_allowances l /\
    m_token_meta l' = m_token_meta l.
Proof.
  intros Ha Hb Ht. unfold Transfer, Balance in *. cbv zeta.
  rewrite at0_touch.
  destruct (Z.ltb_spec (at0 (m_balances l) (fr, tk)) amt) as [?|_]; [lia|].
  eexists. split; [reflexivity|]. cbn [with_balances m_balances m_totalSupply
                                       m_allowances m_token_meta].
  split; [|split; [|split; [|done]]].
  - intros Hne. assert ((fr, tk) <> (t, tk)) by congruence.
    rewrite at0_add_at_ne, at0_insert_eq by done.
    rewrite at0_add_at_eq, at0_insert_ne, at0_touch by done.
    unfold in_int64 in *. rewrite !wrap64_id; unfold in_int64; lia.
  - intros <-. rewrite at0_add_at_eq, at0_insert_eq.
    unfold in_int64 in *.
    rewrite (wrap64_id (_ - _)) by (unfold in_int64; lia).
    rewrite wrap64_id; unfold in_int64; lia.
  - intros w k H1 H2.
    rewrite at0_add_at_ne, at0_insert_ne, at0_touch by done. done.
Qed.


(** X11. [TransferFrom] of an amount between 0 and the allowance, covered
    by the balance of the owner, succeeds: the allowance of the spender
    goes down by the amount and its entry stays even at zero, the owner
    has the amount less and the recipient the amount more, and no other
    allowance, no other balance and no supply change. *)
Theorem TransferFrom_spends_allowance l sp fr t tk amt allowed :
  m_allowances l !! (fr, sp, tk) = Some allowed ->
  0 <= amt <= allowed -> allowed < 2 ^ 63 ->
  amt <= Balance l fr tk < 2 ^ 63 ->
  in_int64 (Balance l t tk + amt) ->
  fr <> t ->
  exists l', TransferFrom l sp fr t tk amt = (l', true) /\
    Allowance l' fr sp tk = allowed - amt /\
    m_allowances l' !! (fr, sp, tk) = Some (allowed - amt) /\
    (forall k, k <> (fr, sp, tk) -> m_allowances l' !! k = m_allowances l !! k) /\
    Balance l' fr tk = Balance l fr tk - amt /\
    Balance l' t tk = Balance l t tk + amt /\
    (forall w k, (w, k) <> (fr, tk) -> (w, k) <> (t, tk) ->
                 Balance l' w k = Balance l w k) /\
    m_totalSupply l' = m_totalSupply l.
Proof.
  intros Hal Ha Hlt Hb Ht Hne. unfold TransferFrom, Balance, Allowance in *.
  cbv zeta. rewrite Hal.
  destruct (Z.ltb_spec allowed amt) as [?|_]; [lia|].
  rewrite at0_touch.
  destruct (Z.ltb_spec (at0 (m_balances l) (fr, tk)) amt) as [?|_]; [lia|].
  eexists. split; [reflexivity|].
  cbn [with_allowances with_balances m_balances m_totalSupply m_allowances].
  assert ((fr, tk) <> (t, tk)) by congruence.
  assert (Ew : wrap64 (allowed - amt) = allowed - amt)
    by (apply wrap64_id; unfold in_int64; lia).
  rewrite Ew. unfold in_int64 in *.
  split; [apply at0_insert_eq|]. split; [apply lookup_insert_eq|].
  split; [intros k Hk; by rewrite lookup_insert_ne|].
  split; [|split; [|split; [|done]]].
  - rewrite at0_add_at_ne, at0_insert_eq by done.
    apply wrap64_id. unfold in_int64. lia.
  - rewrite at0_add_at_eq, at0_insert_ne, at0_touch by done.
    apply wrap64_id. unfold in_int64. lia.
  - intros w k H1 H2.
    rewrite at0_add_at_ne, at0_insert_ne, at0_touch by done. done.
Qed.

Lemma lookup_touch_ne `{Countable K} (m : gmap K Z) k k' :
  k <> k' -> touch m k !! k' = m !! k'.
Proof.
  intros Hne. unfold touch. destruct (m !! k); [done|].
  by rewrite lookup_insert_ne.
Qed.

(** X12. [DecreaseAllowance] floors at zero by erasing: an allowance not
    above the amount is erased and reads 0, a larger one goes down by the
    amount; no other allowance changes. [IncreaseAllowance] followed by
    [DecreaseAllowance] of the same amount restores an allowance that was
    not negative. *)
Theorem DecreaseAllowance_floors_at_zero l ow sp tk amt :
  in_int64 (Allowance l ow sp tk - amt) ->
  Allowance (DecreaseAllowance l ow sp tk amt) ow sp tk
  = (if Allowance l ow sp tk <=? amt then 0 else Allowance l ow sp tk - amt) /\
  (Allowance l ow sp tk <= amt ->
   m_allowances (DecreaseAllowance l ow sp tk amt) !! (ow, sp, tk) = None) /\
  (forall k, k <> (ow, sp, tk) ->
     m_allowances (DecreaseAllowance l ow sp tk amt) !! k
     = m_allowances l !! k) /\
  (0 <= Allowance l ow sp tk ->
   in_int64 (Allowance l ow sp tk + amt) ->
   Allowance (DecreaseAllowance (IncreaseAllowance l ow sp tk amt) ow sp tk amt)
             ow sp tk
   = Allowance l ow sp tk).
Proof.
  intros Hr. unfold DecreaseAllowance, IncreaseAllowance, Allowance in *.
  cbv zeta. cbn [with_allowances m_allowances].
  rewrite !at0_touch.
  set (v := at0 (m_allowances l) (ow, sp, tk)) in *.
  split; [|split; [|split]].
  - destruct (Z.leb_spec v amt); cbn [with_allowances m_allowances].
    + unfold at0. by rewrite lookup_delete_eq.
    + rewrite at0_insert_eq. by apply wrap64_id.
  - intros Hle. destruct (Z.leb_spec v amt); [|lia].
    cbn [with_allowances m_allowances]. apply lookup_delete_eq.
  - intros k Hk. destruct (Z.leb_spec v amt); cbn [with_allowances m_allowances].
    + rewrite lookup_delete_ne by done. by apply lookup_touch_ne.
    + rewrite lookup_insert_ne by done. by apply lookup_touch_ne.
  - intros Hv Hva. rewrite at0_add_at_eq. fold v.
    rewrite (wrap64_id (v + amt)) by done.
    destruct (Z.leb_spec (v + amt) amt); cbn [with_allowances m_allowances].
    + unfold at0 at 1. rewrite lookup_delete_eq. cbn. lia.
    + rewrite at0_insert_eq.
      rewrite wrap64_id; [lia|unfold in_int64 in *; lia].
Qed.

(** X13. [Mint] on a registered token adds the amount to the balance and
    to the supply, and a [Burn] of the same amount by the same wallet then
    succeeds and restores every balance and every supply (for a balance
    that is not negative, all values in range). *)
Theorem Mint_then_Burn_restores l w tk amt meta :
  m_token_meta l !! tk = Some meta ->
  0 <= Balance l w tk -> in_int64 (Balance l w tk + amt) ->
  in_int64 (Balance l w tk) ->
  in_int64 (TotalSupply l tk) -> in_int64 (TotalSupply l tk + amt) ->
  exists l1 l2,
    Mint l w tk amt = (l1, true) /\ Burn l1 w tk amt = (l2, true) /\
    Balance l1 w tk = Balance l w tk + amt /\
    TotalSupply l1 tk = TotalSupply l tk + amt /\
    (forall w' k, Balance l2 w' k = Balance l w' k) /\
    (forall k, TotalSupply l2 k = TotalSupply l k).
Proof.
  intros Hm Hb Hba Hbr Hs Hsa. unfold Mint, Burn, Balance, TotalSupply in *.
  cbv zeta. rewrite Hm. eexists. eexists. split; [reflexivity|].
  cbn [with_totalSupply with_balances m_token_meta m_balances m_totalSupply].
  rewrite Hm, at0_touch, at0_add_at_eq.
  rewrite (wrap64_id (_ + amt)) by done.
  destruct (Z.ltb_spec (at0 (m_balances l) (w, tk) + amt) amt) as [?|_]; [lia|].
  split; [reflexivity|].
  cbn [with_totalSupply with_balances m_token_meta m_balances m_totalSupply].
  split; [done|]. split; [rewrite at0_add_at_eq; by apply wrap64_id|].
  split.
  - intros w' k. destruct (decide ((w, tk) = (w', k))) as [<-|Hne].
    + rewrite at0_insert_eq.
      rewrite wrap64_id; [lia|unfold in_int64 in *; lia].
    + rewrite at0_insert_ne, at0_touch, at0_add_at_ne by done. done.
  - intros k. destruct (decide (tk = k)) as [<-|Hne].
    + rewrite !at0_add_at_eq. rewrite (wrap64_id (_ + amt)) by done.
      rewrite wrap64_id; [lia|unfold in_int64 in *; lia].
    + rewrite !at0_add_at_ne by done. done.
Qed.

(** X14. [TransferOwnership] by the operator of a token succeeds and hands
    the operator role over: the metadata keep name, symbol, decimals and
    creation height and name the recipient as operator, no balance or
    supply changes, and from then on the switch rejects a MINT of the
    token from any other sender and accepts one from the new operator. *)
Theorem TransferOwnership_moves_minting_right l fr t tk meta :
  m_token_meta l !! tk = Some meta ->
  operator_wallet meta = fr ->
  exists l', TransferOwnership l fr t tk = (l', true) /\
    GetTokenMeta l' tk
    = Some (mkMeta (meta_name meta) (meta_symbol meta) (meta_decimals meta)
                   t (creation_height meta)) /\
    (forall k, k <> tk -> GetTokenMeta l' k = GetTokenMeta l k) /\
    m_balances l' = m_balances l /\ m_totalSupply l' = m_totalSupply l /\
    (forall o h, TokenOp_of_u8 (op o) = Some MINT -> token o = tk ->
                 from o <> t -> dispatch l' o h = (l', false)) /\
    (forall o h, TokenOp_of_u8 (op o) = Some MINT -> token o = tk ->
                 from o = t -> snd (dispatch l' o h) = true).
Proof.
  intros Hm Ho. unfold TransferOwnership. rewrite Hm.
  assert (E : String.eqb (operator_wallet meta) fr = true)
    by by apply String.eqb_eq.
  rewrite E. cbn [negb]. eexists. split; [reflexivity|].
  unfold GetTokenMeta. cbn [with_token_meta m_token_meta m_balances m_totalSupply].
  split; [apply lookup_insert_eq|].
  split; [intros k Hk; by rewrite lookup_insert_ne|].
  split; [done|]. split; [done|]. split.
  - intros o h Hop Htk Hfr. unfold dispatch. rewrite Hop, Htk.
    cbn [with_token_meta m_token_meta]. rewrite lookup_insert_eq.
    cbn [operator_wallet].
    destruct (String.eqb_spec t (from o)) as [->|_]; done.
  - intros o h Hop Htk Hfr. unfold dispatch. rewrite Hop, Htk.
    cbn [with_token_meta m_token_meta]. rewrite lookup_insert_eq.
    cbn [operator_wallet]. rewrite <- Hfr, String.eqb_refl. cbn [negb].
    unfold Mint. cbn [with_token_meta m_token_meta].
    by rewrite lookup_insert_eq.
Qed.

End WithNode.

(** *** The theorems at sample operations *)

Lemma supply_consistent_preserved_witness :
  supply_consistent empty_ledger /\
  supply_consistent
    (fst (ApplyOperation (H := accepting_node) empty_ledger op_create_T
            "" false)) /\
  supply_consistent
    (fst (ReplayOperation (H := accepting_node) empty_ledger op_create_T 100))
  /\
  supply_consistent
    (fst (ProcessBlock (H := accepting_node) empty_ledger
            [[op_return_script (Serialize op_create_T)]] 100)).
Proof.
  split; [intros tk; reflexivity|].
  apply (supply_consistent_preserved (H := accepting_node) empty_ledger
           op_create_T "" false 100
           [[op_return_script (Serialize op_create_T)]]).
  intros tk. reflexivity.
Defined.

Lemma seen_operation_stays_rejected_witness :
  VerifySignature (H := accepting_node) op_create_T = true /\
  (let l1 := after_calls (H := accepting_node)
               (fst (ApplyOperation (H := accepting_node) empty_ledger
                       op_create_T "" false))
               [CallReplay op_transfer_5 101; CallSetFeeRate 5;
                CallProcessBlock [] 102] in
   ApplyOperation (H := accepting_node) l1
     (with_signature op_create_T "mallory" "other" "w") "w" true
   = (l1, false) /\
   ReplayOperation (H := accepting_node) l1
     (with_signature op_create_T "mallory" "other" "w") 103 = (l1, false)) /\
  (let l1 := after_calls (H := accepting_node)
               (fst (ReplayOperation (H := accepting_node) empty_ledger
                       op_create_T 100))
               [CallReplay op_transfer_5 101; CallSetFeeRate 5;
                CallProcessBlock [] 102] in
   ApplyOperation (H := accepting_node) l1
     (with_signature op_create_T "mallory" "other" "w") "w" true
   = (l1, false) /\
   ReplayOperation (H := accepting_node) l1
     (with_signature op_create_T "mallory" "other" "w") 103 = (l1, false)) /\
  (forall act block_at from_height,
     no_token_outputs block_at ->
     m_seen_ops
       (fst (RescanFromHeight (H := accepting_node) act block_at
               (after_calls (H := accepting_node)
                  (fst (ApplyOperation (H := accepting_node) empty_ledger
                          op_create_T "" false))
                  [CallReplay op_transfer_5 101; CallSetFeeRate 5;
                   CallProcessBlock [] 102])
               from_height)) = ∅).
Proof.
  split; [reflexivity|].
  apply (seen_operation_stays_rejected (H := accepting_node) empty_ledger
           op_create_T "" false 100
           [CallReplay op_transfer_5 101; CallSetFeeRate 5;
            CallProcessBlock [] 102]
           "mallory" "other" "w" true 103).
  reflexivity.
Defined.

Lemma accepted_only_if_signed_and_unseen_witness :
  snd (ApplyOperation (H := accepting_node) empty_ledger op_create_T "" false)
  = true /\
  MessageVerify (H := accepting_node) (signer op_create_T)
    (signature op_create_T) (BuildTokenMsg op_create_T) = OK /\
  signer op_create_T = expected_signer op_create_T /\
  (TokenOperationHash (H := accepting_node) op_create_T
     ∉ m_seen_ops empty_ledger).
Proof.
  split; [vm_compute; reflexivity|].
  apply (accepted_only_if_signed_and_unseen (H := accepting_node)
           empty_ledger op_create_T "" false 100).
  left. vm_compute. reflexivity.
Defined.

Lemma unknown_op_code_accepted_witness :
  TokenOp_of_u8 (op op_code_9) = None /\
  (exists l', ApplyOperation (H := accepting_node) ledger_with_T op_code_9
                "" false = (l', true) /\
     m_balances l' = m_balances ledger_with_T /\
     m_allowances l' = m_allowances ledger_with_T /\
     m_totalSupply l' = m_totalSupply ledger_with_T /\
     m_token_meta l' = m_token_meta ledger_with_T /\
     TokenHistory l' (token op_code_9) ""
     = TokenHistory ledger_with_T (token op_code_9) "" ++ [op_code_9]) /\
  (exists l', ReplayOperation (H := accepting_node) ledger_with_T op_code_9
                100 = (l', true) /\
     m_balances l' = m_balances ledger_with_T /\
     m_allowances l' = m_allowances ledger_with_T /\
     m_totalSupply l' = m_totalSupply ledger_with_T /\
     m_token_meta l' = m_token_meta ledger_with_T /\
     TokenHistory l' (token op_code_9) ""
     = TokenHistory ledger_with_T (token op_code_9) "" ++ [op_code_9]).
Proof.
  split; [reflexivity|].
  apply (unknown_op_code_accepted (H := accepting_node) ledger_with_T
           op_code_9 "" false 100);
    [reflexivity | reflexivity | apply not_elem_of_empty].
Defined.

Lemma CREATE_registers_fresh_token_witness :
  TokenOp_of_u8 (op op_create_T) = Some CREATE /\
  m_token_meta empty_ledger !! token op_create_T = None /\
  (exists l', ApplyOperation (H := accepting_node) empty_ledger op_create_T
                "" false = (l', true) /\
     GetTokenMeta l' "T" = Some (mkMeta "Gold" "GLD" 8 "mallory" 100) /\
     (forall tk, tk <> "T"%string ->
                 GetTokenMeta l' tk = GetTokenMeta empty_ledger tk) /\
     Balance l' "mallory" "T" = wrap64 (0 + 500) /\
     TotalSupply l' "T" = wrap64 (0 + 500)) /\
  (exists l', ReplayOperation (H := accepting_node) empty_ledger op_create_T
                42 = (l', true) /\
     GetTokenMeta l' "T" = Some (mkMeta "Gold" "GLD" 8 "mallory" 42) /\
     (forall tk, tk <> "T"%string ->
                 GetTokenMeta l' tk = GetTokenMeta empty_ledger tk) /\
     Balance l' "mallory" "T" = wrap64 (0 + 500) /\
     TotalSupply l' "T" = wrap64 (0 + 500)).
Proof.
  split; [reflexivity|]. split; [reflexivity|].
  apply (CREATE_registers_fresh_token (H := accepting_node) empty_ledger
           op_create_T "" false 42);
    [reflexivity | reflexivity | reflexivity | apply not_elem_of_empty].
Defined.

Lemma GetTokenTxMemo_of_accepted_witness :
  history_seen (H := accepting_node) empty_ledger /\
  GetTokenTxMemo (H := accepting_node)
    (fst (ReplayOperation (H := accepting_node) empty_ledger op_code_9 100))
    "T" (TokenOperationHash (H := accepting_node) op_code_9) = "hello"%string
  /\
  history_seen (H := accepting_node)
    (fst (ReplayOperation (H := accepting_node) empty_ledger op_code_9 100)).
Proof.
  assert (Hs : history_seen (H := accepting_node) empty_ledger).
  { intros tk ops o Hl. cbn in Hl. by rewrite lookup_empty in Hl. }
  split; [exact Hs|].
  apply (GetTokenTxMemo_of_accepted (H := accepting_node) empty_ledger
           op_code_9 "" false 100 _ Hs).
  right. vm_compute. reflexivity.
Defined.

Lemma Transfer_moves_amount_witness :
  exists l', Transfer ledger_with_T "alice" "bob" "T" 300 = (l', true) /\
    ("alice"%string <> "bob"%string ->
     Balance l' "alice" "T" = 1000 - 300 /\
     Balance l' "bob" "T" = 0 + 300) /\
    ("alice"%string = "bob"%string -> Balance l' "alice" "T" = 1000) /\
    (forall w k, (w, k) <> ("alice"%string, "T"%string) ->
                 (w, k) <> ("bob"%string, "T"%string) ->
                 Balance l' w k = Balance ledger_with_T w k) /\
    m_totalSupply l' = m_totalSupply ledger_with_T /\
    m_allowances l' = m_allowances ledger_with_T /\
    m_token_meta l' = m_token_meta ledger_with_T.
Proof.
  apply (Transfer_moves_amount ledger_with_T "alice" "bob" "T" 300);
    vm_compute; intuition congruence.
Defined.

Lemma TransferFrom_spends_allowance_witness :
  exists l', TransferFrom ledger_with_allowance "bob" "alice" "carol" "T" 400
             = (l', true) /\
    Allowance l' "alice" "bob" "T" = 400 - 400 /\
    m_allowances l' !! ("alice"%string, "bob"%string, "T"%string)
    = Some (400 - 400) /\
    (forall k, k <> ("alice"%string, "bob"%string, "T"%string) ->
               m_allowances l' !! k = m_allowances ledger_with_allowance !! k)
    /\
    Balance l' "alice" "T" = 1000 - 400 /\
    Balance l' "carol" "T" = 0 + 400 /\
    (forall w k, (w, k) <> ("alice"%string, "T"%string) ->
                 (w, k) <> ("carol"%string, "T"%string) ->
                 Balance l' w k = Balance ledger_with_allowance w k) /\
    m_totalSupply l' = m_totalSupply ledger_with_allowance.
Proof.
  apply (TransferFrom_spends_allowance ledger_with_allowance "bob" "alice"
           "carol" "T" 400 400);
    [reflexivity | lia | lia | vm_compute; intuition congruence
    | vm_compute; intuition congruence | discriminate].
Defined.

Lemma DecreaseAllowance_floors_at_zero_witness :
  Allowance (DecreaseAllowance ledger_with_allowance "alice" "bob" "T" 500)
            "alice" "bob" "T"
  = (if 400 <=? 500 then 0 else 400 - 500) /\
  (400 <= 500 ->
   m_allowances (DecreaseAllowance ledger_with_allowance "alice" "bob" "T" 500)
     !! ("alice"%string, "bob"%string, "T"%string) = None) /\
  (forall k, k <> ("alice"%string, "bob"%string, "T"%string) ->
     m_allowances (DecreaseAllowance ledger_with_allowance "alice" "bob" "T"
                     500) !! k
     = m_allowances ledger_with_allowance !! k) /\
  (0 <= 400 -> in_int64 (400 + 500) ->
   Allowance (DecreaseAllowance
                (IncreaseAllowance ledger_with_allowance "alice" "bob" "T" 500)
                "alice" "bob" "T" 500) "alice" "bob" "T"
   = 400).
Proof.
  apply (DecreaseAllowance_floors_at_zero ledger_with_allowance "alice" "bob"
           "T" 500).
  vm_compute. intuition congruence.
Defined.

Lemma Mint_then_Burn_restores_witness :
  exists l1 l2,
    Mint ledger_with_T "alice" "T" 50 = (l1, true) /\
    Burn l1 "alice" "T" 50 = (l2, true) /\
    Balance l1 "alice" "T" = 1000 + 50 /\
    TotalSupply l1 "T" = 1000 + 50 /\
    (forall w' k, Balance l2 w' k = Balance ledger_with_T w' k) /\
    (forall k, TotalSupply l2 k = TotalSupply ledger_with_T k).
Proof.
  apply (Mint_then_Burn_restores ledger_with_T "alice" "T" 50
           (mkMeta "Gold" "GLD" 8 "alice" 7));
    [reflexivity | vm_compute; congruence | | | |];
    vm_compute; intuition congruence.
Defined.

Lemma TransferOwnership_moves_minting_right_witness :
  exists l', TransferOwnership ledger_with_T "alice" "bob" "T" = (l', true) /\
    GetTokenMeta l' "T" = Some (mkMeta "Gold" "GLD" 8 "bob" 7) /\
    (forall k, k <> "T"%string -> GetTokenMeta l' k = GetTokenMeta ledger_with_T k)
    /\
    m_balances l' = m_balances ledger_with_T /\
    m_totalSupply l' = m_totalSupply ledger_with_T /\
    (forall o h, TokenOp_of_u8 (op o) = Some MINT -> token o = "T"%string ->
                 from o <> "bob"%string -> dispatch l' o h = (l', false)) /\
    (forall o h, TokenOp_of_u8 (op o) = Some MINT -> token o = "T"%string ->
                 from o = "bob"%string -> snd (dispatch l' o h) = true).
Proof.
  apply (TransferOwnership_moves_minting_right ledger_with_T "alice" "bob" "T"
           (mkMeta "Gold" "GLD" 8 "alice" 7)); reflexivity.
Defined.

End LedgerProps.

(** ** The wire format: what decodes, and what it decodes to *)

Module WireProps.
Import Ser Token Ledger TokenSpec LedgerSpec IntFacts SerProps.

Lemma read_u8_range s v r : read_u8 s = Some (v, r) -> 0 <= v < 256.
Proof.
  destruct s as [|b s]; [done|]. intros [= <- <-]. apply byte_val_range.
Qed.

Lemma le_val_range bs : 0 <= le_val bs < 256 ^ Z.of_nat (length bs).
Proof.
  induction bs as [|b bs IH]; [cbn; lia|].
  cbn [le_val length]. pose proof (byte_val_range b).
  rewrite Nat2Z.inj_succ, Z.pow_succ_r by lia. lia.
Qed.

Lemma read_i64_range s v r : read_i64 s = Some (v, r) -> in_int64 v.
Proof.
  unfold read_i64, read_le, bind, ret, read_bytes.
  destruct (length s <? 8)%nat eqn:E; [done|].
  intros [= <- <-].
  apply Nat.ltb_ge in E.
  pose proof (le_val_range (firstn 8 s)) as Hr.
  rewrite length_firstn, Nat.min_l in Hr by done.
  change (256 ^ Z.of_nat 8) with (2 ^ 64) in Hr.
  unfold in_int64. destruct (Z.ltb_spec (le_val (firstn 8 s)) (2 ^ 63)); lia.
Qed.

Lemma ReadCompactSize_range s n r :
  ReadCompactSize s = Some (n, r) -> 0 <= n <= MAX_SIZE.
Proof.
  unfold ReadCompactSize, bind, ret, throw.
  destruct (read_u8 s) as [[c s1]|] eqn:E1; [|done].
  apply read_u8_range in E1.
  assert (Hle : forall k s' v r', read_le k s' = Some (v, r') -> 0 <= v).
  { intros k s' v r'. unfold read_le, bind, ret, read_bytes.
    destruct (_ <? _)%nat; [done|]. intros [= <- <-].
    pose proof (le_val_range (firstn k s')). lia. }
  destruct (c <? 253) eqn:Ec.
  - destruct (Z.ltb_spec MAX_SIZE c); [done|]. intros [= <- <-]. lia.
  - destruct (c =? 253).
    { destruct (read_le 2 s1) as [[v s2]|] eqn:E; [|done].
      apply Hle in E. destruct (v <? 253); [done|].
      destruct (Z.ltb_spec MAX_SIZE v); [done|]. intros [= <- <-]. lia. }
    destruct (c =? 254).
    { destruct (read_le 4 s1) as [[v s2]|] eqn:E; [|done].
      apply Hle in E. destruct (v <? 65536); [done|].
      destruct (Z.ltb_spec MAX_SIZE v); [done|]. intros [= <- <-]. lia. }
    destruct (read_le 8 s1) as [[v s2]|] eqn:E; [|done].
    apply Hle in E. destruct (v <? 4294967296); [done|].
    destruct (Z.ltb_spec MAX_SIZE v); [done|]. intros [= <- <-]. lia.
Qed.

Lemma length_string_of_list_byte bs :
  String.length (string_of_list_byte bs) = length bs.
Proof.
  unfold string_of_list_byte.
  induction bs as [|b bs IH]; [done|]. cbn. by rewrite IH.
Qed.

Lemma read_string_range s str r :
  read_string s = Some (str, r) -> (strlen str <=? MAX_SIZE) = true.
Proof.
  unfold read_string, bind, ret.
  destruct (ReadCompactSize s) as [[n s1]|] eqn:E; [|done].
  apply ReadCompactSize_range in E.
  unfold read_bytes. destruct (_ <? _)%nat eqn:El; [done|].
  intros [= <- <-]. apply Nat.ltb_ge in El.
  unfold strlen. rewrite length_string_of_list_byte, length_firstn.
  apply Z.leb_le. lia.
Qed.

Lemma read_fields_sound obj s o r :
  read_fields obj s = Some (o, r) ->
  op_in_range o = true /\ wallet_name o = wallet_name obj /\
  strings_readable (set_memo o "") = true.
Proof.
  unfold read_fields, bind, ret.
  destruct (read_u8 s) as [[opv s1]|] eqn:E1; [|done].
  destruct (read_string s1) as [[f s2]|] eqn:F1; [|done].
  destruct (read_string s2) as [[t s3]|] eqn:F2; [|done].
  destruct (read_string s3) as [[sp s4]|] eqn:F3; [|done].
  destruct (read_string s4) as [[tk s5]|] eqn:F4; [|done].
  destruct (read_i64 s5) as [[am s6]|] eqn:E2; [|done].
  destruct (read_string s6) as [[nm s7]|] eqn:F5; [|done].
  destruct (read_string s7) as [[sy s8]|] eqn:F6; [|done].
  destruct (read_u8 s8) as [[de s9]|] eqn:E3; [|done].
  destruct (read_i64 s9) as [[ts s10]|] eqn:E4; [|done].
  destruct (read_string s10) as [[sg s11]|] eqn:F7; [|done].
  destruct (read_string s11) as [[sig s12]|] eqn:F8; [|done].
  intros [= <- <-]. split; [|split; [done|]].
  - apply read_u8_range in E1, E3. apply read_i64_range in E2, E4.
    unfold op_in_range, in_int64b, in_int64 in *. cbn.
    repeat (apply andb_true_intro; split); lia.
  - apply read_string_range in F1, F2, F3, F4, F5, F6, F7, F8.
    unfold strings_readable, set_memo. cbn [forallb from to spender token name
      symbol signer signature memo].
    by rewrite F1, F2, F3, F4, F5, F6, F7, F8.
Qed.

Lemma set_memo_sound o m :
  op_in_range o = true -> strings_readable (set_memo o "") = true ->
  (strlen m <=? MAX_SIZE) = true ->
  op_in_range (set_memo o m) = true /\ strings_readable (set_memo o m) = true.
Proof.
  intros Ho Hs Hm. split; [exact Ho|].
  unfold strings_readable, set_memo in *. cbn [forallb from to spender token
    name symbol signer signature memo] in *.
  rewrite Hm. rewrite !andb_true_r in *. exact Hs.
Qed.

Lemma Unserialize_sound obj s o r :
  Unserialize obj s = Some (o, r) ->
  op_in_range o = true /\ strings_readable o = true /\
  wallet_name o = wallet_name obj.
Proof.
  unfold Unserialize, bind, ret.
  destruct (read_fields obj s) as [[o0 s1]|] eqn:E; [|done].
  apply read_fields_sound in E as (Ho & Hw & Hs).
  destruct (read_u8 s1) as [[flag s2]|]; [|done].
  destruct (flag =? 0).
  - intros [= <- <-].
    destruct (set_memo_sound o0 "" Ho Hs eq_refl). done.
  - destruct (read_string s2) as [[m s3]|] eqn:Em; [|done].
    intros [= <- <-]. apply read_string_range in Em.
    destruct (set_memo_sound o0 m Ho Hs Em). done.
Qed.

Lemma Unserialize_legacy_sound obj s o r :
  Unserialize_legacy obj s = Some (o, r) ->
  op_in_range o = true /\ strings_readable o = true /\
  wallet_name o = wallet_name obj.
Proof.
  unfold Unserialize_legacy, bind, ret.
  destruct (read_fields obj s) as [[o0 s1]|] eqn:E; [|done].
  apply read_fields_sound in E as (Ho & Hw & Hs).
  destruct s1 as [|b s1].
  - intros [= <- <-].
    destruct (set_memo_sound o0 "" Ho Hs eq_refl). done.
  - destruct (read_string (b :: s1)) as [[m s3]|] eqn:Em; [|done].
    intros [= <- <-]. apply read_string_range in Em.
    destruct (set_memo_sound o0 m Ho Hs Em). done.
Qed.

Lemma set_wallet_name_own o : set_wallet_name o (wallet_name o) = o.
Proof. by destruct o. Qed.

(** X15. What [DecodeTokenOp] accepts. A script decodes only if it starts
    with OP_RETURN followed by a push of at least one byte whose opcode
    is at most OP_PUSHDATA4. The decoded operation has every integer
    field within its C++ type and every string within [MAX_SIZE], keeps
    the wallet name the output object had, and is a fixed point: its own
    serialisation decodes to it. *)
Theorem DecodeTokenOp_sound script obj o :
  DecodeTokenOp script obj = Some o ->
  (exists d opcode data rest,
     script = (OP_RETURN, d) :: (opcode, data) :: rest /\
     data <> [] /\ opcode <= OP_PUSHDATA4) /\
  op_in_range o = true /\ strings_readable o = true /\
  wallet_name o = wallet_name obj /\
  DecodeTokenOp (op_return_script (Serialize o)) obj = Some o.
Proof.
  intros Hd. unfold DecodeTokenOp in Hd.
  destruct script as [|[opcode1 d] [|[opcode2 data] rest]]; try done.
  destruct (Z.eqb_spec opcode1 OP_RETURN) as [->|_]; [|done]. cbn [negb] in Hd.
  destruct data as [|b data]; [done|].
  destruct (Z.ltb_spec OP_PUSHDATA4 opcode2); [done|].
  assert (Hs : op_in_range o = true /\ strings_readable o = true /\
               wallet_name o = wallet_name obj).
  { destruct (Unserialize obj (b :: data)) as [[o1 r1]|] eqn:E1.
    - injection Hd as <-. by apply Unserialize_sound in E1.
    - destruct (Unserialize_legacy obj (b :: data)) as [[o1 r1]|] eqn:E2;
        [|done].
      injection Hd as <-. by apply Unserialize_legacy_sound in E2. }
  destruct Hs as (Ho & Hs & Hw).
  split; [by exists d, opcode2, (b :: data), rest|].
  split; [done|]. split; [done|]. split; [done|].
  rewrite DecodeTokenOp_Serialize by done.
  by rewrite <- Hw, set_wallet_name_own.
Qed.

(** X16. [DecodeTokenOp] ignores what follows a well-formed payload: the
    serialisation of an operation followed by any bytes decodes to the
    operation, as the serialisation alone does. *)
Theorem DecodeTokenOp_ignores_trailing_bytes obj o junk :
  op_in_range o = true -> strings_readable o = true ->
  DecodeTokenOp (op_return_script (Serialize o ++ junk)) obj
  = Some (set_wallet_name o (wallet_name obj)).
Proof.
  intros Ho Hs. rewrite DecodeTokenOp_script.
  - by rewrite Unserialize_Serialize.
  - intros E. apply app_eq_nil in E as [E _]. by apply Serialize_nonempty in E.
Qed.

(** X17. The serialisation of [TokenOperation] is prefix-free: if the
    serialisations of two operations (fields in range), each followed by
    some bytes, are the same byte string, then the operations agree on
    every field but the wallet name, which is not serialised, and the
    trailing bytes are the same. In particular [Serialize] is injective
    up to the wallet name. *)
Theorem Serialize_prefix_free o1 o2 r1 r2 :
  op_in_range o1 = true -> strings_readable o1 = true ->
  op_in_range o2 = true -> strings_readable o2 = true ->
  Serialize o1 ++ r1 = Serialize o2 ++ r2 ->
  set_wallet_name o1 "" = set_wallet_name o2 "" /\ r1 = r2.
Proof.
  intros Ho1 Hs1 Ho2 Hs2 E.
  pose proof (Unserialize_Serialize default_op o1 r1 Ho1 Hs1) as E1.
  pose proof (Unserialize_Serialize default_op o2 r2 Ho2 Hs2) as E2.
  rewrite E, E2 in E1.
  change (wallet_name default_op) with ""%string in E1.
  apply (inj Some) in E1.
  split; [exact (eq_sym (f_equal fst E1))|exact (eq_sym (f_equal snd E1))].
Qed.

(** *** The theorems at sample operations *)

Lemma DecodeTokenOp_sound_witness :
  DecodeTokenOp (op_return_script (Serialize op_transfer_5)) default_op
  = Some op_transfer_5 /\
  (exists d opcode data rest,
     op_return_script (Serialize op_transfer_5)
     = (OP_RETURN, d) :: (opcode, data) :: rest /\
     data <> [] /\ opcode <= OP_PUSHDATA4) /\
  op_in_range op_transfer_5 = true /\
  strings_readable op_transfer_5 = true /\
  wallet_name op_transfer_5 = wallet_name default_op /\
  DecodeTokenOp (op_return_script (Serialize op_transfer_5)) default_op
  = Some op_transfer_5.
Proof.
  split; [vm_compute; reflexivity|].
  apply (DecodeTokenOp_sound (op_return_script (Serialize op_transfer_5))
           default_op op_transfer_5).
  vm_compute. reflexivity.
Defined.

Lemma DecodeTokenOp_ignores_trailing_bytes_witness :
  DecodeTokenOp (op_return_script (Serialize op_memo34 ++ [x00; xff]))
                default_op
  = Some (set_wallet_name op_memo34 (wallet_name default_op)).
Proof.
  apply (DecodeTokenOp_ignores_trailing_bytes default_op op_memo34
           [x00; xff]); reflexivity.
Defined.

Lemma Serialize_prefix_free_witness :
  Serialize op_transfer_5 ++ [x00]
  = Serialize (set_wallet_name op_transfer_5 "w") ++ [x00] /\
  set_wallet_name op_transfer_5 ""
  = set_wallet_name (set_wallet_name op_transfer_5 "w") "" /\
  [x00] = [x00].
Proof.
  split; [reflexivity|].
  apply (Serialize_prefix_free op_transfer_5
           (set_wallet_name op_transfer_5 "w") [x00] [x00]); reflexivity.
Defined.

End WireProps.

(** ** Signed messages ([util/message.cpp]) *)

Module MessageProps.
Import Ser Token Ledger TokenSpec LedgerSpec.

Section WithNode.
Context `{Node}.

(** The verdict on an address that decodes to a key hash. *)
Lemma MessageVerify_key_hash address signature message h :
  DecodeDestination address = PKHash h
  \/ DecodeDestination address = WitnessV0KeyHash h ->
  MessageVerify address signature message
  = match DecodeBase64ToBytes signature with
    | None => ERR_MALFORMED_SIGNATURE
    | Some sig =>
        match RecoverCompact (MessageHash message) sig with
        | None => ERR_PUBKEY_NOT_RECOVERED
        | Some pubkey => if Hash160 pubkey =? h then OK else ERR_NOT_SIGNED
        end
    end.
Proof.
  intros [E|E]; unfold MessageVerify; rewrite E; cbn [IsValidDestination negb];
    destruct (DecodeBase64ToBytes signature) as [sig|]; try done;
    destruct (RecoverCompact _ sig) as [pk|]; try done;
    by destruct (Hash160 pk =? h).
Qed.

(** X18. The verdicts of [MessageVerify]. It returns OK exactly when the
    address decodes to a key hash (legacy or witness), the signature is
    base-64 text, a public key is recovered from it over the hash of the
    message, and the hash of that key is the one of the address. It
    returns ERR_INVALID_ADDRESS exactly when the address does not decode,
    and ERR_ADDRESS_NO_KEY exactly when it decodes to a script hash or an
    unknown witness program: the last branch of the function, which
    returns that error after the key recovery, is never taken. *)
Theorem MessageVerify_verdicts address signature message :
  (MessageVerify address signature message = OK <->
   exists h sig pubkey,
     (DecodeDestination address = PKHash h
      \/ DecodeDestination address = WitnessV0KeyHash h) /\
     DecodeBase64ToBytes signature = Some sig /\
     RecoverCompact (MessageHash message) sig = Some pubkey /\
     Hash160 pubkey = h) /\
  (MessageVerify address signature message = ERR_INVALID_ADDRESS <->
   DecodeDestination address = CNoDestination) /\
  (MessageVerify address signature message = ERR_ADDRESS_NO_KEY <->
   (exists h, DecodeDestination address = ScriptHash h
              \/ DecodeDestination address = WitnessV0ScriptHash h)
   \/ DecodeDestination address = WitnessUnknown).
Proof.
  assert (Hk : forall h,
             DecodeDestination address = PKHash h
             \/ DecodeDestination address = WitnessV0KeyHash h ->
             (MessageVerify address signature message = OK <->
              exists sig pubkey,
                DecodeBase64ToBytes signature = Some sig /\
                RecoverCompact (MessageHash message) sig = Some pubkey /\
                Hash160 pubkey = h)
             /\ MessageVerify address signature message <> ERR_INVALID_ADDRESS
             /\ MessageVerify address signature message <> ERR_ADDRESS_NO_KEY).
  { intros h Hd. rewrite (MessageVerify_key_hash _ _ _ h Hd).
    destruct (DecodeBase64ToBytes signature) as [sig|].
    2:{ split; [|split; intros [=]]. split; [intros [=]|].
        intros (? & ? & [=] & _). }
    destruct (RecoverCompact _ sig) as [pk|] eqn:Er.
    2:{ split; [|split; intros [=]]. split; [intros [=]|].
        intros (? & ? & [= <-] & Hr & _). congruence. }
    destruct (Z.eqb_spec (Hash160 pk) h) as [E|E].
    - split; [|split; intros [=]]. split; [|done]. intros _. by exists sig, pk.
    - split; [|split; intros [=]]. split; [intros [=]|].
      intros (? & ? & [= <-] & Hr & ?). congruence. }
  assert (Hn : DecodeDestination address <> CNoDestination ->
               (forall h, DecodeDestination address <> PKHash h) ->
               (forall h, DecodeDestination address <> WitnessV0KeyHash h) ->
               MessageVerify address signature message = ERR_ADDRESS_NO_KEY).
  { unfold MessageVerify. intros H0 H1 H2.
    destruct (DecodeDestination address) as [|h|h|h|h|]; try done.
    - by destruct (H1 h).
    - by destruct (H2 h). }
  destruct (DecodeDestination address) as [|h|h|h|h|] eqn:Ed.
  - unfold MessageVerify. rewrite Ed. cbn.
    split; [|split]; split; first
      [ done | intros [=] | intros (? & ? & ? & [[=]|[=]] & _)
      | intros [(? & [[=]|[=]])|[=]] ].
  - destruct (Hk h (or_introl eq_refl)) as (H1 & H2 & H3).
    split; [|split]; split.
    + intros E. apply H1 in E as (sig & pk & ?).
      exists h, sig, pk. split; [by left|done].
    + intros (h' & sig & pk & [[= <-]|[=]] & ?). apply H1. by exists sig, pk.
    + intros E. by destruct H2.
    + intros [=].
    + intros E. by destruct H3.
    + intros [(? & [[=]|[=]])|[=]].
  - rewrite Hn by done.
    split; [|split]; split; first
      [ done | intros [=] | intros (? & ? & ? & [[=]|[=]] & _) | idtac ].
    left. exists h. by left.
  - rewrite Hn by done.
    split; [|split]; split; first
      [ done | intros [=] | intros (? & ? & ? & [[=]|[=]] & _) | idtac ].
    left. exists h. by right.
  - destruct (Hk h (or_intror eq_refl)) as (H1 & H2 & H3).
    split; [|split]; split.
    + intros E. apply H1 in E as (sig & pk & ?).
      exists h, sig, pk. split; [by right|done].
    + intros (h' & sig & pk & [[=]|[= <-]] & ?). apply H1. by exists sig, pk.
    + intros E. by destruct H2.
    + intros [=].
    + intros E. by destruct H3.
    + intros [(? & [[=]|[=]])|[=]].
  - rewrite Hn by done.
    split; [|split]; split; first
      [ done | intros [=] | intros (? & ? & ? & [[=]|[=]] & _) | idtac ].
    by right.
Qed.

(** X19. [MessageVerify] accepts what [MessageSign] produces. If base-64
    decoding inverts the encoding, and the key recovered from a compact
    signature of the message hash under the private key is [pubkey],
    then the signature [MessageSign] returns verifies for every address
    that decodes to the key hash of [pubkey]: the two functions hash the
    same bytes, the magic text followed by the message. *)
Theorem MessageSign_then_MessageVerify {CKey} `{Signer CKey} (privkey : CKey)
  address message signature pubkey :
  (forall bytes, DecodeBase64ToBytes (EncodeBase64 bytes) = Some bytes) ->
  (forall sig, SignCompact privkey (MessageHash message) = Some sig ->
               RecoverCompact (MessageHash message) sig = Some pubkey) ->
  DecodeDestination address = PKHash (Hash160 pubkey)
  \/ DecodeDestination address = WitnessV0KeyHash (Hash160 pubkey) ->
  MessageSign privkey message = Some signature ->
  MessageVerify address signature message = OK.
Proof.
  intros Hb Hr Hd. unfold MessageSign.
  destruct (SignCompact privkey (MessageHash message)) as [sig|] eqn:Es; [|done].
  intros [= <-].
  rewrite (MessageVerify_key_hash _ _ _ _ Hd), Hb, (Hr sig eq_refl).
  by rewrite Z.eqb_refl.
Qed.

End WithNode.

Lemma MessageSign_then_MessageVerify_witness :
  MessageSign (H := echo_node) (H0 := echo_signer) [x01; x02] "hello"
  = Some (string_of_list_byte [x01; x02]) /\
  MessageVerify (H := echo_node) "itc1example"
    (string_of_list_byte [x01; x02]) "hello" = OK.
Proof.
  split; [reflexivity|].
  apply (MessageSign_then_MessageVerify (H := echo_node) (H0 := echo_signer)
           [x01; x02] "itc1example" "hello" (string_of_list_byte [x01; x02])
           [x01; x02]).
  - intros bytes. cbn. f_equal. apply list_byte_of_string_of_list_byte.
  - intros sig Hs. cbn in *. congruence.
  - left. reflexivity.
  - reflexivity.
Defined.

End MessageProps.

(** ** Block headers *)

Module BlockProps.
Import Ser Block BlockSpec IntFacts SerProps.

Lemma read_i32_app z rest :
  - 2 ^ 31 <= z < 2 ^ 31 ->
  read_i32 (le_bytes 4 z ++ rest) = Some (z, rest).
Proof.
  intros Hz. unfold read_i32, read_le, bind, ret.
  rewrite read_bytes_app by (by rewrite length_le_bytes).
  rewrite le_val_le_bytes. change (256 ^ Z.of_nat 4) with (2 ^ 32).
  f_equal. f_equal.
  destruct (Z_lt_le_dec z 0).
  - replace (z mod 2 ^ 32) with (z + 2 ^ 32)
      by (apply (Z.mod_unique_pos _ _ (-1)); lia).
    destruct (Z.ltb_spec (z + 2 ^ 32) (2 ^ 31)); lia.
  - rewrite Z.mod_small by lia.
    destruct (Z.ltb_spec z (2 ^ 31)); lia.
Qed.

Lemma read_le_length n s v r :
  read_le n s = Some (v, r) -> length s = (n + length r)%nat.
Proof.
  unfold read_le, bind, ret, read_bytes.
  destruct (length s <? n)%nat eqn:E; [done|]. intros [= <- <-].
  apply Nat.ltb_ge in E. rewrite length_skipn. lia.
Qed.

Lemma read_i32_length s v r :
  read_i32 s = Some (v, r) -> length s = (4 + length r)%nat.
Proof.
  unfold read_i32, bind, ret.
  destruct (read_le 4 s) as [[v0 r0]|] eqn:E; [|done]. intros [= <- <-].
  by apply read_le_length in E.
Qed.

Lemma Unserialize_length s h r :
  Unserialize s = Some (h, r) -> length s = (80 + length r)%nat.
Proof.
  unfold Unserialize, bind, ret.
  destruct (read_i32 s) as [[v1 s1]|] eqn:E1; [|done].
  destruct (read_le 32 s1) as [[v2 s2]|] eqn:E2; [|done].
  destruct (read_le 32 s2) as [[v3 s3]|] eqn:E3; [|done].
  destruct (read_le 4 s3) as [[v4 s4]|] eqn:E4; [|done].
  destruct (read_le 4 s4) as [[v5 s5]|] eqn:E5; [|done].
  destruct (read_le 4 s5) as [[v6 s6]|] eqn:E6; [|done].
  intros [= <- <-].
  apply read_i32_length in E1.
  apply read_le_length in E2, E3, E4, E5, E6. lia.
Qed.

(** X20. The serialisation of a block header is 80 bytes, the same bytes
    [SerializeForHash] writes at any height, and reading is its inverse:
    the 80 bytes, followed by anything, read back as the header and
    leave what follows. No input shorter than 80 bytes reads as a
    header. *)
Theorem CBlockHeader_80_bytes h rest height :
  header_in_range h = true ->
  length (Serialize h) = 80%nat /\
  SerializeForHash h height = Serialize h /\
  Unserialize (Serialize h ++ rest) = Some (h, rest) /\
  (forall s, (length s < 80)%nat -> Unserialize s = None).
Proof.
  intros Hr. unfold header_in_range in Hr.
  repeat (apply andb_prop in Hr as [Hr ?]).
  repeat match goal with
         | H : (_ <=? _) = true |- _ => apply Z.leb_le in H
         | H : (_ <? _) = true |- _ => apply Z.ltb_lt in H
         end.
  split; [|split; [reflexivity|split]].
  - unfold Serialize. by rewrite !length_app, !length_le_bytes.
  - unfold Serialize, Unserialize, bind, ret. rewrite <- !app_assoc.
    rewrite read_i32_app by lia.
    rewrite !read_le_app
      by (first [change (256 ^ Z.of_nat 32) with (2 ^ 256)
                |change (256 ^ Z.of_nat 4) with (2 ^ 32)]; lia).
    by destruct h.
  - intros s Hs. destruct (Unserialize s) as [[h' r]|] eqn:E; [|done].
    apply Unserialize_length in E. lia.
Qed.

Lemma CBlockHeader_80_bytes_witness :
  header_in_range sample_header = true /\
  length (Serialize sample_header) = 80%nat /\
  SerializeForHash sample_header 7 = Serialize sample_header /\
  Unserialize (Serialize sample_header ++ [x2a]) = Some (sample_header, [x2a])
  /\
  (forall s, (length s < 80)%nat -> Unserialize s = None).
Proof.
  split; [reflexivity|].
  apply (CBlockHeader_80_bytes sample_header [x2a] 7). reflexivity.
Defined.

End BlockProps.

(** ** Proof of work: what the retargeting functions return *)

Module PowExtra.
Import Arith256 Pow Sums PowSpec IntFacts PowProps.

Lemma div64_Some a b : 0 < b < 2 ^ 64 -> div64 a b = Some (a / b).
Proof.
  intros Hb. unfold div64. rewrite to_u64_small by lia.
  destruct (Z.eqb_spec b 0); [lia|done].
Qed.

Lemma dgw_loop_total n : forall i c avg span last,
  0 <= i -> i + Z.of_nat n < 2 ^ 64 ->
  is_Some (dgw_loop n i c avg span last).
Proof.
  induction n as [|n IH]; intros i c avg span last Hi Hn; [by eexists|].
  cbn [dgw_loop]. destruct c as [|b prev]; [by eexists|].
  destruct (i =? 0).
  - cbn. apply IH; lia.
  - rewrite div64_Some by lia. cbn. apply IH; lia.
Qed.

(** X21. [DarkGravityWave3] returns a result on every non-empty chain,
    for a block spacing of at least 1 second whose 72-fold is below 2^63
    (the range in which the int64 products of the function do not
    overflow): no division by zero is reached. Up to next height 5879
    the target it encodes is at most the limit in force. Above that
    height the result does not depend on the limits: with any other pair
    of limits in the parameters it is the same, so nothing caps it. *)
Theorem DarkGravityWave3_total_and_capped tip rest p :
  0 < nPowTargetSpacing p -> 72 * nPowTargetSpacing p < 2 ^ 63 ->
  exists target,
    DarkGravityWave3 (tip :: rest) p = Some (GetCompact target) /\
    (nHeight tip + 1 <= 5879 -> target <= active_limit p (nHeight tip + 1)) /\
    (5879 < nHeight tip + 1 ->
     forall limit limitYespower,
       DarkGravityWave3 (tip :: rest) (with_limits p limit limitYespower)
       = Some (GetCompact target)).
Proof.
  intros HT HT'. unfold DarkGravityWave3. cbv zeta.
  cbn [with_limits nPowTargetSpacing].
  destruct (Z.ltb_spec (nHeight tip + 1) 24) as [Hlt|Hge].
  { eexists; split; [reflexivity|]. split; [lia|]. intros; lia. }
  destruct (dgw_loop_total (Z.to_nat 24) 0 (tip :: rest) 0 0 0)
    as [[avg span] ->]; [lia|lia|].
  cbn [mbind option_bind].
  rewrite div64_Some by lia. cbn [mbind option_bind].
  eexists. split; [reflexivity|]. split.
  - intros Hh.
    match goal with
    | |- (if _ && (?l <? ?x) then _ else _) <= _ => destruct (Z.ltb_spec l x)
    end;
      destruct (Z.leb_spec (nHeight tip + 1) 5879); cbn [andb]; lia.
  - intros Hh limit limitYespower.
    destruct (Z.leb_spec (nHeight tip + 1) 5879) as [?|_]; [lia|].
    reflexivity.
Qed.



(** The weighted solve times of the loop of LWMA3 are bounded, however
    short the chain is. *)
Lemma lwma_loop_bound T n : forall i c t s,
  0 <= T -> 0 <= i ->
  fst (lwma_loop n i c T t s)
  <= t + 6 * T * Z.of_nat n * (i + Z.of_nat n).
Proof.
  induction n as [|n IH]; intros i c t s HT Hi; [cbn; lia|].
  cbn [lwma_loop]. destruct c as [|b [|pb rest]]; cbn [fst]; try nia.
  cbv zeta.
  set (s0 := GetBlockTime b - GetBlockTime pb).
  set (s1 := if 6 * T <? s0 then 6 * T else s0).
  set (s2 := if s1 <? - 6 * T then - 6 * T else s1).
  assert (Hs : s2 <= 6 * T).
  { unfold s2, s1. destruct (Z.ltb_spec (6 * T) s0);
      match goal with |- (if ?a <? ?b then _ else _) <= _ =>
        destruct (Z.ltb_spec a b) end; lia. }
  etransitivity; [apply IH; lia|].
  assert (s2 * (i + 1) <= 6 * T * (i + 1)) by (apply Z.mul_le_mono_nonneg_r; lia).
  rewrite Nat2Z.inj_succ. nia.
Qed.

(** X23. [Lwma3] returns a result on every non-empty chain, for a block
    spacing between 1 and 2^32 seconds, and the target it encodes is
    never above the limit in force: with too little history or a weighted
    solve time that is not positive it is the limit, and else the divisor
    [k * t] is neither zero nor beyond 64 bits. *)
Theorem Lwma3_total_and_capped tip rest p :
  0 < nPowTargetSpacing p < 2 ^ 32 ->
  exists target,
    Lwma3 (tip :: rest) p = Some (GetCompact target) /\
    target <= active_limit p (nHeight tip + 1).
Proof.
  intros HT. unfold Lwma3. cbv zeta.
  destruct (_ <? _); [eexists; split; [reflexivity|lia]|].
  pose proof (lwma_loop_bound (nPowTargetSpacing p) (Z.to_nat 60) 0
                (tip :: rest) 0 0 ltac:(lia) ltac:(lia)) as Hb.
  destruct (lwma_loop (Z.to_nat 60) 0 (tip :: rest) (nPowTargetSpacing p) 0 0)
    as [t sumTarget]. cbn [fst] in Hb.
  change (Z.of_nat (Z.to_nat 60)) with 60 in Hb.
  destruct (Z.leb_spec t 0); [eexists; split; [reflexivity|lia]|].
  change (Z.quot (60 * (60 + 1)) 2) with 1830.
  rewrite div64_Some by lia. cbn [mbind option_bind].
  eexists. split; [reflexivity|].
  match goal with |- (if ?l <? ?x then _ else _) <= _ =>
    destruct (Z.ltb_spec l x) end; lia.
Qed.

(** X24. [CalculateNextWorkRequired], when retargeting is on: the new
    target is the old one scaled by the time the interval took, clamped
    to between a quarter of and four times the target timespan, over the
    target timespan, and capped by [powLimit] (at every height: the limit
    chosen by the yespower fork height is computed and not used). Before
    the cap it is at most four times the old target, at least a quarter
    of it when the timespan is a multiple of 4, and the old target when
    the interval took exactly the target timespan. *)
Theorem CalculateNextWorkRequired_within_factor_4 pindexLast nFirstBlockTime p :
  fPowNoRetargeting p = false ->
  0 < nPowTargetTimespan p -> 4 * nPowTargetTimespan p < 2 ^ 32 ->
  SetCompact (nBits pindexLast) * (4 * nPowTargetTimespan p) < 2 ^ 256 ->
  let old := SetCompact (nBits pindexLast) in
  let span := clamp (Z.quot (nPowTargetTimespan p) 4)
                    (nPowTargetTimespan p * 4)
                    (GetBlockTime pindexLast - nFirstBlockTime) in
  let new := old * span / nPowTargetTimespan p in
  CalculateNextWorkRequired pindexLast nFirstBlockTime p
  = Some (GetCompact (Z.min (powLimit p) new)) /\
  new <= 4 * old /\
  (Z.rem (nPowTargetTimespan p) 4 = 0 -> old / 4 <= new) /\
  (GetBlockTime pindexLast - nFirstBlockTime = nPowTargetTimespan p ->
   new = old).
Proof.
  intros Hr HT HT32 Hc. cbv zeta.
  set (ts := nPowTargetTimespan p) in *.
  set (old := SetCompact (nBits pindexLast)) in *.
  set (e := GetBlockTime pindexLast - nFirstBlockTime).
  pose proof (SetCompact_nonneg (nBits pindexLast)) as H0. fold old in H0.
  assert (Hq : Z.quot ts 4 = ts / 4) by (apply Z.quot_div_nonneg; lia).
  assert (Hq4 : 0 <= ts / 4 <= ts).
  { split; [apply Z.div_pos; lia|]. apply Z.div_le_upper_bound; lia. }
  assert (Hcl : ts / 4 <= clamp (Z.quot ts 4) (ts * 4) e <= ts * 4).
  { unfold clamp. cbv zeta. rewrite Hq.
    destruct (Z.ltb_spec e (ts / 4));
      match goal with |- _ <= (if ?a <? ?b then _ else _) <= _ =>
        destruct (Z.ltb_spec a b) end; lia. }
  split; [|split; [|split]].
  - unfold CalculateNextWorkRequired. rewrite Hr. cbv zeta. fold ts old e.
    change (if ts * 4 <? (if e <? Z.quot ts 4 then Z.quot ts 4 else e)
            then ts * 4 else if e <? Z.quot ts 4 then Z.quot ts 4 else e)
      with (clamp (Z.quot ts 4) (ts * 4) e).
    unfold mul32. rewrite to_u32_small by lia.
    rewrite wrap256_small.
    2:{ split; [apply Z.mul_nonneg_nonneg; lia|].
        apply Z.le_lt_trans with (old * (4 * ts)); [|done].
        apply Z.mul_le_mono_nonneg_l; lia. }
    rewrite div64_Some by lia. cbn [mbind option_bind]. do 2 f_equal.
    match goal with |- (if ?l <? ?x then _ else _) = _ =>
      destruct (Z.ltb_spec l x) end; lia.
  - apply Z.div_le_upper_bound; [lia|].
    transitivity (old * (ts * 4)); [|lia].
    apply Z.mul_le_mono_nonneg_l; lia.
  - intros Hrem.
    assert (E4 : ts = 4 * (ts / 4)).
    { apply Z.rem_divide in Hrem; [|lia]. destruct Hrem as [k Hk].
      rewrite Hk, Z.div_mul by lia. lia. }
    replace (old / 4) with (old * (ts / 4) / ts).
    + apply Z.div_le_mono; [lia|]. apply Z.mul_le_mono_nonneg_l; lia.
    + clear Hq Hq4 Hcl. set (q := ts / 4) in *. rewrite E4.
      apply Z.div_mul_cancel_r; lia.
  - intros He. unfold clamp. cbv zeta. rewrite Hq, He.
    destruct (Z.ltb_spec ts (ts / 4)); [lia|].
    destruct (Z.ltb_spec (ts * 4) ts); [lia|].
    apply Z.div_mul. lia.
Qed.

Section WithHash.
Context {Header : Type} `{MemoryHardHash Header}.

(** X25. Where [CheckProofOfWork] asks for no work. With the yespower
    fork at height 1 or below, a block at height 1 is accepted exactly
    when its hash is the genesis hash or its [nBits] decode to a target
    that is not negative, not overflowing and not zero: neither hash is
    compared with the target. A block whose hash is the genesis hash is
    accepted at every height from the fork on, whatever its [nBits]. A
    zero target is rejected at every height but 0 for every other hash. *)
Theorem CheckProofOfWork_without_work hash (block : Header) nBits p :
  yespowerForkHeight p <= 1 ->
  (CheckProofOfWork hash block nBits p 1 = true <->
   hash = hashGenesisBlock p \/
   exists target,
     SetCompact_full nBits = (target, false, false) /\ target <> 0) /\
  (forall height,
     yespowerForkHeight p <= height ->
     CheckProofOfWork (hashGenesisBlock p) block nBits p height = true) /\
  (forall height,
     height <> 0 -> hash <> hashGenesisBlock p ->
     SetCompact nBits = 0 ->
     CheckProofOfWork hash block nBits p height = false).
Proof.
  intros Hf. split; [|split].
  - unfold CheckProofOfWork, CheckProofOfWorkWithHeight. cbn [Z.eqb].
    destruct (Z.leb_spec (yespowerForkHeight p) 1); [|lia].
    destruct (SetCompact_full nBits) as [[target fNegative] fOverflow].
    cbn [orb Z.leb Z.compare Z.eqb Pos.eqb].
    destruct (Z.eqb_spec hash (hashGenesisBlock p)) as [->|Hne].
    { split; [by left|done]. }
    destruct fNegative, fOverflow; cbn [orb];
      try (split; [done|intros [?|(? & [=] & _)]; done]).
    destruct (Z.eqb_spec target 0) as [->|Hz].
    + split; [done|]. intros [?|(? & [= <-] & ?)]; done.
    + split; [|done]. intros _. right. by exists target.
  - intros height Hh. unfold CheckProofOfWork, CheckProofOfWorkWithHeight.
    destruct (height =? 0); [done|].
    destruct (Z.leb_spec (yespowerForkHeight p) height); [|lia].
    destruct (SetCompact_full nBits) as [[target fNegative] fOverflow].
    by rewrite Z.eqb_refl, orb_true_r.
  - intros height Hh Hne Hz. unfold SetCompact in Hz.
    unfold CheckProofOfWork, CheckProofOfWorkWithHeight.
    destruct (Z.eqb_spec height 0); [done|].
    destruct (SetCompact_full nBits) as [[target fNegative] fOverflow].
    cbn [fst] in Hz. subst target.
    destruct (Z.eqb_spec hash (hashGenesisBlock p)); [done|].
    cbn [orb Z.eqb].
    destruct (_ <=? height); by rewrite ?orb_true_r.
Qed.

End WithHash.

(** *** The theorems at the sample chains *)

Lemma DarkGravityWave3_total_and_capped_witness :
  0 < nPowTargetSpacing params_nova /\
  72 * nPowTargetSpacing params_nova < 2 ^ 63 /\
  exists target,
    DarkGravityWave3 (chain_from 24 5999 1022000 100 0x1e0fffff) params_nova
    = Some (GetCompact target) /\
    (5999 + 1 <= 5879 -> target <= active_limit params_nova (5999 + 1)) /\
    (5879 < 5999 + 1 ->
     forall limit limitYespower,
       DarkGravityWave3 (chain_from 24 5999 1022000 100 0x1e0fffff)
         (with_limits params_nova limit limitYespower)
       = Some (GetCompact target)).
Proof.
  split; [reflexivity|]. split; [reflexivity|].
  apply (DarkGravityWave3_total_and_capped (mkIndex 5999 1022000 0x1e0fffff)
           (chain_from 23 5998 1021900 100 0x1e0fffff) params_nova);
    reflexivity.
Defined.


Lemma Lwma3_total_and_capped_witness :
  0 < nPowTargetSpacing params_lwma < 2 ^ 32 /\
  exists target,
    Lwma3 chain61 params_lwma = Some (GetCompact target) /\
    target <= active_limit params_lwma (60 + 1).
Proof.
  split; [vm_compute; intuition congruence|].
  apply (Lwma3_total_and_capped (mkIndex 60 1007200 0x1e0fffff)
           (chain_from 60 59 (1007200 - 120) 120 0x1e0fffff) params_lwma).
  vm_compute. intuition congruence.
Defined.

Lemma CalculateNextWorkRequired_within_factor_4_witness :
  let pindexLast := mkIndex 2015 2000000 0x1d00ffff in
  let old := SetCompact 0x1d00ffff in
  let span := clamp (Z.quot (nPowTargetTimespan params_lwma) 4)
                    (nPowTargetTimespan params_lwma * 4)
                    (2000000 - 1500000) in
  let new := old * span / nPowTargetTimespan params_lwma in
  CalculateNextWorkRequired pindexLast 1500000 params_lwma
  = Some (GetCompact (Z.min (powLimit params_lwma) new)) /\
  new <= 4 * old /\
  (Z.rem (nPowTargetTimespan params_lwma) 4 = 0 -> old / 4 <= new) /\
  (2000000 - 1500000 = nPowTargetTimespan params_lwma -> new = old).
Proof.
  apply (CalculateNextWorkRequired_within_factor_4
           (mkIndex 2015 2000000 0x1d00ffff) 1500000 params_lwma);
    reflexivity.
Defined.

Lemma CheckProofOfWork_without_work_witness :
  yespowerForkHeight params_nova <= 1 /\
  (CheckProofOfWork (H := hash_one) 7 tt 0x1e0fffff params_nova 1 = true <->
   7 = hashGenesisBlock params_nova \/
   exists target,
     SetCompact_full 0x1e0fffff = (target, false, false) /\ target <> 0) /\
  (forall height,
     yespowerForkHeight params_nova <= height ->
     CheckProofOfWork (H := hash_one) (hashGenesisBlock params_nova) tt
       0x1e0fffff params_nova height = true) /\
  (forall height,
     height <> 0 -> 7 <> hashGenesisBlock params_nova ->
     SetCompact 0x1e0fffff = 0 ->
     CheckProofOfWork (H := hash_one) 7 tt 0x1e0fffff params_nova height
     = false).
Proof.
  split; [vm_compute; congruence|].
  apply (CheckProofOfWork_without_work (H := hash_one) 7 tt 0x1e0fffff
           params_nova).
  vm_compute. congruence.
Defined.

End PowExtra.
(** * Part IV (continued): the coinbase of a block template *)

Module CoinbaseExtra.
Import Miner MinerSpec Sums CoinbaseProps.

(** X26. Whenever [CreateNewBlock] builds the coinbase outputs, their values
    add up to exactly the block reward: the subsidy alone while the fees are
    burnt (heights 1 to [nFeeBurnEndHeight]), the subsidy plus the fees
    otherwise.  The first output pays the miner's script, and there is one
    further output per configured wallet (governance, node operator). *)
Theorem coinbase_pays_the_block_reward scriptPubKeyIn nHeight subsidy nFees
  cp outs :
  CreateNewBlock_vout scriptPubKeyIn nHeight subsidy nFees cp = Some outs ->
  sumZ nValue outs
  = (if (1 <=? nHeight) && (nHeight <=? nFeeBurnEndHeight cp)
     then subsidy else subsidy + nFees) /\
  scriptPubKey <$> head outs = Some scriptPubKeyIn /\
  length outs = (match GovernanceWallet cp, NodeOperatorWallet cp with
                 | Some _, Some _ => 3
                 | Some _, None => 2
                 | None, _ => 1
                 end)%nat.
Proof.
  destruct cp as [[govScript|] [opScript|] burnEnd]; cbn [nFeeBurnEndHeight
    GovernanceWallet NodeOperatorWallet].
  - rewrite CreateNewBlock_vout_split. cbv zeta. intros [= <-].
    split; [|done]. unfold sumZ. cbn [fold_right nValue]. lia.
  - intros [= <-]. split; [|done]. cbn. lia.
  - intros [=].
  - rewrite CreateNewBlock_vout_fallback_no_operator. intros [= <-].
    split; [|done]. cbn. lia.
Qed.

(** X27. With both wallets configured and a block reward that is not
    negative and whose product with 7300 is below 2^63 (the range in
    which the int64 products of the construction do not overflow), the
    governance output is the reward's 73 percent and the operator's
    output its 5 percent, both rounded down, and the miner's output is
    the remainder: at least 22 percent and less than two units more.  No
    output is negative, and the three add up to the reward. *)
Theorem coinbase_shares scriptPubKeyIn nHeight subsidy nFees govScript
  opScript burnEnd :
  let blockReward := if (1 <=? nHeight) && (nHeight <=? burnEnd)
                     then subsidy else subsidy + nFees in
  0 <= blockReward -> blockReward * GOV_BPS < 2 ^ 63 ->
  exists miner gov operator,
    CreateNewBlock_vout scriptPubKeyIn nHeight subsidy nFees
      (mkCoinbaseParams (Some govScript) (Some opScript) burnEnd)
    = Some [mkTxOut miner scriptPubKeyIn; mkTxOut gov govScript;
            mkTxOut operator opScript] /\
    7300 * blockReward - 10000 < 10000 * gov <= 7300 * blockReward /\
    500 * blockReward - 10000 < 10000 * operator <= 500 * blockReward /\
    2200 * blockReward <= 10000 * miner < 2200 * blockReward + 20000 /\
    0 <= miner /\ 0 <= gov /\ 0 <= operator /\
    miner + gov + operator = blockReward.
Proof.
  intros R HR _. rewrite CreateNewBlock_vout_split. cbv zeta. fold R.
  do 3 eexists. split; [reflexivity|].
  rewrite !Z.quot_div_nonneg by lia.
  pose proof (Z.div_mod (R * 7300) 10000 ltac:(lia)).
  pose proof (Z.mod_pos_bound (R * 7300) 10000 ltac:(lia)).
  pose proof (Z.div_mod (R * 500) 10000 ltac:(lia)).
  pose proof (Z.mod_pos_bound (R * 500) 10000 ltac:(lia)).
  lia.
Qed.

Lemma coinbase_pays_the_block_reward_witness :
  CreateNewBlock_vout miner_script 100 5000000000 100000000
    (mkCoinbaseParams (Some gov_script) None 0)
  = Some [mkTxOut 1377000000 miner_script; mkTxOut 3723000000 gov_script] /\
  sumZ nValue [mkTxOut 1377000000 miner_script;
               mkTxOut 3723000000 gov_script]
  = (if (1 <=? 100) && (100 <=? 0) then 5000000000
     else 5000000000 + 100000000) /\
  scriptPubKey <$> head [mkTxOut 1377000000 miner_script;
                         mkTxOut 3723000000 gov_script]
  = Some miner_script /\
  length [mkTxOut 1377000000 miner_script; mkTxOut 3723000000 gov_script]
  = 2%nat.
Proof.
  split; [reflexivity|].
  apply (coinbase_pays_the_block_reward miner_script 100 5000000000 100000000
           (mkCoinbaseParams (Some gov_script) None 0)).
  reflexivity.
Defined.

Lemma coinbase_shares_witness :
  0 <= 5000000001 + 100000000 /\
  (5000000001 + 100000000) * GOV_BPS < 2 ^ 63 /\
  exists miner gov operator,
    CreateNewBlock_vout miner_script 100 5000000001 100000000
      (mkCoinbaseParams (Some gov_script) (Some op_script) 0)
    = Some [mkTxOut miner miner_script; mkTxOut gov gov_script;
            mkTxOut operator op_script] /\
    7300 * 5100000001 - 10000 < 10000 * gov <= 7300 * 5100000001 /\
    500 * 5100000001 - 10000 < 10000 * operator <= 500 * 5100000001 /\
    2200 * 5100000001 <= 10000 * miner < 2200 * 5100000001 + 20000 /\
    0 <= miner /\ 0 <= gov /\ 0 <= operator /\
    miner + gov + operator = 5100000001.
Proof.
  split; [lia|]. split; [reflexivity|].
  apply (coinbase_shares miner_script 100 5000000001 100000000 gov_script
           op_script 0); [vm_compute; congruence | reflexivity].
Defined.

End CoinbaseExtra.

(** * The header of a block template *)

Module TemplateProps.
Import Block BlockTemplate IntFacts PowSpec.

Section WithFloatingPoint.
Context `{Pow.FloatingPoint}.

Lemma UpdateTime_result pblock p pindexPrev mtp adjusted bits :
  0 <= nTime pblock -> Z.max (mtp + 1) adjusted < 2 ^ 32 ->
  let t := Z.max (nTime pblock) (Z.max (mtp + 1) adjusted) in
  Pow.GetNextWorkRequired pindexPrev t p = Some bits ->
  UpdateTime pblock p pindexPrev mtp adjusted
  = Some (if Pow.fPowAllowMinDifficultyBlocks p
          then set_nBits (set_nTime pblock t) bits
          else set_nTime pblock t,
          Z.max (mtp + 1) adjusted - nTime pblock).
Proof.
  intros H0 Hn t Hb. unfold UpdateTime. cbv zeta.
  set (new := Z.max (mtp + 1) adjusted) in *.
  assert (E : (if nTime pblock <? new then set_nTime pblock (to_u32 new)
               else pblock) = set_nTime pblock t).
  { unfold t. destruct (Z.ltb_spec (nTime pblock) new).
    - rewrite to_u32_small by lia. by rewrite Z.max_r by lia.
    - rewrite Z.max_l by lia. by destruct pblock. }
  rewrite E. destruct (Pow.fPowAllowMinDifficultyBlocks p); [|done].
  unfold GetBlockTime. cbn [set_nTime nTime]. by rewrite Hb.
Qed.

(** X28. The time in the header of a new block template is the latest
    of three values: the time [CreateNewBlock] first writes (the adjusted
    time; from the difficulty fork height on, the later of it and the
    median time plus one, capped at twenty minutes past the median time),
    the median time plus one, and the adjusted time [UpdateTime] reads
    afterwards. When the clock has not gone back between the two
    readings this is the later of the median time plus one and the second
    reading, so the cap has no effect; the time first written survives
    only when it is later than both. The header keeps its version and
    merkle root, points to the previous block, carries the work required
    at that time and a zero nonce. *)
Theorem CreateNewBlock_header_time pblock nHeight difficultyForkHeight p
  pindexPrev hashPrev mtp now now' bits :
  0 <= mtp -> mtp + 1 < 2 ^ 32 -> 0 <= now < 2 ^ 32 -> now' < 2 ^ 32 ->
  let first := if difficultyForkHeight <=? nHeight
               then Z.min (Z.max (mtp + 1) now) (mtp + 20 * 60)
               else now in
  let t := Z.max first (Z.max (mtp + 1) now') in
  Pow.GetNextWorkRequired pindexPrev t p = Some bits ->
  CreateNewBlock_header pblock nHeight difficultyForkHeight p pindexPrev
    hashPrev mtp now now'
  = Some (mkHeader (nVersion pblock) hashPrev (hashMerkleRoot pblock) t bits 0)
  /\ (now <= now' -> t = Z.max (mtp + 1) now')
  /\ (Z.max (mtp + 1) now' < first -> t = first).
Proof.
  intros Hm Hm' Hn Hn' first t Hb.
  split; [|split; unfold t, first in *;
             destruct (difficultyForkHeight <=? nHeight); lia].
  unfold CreateNewBlock_header. cbv zeta. fold first.
  assert (Hf : 0 <= first < 2 ^ 32).
  { unfold first. destruct (_ <=? nHeight); lia. }
  rewrite (to_u32_small first) by lia.
  rewrite (UpdateTime_result _ p pindexPrev mtp now' bits);
    cbn [set_hashPrevBlock set_nTime nTime]; [|lia|lia|exact Hb].
  cbn [mbind option_bind]. fold t.
  destruct (Pow.fPowAllowMinDifficultyBlocks p);
    unfold GetBlockTime; cbn; by rewrite Hb.
Qed.

End WithFloatingPoint.

Lemma CreateNewBlock_header_time_witness :
  Pow.GetNextWorkRequired (H := no_decay) chain61 1008100 params_lwma
  = Some 0x1e0fffff /\
  CreateNewBlock_header (H := no_decay) SetNull 61 0 params_lwma chain61 77
    1007000 1008100 1008050
  = Some (mkHeader 0 77 0 1008100 0x1e0fffff 0) /\
  (1008100 <= 1008050 -> 1008100 = Z.max (1007000 + 1) 1008050) /\
  (Z.max (1007000 + 1) 1008050 < 1008100 -> 1008100 = 1008100).
Proof.
  split; [vm_compute; reflexivity|].
  apply (CreateNewBlock_header_time (H := no_decay) SetNull 61 0 params_lwma
           chain61 77 1007000 1008100 1008050 0x1e0fffff);
    [lia | lia | lia | lia | vm_compute; reflexivity].
Defined.

End TemplateProps.

(** * Package selection: accounting and order *)

Module SelectionExtra.
Import Miner Sums MinerSpec SelectionSpec IntFacts SelectionProps.
Local Set Warnings "-clear-no-such-hyp".

Lemma Compare_count_le mp a b :
  CompareTxIterByAncestorCount mp a b = false <-> count_le mp b a.
Proof.
  unfold CompareTxIterByAncestorCount, count_le. cbv zeta.
  destruct (Z.eqb_spec (GetCountWithAncestors (entry mp a))
              (GetCountWithAncestors (entry mp b))) as [E|E]; cbn [negb].
  - destruct (Z.ltb_spec a b);
      (split; [intros ?; first [done | right; lia]
              |intros ?; first [done | lia]]).
  - destruct (Z.ltb_spec (GetCountWithAncestors (entry mp a))
                (GetCountWithAncestors (entry mp b)));
      (split; [intros ?; first [done | lia]|intros ?; first [done | lia]]).
Qed.

Lemma count_le_trans mp a b c :
  count_le mp a b -> count_le mp b c -> count_le mp a c.
Proof. unfold count_le. lia. Qed.

Lemma count_le_total mp a b : count_le mp a b \/ count_le mp b a.
Proof. unfold count_le. lia. Qed.

Lemma insert_by_sorted mp x l :
  StronglySorted (count_le mp) l ->
  StronglySorted (count_le mp) (insert_by (CompareTxIterByAncestorCount mp) x l).
Proof.
  induction l as [|y l IH]; intros Hs; cbn [insert_by].
  { repeat constructor. }
  apply StronglySorted_inv in Hs as [Hs Hy].
  destruct (CompareTxIterByAncestorCount mp y x) eqn:E.
  - constructor; [by apply IH|].
    rewrite (insert_by_perm _ x l). constructor; [|done].
    destruct (count_le_total mp y x) as [?|Hxy]; [done|].
    apply Compare_count_le in Hxy. congruence.
  - apply Compare_count_le in E.
    constructor; [by constructor|]. constructor; [done|].
    eapply Forall_impl; [exact Hy|]. intros z Hz.
    by apply (count_le_trans mp x y z).
Qed.

Lemma SortForBlock_sorted mp (P : gset Z) :
  StronglySorted (count_le mp) (SortForBlock mp P).
Proof.
  unfold SortForBlock. induction (in_order P) as [|x l IH]; cbn [fold_right].
  - constructor.
  - by apply insert_by_sorted.
Qed.

(** In a sorted list, what has a smaller ancestor count comes first. *)
Lemma sorted_before mp l1 x l2 y :
  StronglySorted (count_le mp) (l1 ++ x :: l2) ->
  y ∈ l1 ++ x :: l2 ->
  GetCountWithAncestors (entry mp y) < GetCountWithAncestors (entry mp x) ->
  y ∈ l1.
Proof.
  induction l1 as [|z l1 IH]; cbn [app]; intros Hs Hy Hc.
  - apply StronglySorted_inv in Hs as [_ Hx].
    apply elem_of_cons in Hy as [->|Hy]; [lia|].
    rewrite Forall_forall in Hx. specialize (Hx y Hy).
    unfold count_le in Hx. lia.
  - apply StronglySorted_inv in Hs as [Hs _].
    apply elem_of_cons in Hy as [->|Hy]; [left|].
    right. by apply IH.
Qed.

Lemma AddToBlock_fold_vtx mp l : forall a,
  vtx (fold_left (AddToBlock mp) l a) = vtx a ++ l /\
  nBlockTx (fold_left (AddToBlock mp) l a) = nBlockTx a + Z.of_nat (length l) /\
  nFees (fold_left (AddToBlock mp) l a)
  = nFees a + sumZ (fun it => GetFee (entry mp it)) l /\
  nHeight (fold_left (AddToBlock mp) l a) = nHeight a /\
  nLockTimeCutoff (fold_left (AddToBlock mp) l a) = nLockTimeCutoff a /\
  fIncludeWitness (fold_left (AddToBlock mp) l a) = fIncludeWitness a.
Proof.
  induction l as [|x l IH]; intros a; cbn [fold_left].
  { rewrite app_nil_r. change (sumZ _ []) with 0. cbn [length]. repeat split; lia. }
  destruct (IH (AddToBlock mp a x)) as (E1 & E2 & E3 & E4 & E5 & E6).
  rewrite E1, E2, E3, E4, E5, E6, sumZ_cons.
  cbn [AddToBlock vtx nBlockTx nFees nHeight nLockTimeCutoff fIncludeWitness
       length].
  rewrite <- app_assoc. repeat split; try done; lia.
Qed.

Lemma TestPackageTransactions_true mp a (P : gset Z) it :
  TestPackageTransactions mp a P = true -> it ∈ P ->
  IsFinalTx (entry mp it) (nHeight a) (nLockTimeCutoff a) = true /\
  (fIncludeWitness a = false -> HasWitness (entry mp it) = false).
Proof.
  unfold TestPackageTransactions. rewrite forallb_forall.
  intros Hf Hit. specialize (Hf it).
  rewrite <- list_elem_of_In, elem_of_in_order in Hf.
  specialize (Hf Hit). apply andb_prop in Hf as [-> Hw].
  split; [done|]. intros Hn. rewrite Hn in Hw. cbn in Hw.
  by destruct (HasWitness (entry mp it)).
Qed.

Section Consistent.
Context `{Policy} (mp : CTxMemPool) (Hmp : consistent_mempool mp).

(** The assembler between iterations: its counters account for the
    transactions taken, all of which passed the tests, in an order that
    puts parents first. *)
Lemma evaluate_package_accounted maxW s iter fUsingModified xo mi' :
  policy_ok -> Inv mp maxW s ->
  (fUsingModified = true /\ exists x, xo = Some x /\ mapModifiedTx s !! iter = Some x)
  \/ (fUsingModified = false /\ xo = None /\ iter ∉ inBlock (assembler s)) ->
  accounted mp (assembler s) -> admitted mp (assembler s) ->
  (counts_ancestors mp -> parents_first mp (vtx (assembler s))) ->
  match evaluate_package mp s iter fUsingModified xo mi' with
  | Continue s' | Finished s' =>
      accounted mp (assembler s') /\ admitted mp (assembler s') /\
      (counts_ancestors mp -> parents_first mp (vtx (assembler s'))) /\
      nHeight (assembler s') = nHeight (assembler s) /\
      nLockTimeCutoff (assembler s') = nLockTimeCutoff (assembler s) /\
      fIncludeWitness (assembler s') = fIncludeWitness (assembler s)
  | Aborted => True
  end.
Proof.
  intros [Hpw Hps] HI Hsel Hacc Hadm Hpf.
  pose proof HI as [Hw Hm Hs Hg Hd Hc Hmw].
  set (a := assembler s) in *. set (B := inBlock a) in *.
  assert (HiB : iter ∉ B).
  { destruct Hsel as [(_ & x & _ & Hx)|(_ & _ & ?)]; [|done].
    apply Hd. by eexists. }
  unfold evaluate_package. fold a. fold B.
  rewrite decide_False by done. cbv zeta.
  destruct (_ || _).
  { destruct (_ && _); cbn [fail_package assembler];
      (split; [done|split; [done|split; [done|done]]]). }
  fold (package_of mp iter B). set (P := package_of mp iter B).
  destruct (TestPackageTransactions mp a P) eqn:ET; cbn [negb];
    [|cbn [fail_package assembler];
      (split; [done|split; [done|split; [done|done]]])].
  pose proof (SortForBlock_perm mp P) as Hperm.
  pose proof (size_aggregate mp Hmp iter) as [_ Hlt].
  pose proof (sigops_aggregate mp Hmp iter) as [_ Hlts].
  pose proof (need_size_bounds mp Hmp iter B) as Hns.
  pose proof (need_sigops_bounds mp Hmp iter B) as Hnsig.
  assert (Ewt : sumZ (fun it => GetTxWeight (entry mp it)) (SortForBlock mp P)
                <= 4 * need_size mp iter B).
  { rewrite (sumZ_perm _ _ _ Hperm).
    unfold need_size. rewrite <- (package_sum mp Hmp _ iter B HiB). fold P.
    rewrite <- sumZ_scale. apply sumZ_le. intros y.
    pose proof (weight_le_vsize mp Hmp y). lia. }
  assert (Est : sumZ (fun it => GetSigOpCost (entry mp it)) (SortForBlock mp P)
                = need_sigops mp iter B).
  { rewrite (sumZ_perm _ _ _ Hperm). unfold need_sigops.
    by rewrite <- (package_sum mp Hmp _ iter B HiB). }
  destruct (AddToBlock_fold mp Hmp (SortForBlock mp P) a) as (E1 & E2 & E3 & E4);
    try lia.
  destruct (AddToBlock_fold_vtx mp (SortForBlock mp P) a)
    as (F1 & F2 & F3 & F4 & F5 & F6).
  destruct (UpdatePackagesForAdded mp P _) as [m'' n].
  cbn [assembler].
  destruct Hacc as [An Ai Ac Af Aw As].
  assert (HPB : forall y, y ∈ SortForBlock mp P -> y ∈ P /\ y ∉ list_to_set (C := gset Z) (vtx a)).
  { intros y Hy. rewrite Hperm, elem_of_elements in Hy. split; [done|].
    rewrite <- Ai. fold B. unfold P, package_of in Hy. set_solver. }
  split; [|split; [|split; [|done]]].
  - split.
    + rewrite F1. apply NoDup_app. split; [done|]. split.
      * intros y Hy Hy'. apply HPB in Hy' as [_ Hn]. apply Hn.
        by apply elem_of_list_to_set.
      * rewrite Hperm. apply NoDup_elements.
    + rewrite E3, F1, list_to_set_app_L, Ai. set_solver.
    + rewrite F2, F1, length_app, Ac. lia.
    + rewrite F3, F1, sumZ_app, Af. lia.
    + rewrite E1, F1, sumZ_app, Aw. lia.
    + rewrite E2, F1, sumZ_app, As. lia.
  - intros it. rewrite F1, F4, F5, F6. intros [Hit|Hit]%elem_of_app.
    + by apply Hadm.
    + apply HPB in Hit as [Hit _].
      by apply (TestPackageTransactions_true mp a P).
  - intros Hcnt. specialize (Hpf Hcnt). rewrite F1.
    intros l1 x l2 El.
    assert (Hsplit : (exists l2', vtx a = l1 ++ x :: l2')
                     \/ (exists s1, l1 = vtx a ++ s1
                                    /\ SortForBlock mp P = s1 ++ x :: l2)).
    { clear -El. revert l1 El. generalize (vtx a) as v.
      induction v as [|z v IH]; intros l1 El.
      - right. exists l1. by cbn in *.
      - destruct l1 as [|z' l1]; simpl in El.
        + injection El as -> _. left. by exists v.
        + injection El as <- El. destruct (IH l1 El) as [(l2' & ->)|(s1 & -> & E)].
          * left. by exists l2'.
          * right. by exists s1. }
    destruct Hsplit as [(l2' & Ev)|(s1 & -> & Es)].
    + by apply (Hpf l1 x l2').
    + intros y Hy. rewrite list_to_set_app_L, <- Ai. fold B.
      destruct (decide (y ∈ B)) as [?|HyB]; [set_solver|].
      apply elem_of_union_r, elem_of_list_to_set.
      assert (HxP : x ∈ P).
      { apply (HPB x). rewrite Es. apply elem_of_app. right. left. }
      assert (HyP : y ∈ P).
      { unfold P, package_of in *.
        apply elem_of_union in HxP as [->%elem_of_singleton|Hx].
        - set_solver.
        - apply elem_of_difference in Hx as [Hx _].
          pose proof (ancestors_transitive mp Hmp x iter Hx). set_solver. }
      apply (sorted_before mp s1 x l2 y).
      * rewrite <- Es. apply SortForBlock_sorted.
      * rewrite <- Es, Hperm. by apply elem_of_elements.
      * by apply Hcnt.
Qed.

Lemma evaluate_package_well maxW height cutoff witness s iter fUsingModified
  xo mi' :
  policy_ok -> Inv mp maxW s ->
  (fUsingModified = true /\ exists x, xo = Some x /\ mapModifiedTx s !! iter = Some x)
  \/ (fUsingModified = false /\ xo = None /\ iter ∉ inBlock (assembler s)) ->
  well_assembled mp height cutoff witness (assembler s) ->
  match evaluate_package mp s iter fUsingModified xo mi' with
  | Continue s' | Finished s' =>
      well_assembled mp height cutoff witness (assembler s')
  | Aborted => True
  end.
Proof.
  intros Hp HI Hsel [Ha Hd Ho Hh Hc Hw].
  pose proof (evaluate_package_accounted maxW s iter fUsingModified xo mi'
                Hp HI Hsel Ha Hd Ho) as He.
  destruct (evaluate_package mp s iter fUsingModified xo mi') as [s'|s'|];
    [| |done]; destruct He as (? & ? & ? & E1 & E2 & E3);
    split; try done; congruence.
Qed.

Lemma addPackageTxs_step_well maxW height cutoff witness s :
  policy_ok -> Inv mp maxW s ->
  well_assembled mp height cutoff witness (assembler s) ->
  match addPackageTxs_step mp s with
  | Continue s' | Finished s' =>
      well_assembled mp height cutoff witness (assembler s')
  | Aborted => True
  end.
Proof.
  intros Hp HI Hwa. unfold addPackageTxs_step.
  destruct (mi s) as [|c rest].
  - destruct (decide (mapModifiedTx s = ∅)); [done|].
    destruct (select_entry mp s None []) as [[[[iter fU] xo] mi']|] eqn:E;
      [|done].
    apply (evaluate_package_well maxW); try done.
    apply select_entry_spec in E as [?|(_ & _ & [=])]. by left.
  - destruct (SkipMapTxEntry s c) eqn:Es; [done|].
    destruct (select_entry mp s (Some c) rest) as [[[[iter fU] xo] mi']|] eqn:E;
      [|done].
    apply (evaluate_package_well maxW); try done.
    apply select_entry_spec in E as [?|(-> & -> & [= <-])]; [by left|].
    right. split; [done|]. split; [done|].
    unfold SkipMapTxEntry in Es.
    apply orb_false_iff in Es as [Es _]. apply orb_false_iff in Es as [_ Es].
    by apply bool_decide_eq_false in Es.
Qed.

Lemma addPackageTxs_loop_well maxW height cutoff witness fuel : forall s,
  policy_ok -> Inv mp maxW s ->
  well_assembled mp height cutoff witness (assembler s) ->
  exists s', addPackageTxs_loop fuel mp s = Some s' /\
             well_assembled mp height cutoff witness (assembler s').
Proof.
  induction fuel as [|fuel IH]; intros s Hp HI Hwa; [by exists s|].
  cbn [addPackageTxs_loop].
  pose proof (addPackageTxs_step_Inv mp Hmp maxW s Hp HI) as H1.
  pose proof (addPackageTxs_step_well maxW height cutoff witness s Hp HI Hwa)
    as H2.
  destruct (addPackageTxs_step mp s) as [s'|s'|]; [by apply IH|by exists s'|done].
Qed.

Lemma well_assembled_init opt height cutoff witness :
  well_assembled mp height cutoff witness
    (assembler (addPackageTxs_init mp
                  (BlockAssembler_new opt height cutoff witness))).
Proof.
  unfold addPackageTxs_init.
  destruct (UpdatePackagesForAdded mp _ ∅) as [m n]. cbn [assembler].
  split; try done.
  - split; try done. apply NoDup_nil_2.
  - intros it Hit. cbn in Hit. by apply elem_of_nil in Hit.
  - intros _ l1 x l2 El. cbn in El. by destruct l1.
Qed.

(** X29. On a consistent mempool, what [addPackageTxs] leaves in the block
    assembler is accounted for: the transactions are distinct and are
    exactly the set [inBlock]; the count, the fees, the weight (above the
    4000 reserved for the coinbase) and the signature operations (above
    400) are the sums over them.  Each one is final at the block's height
    and lock-time cutoff, has no witness when witnesses are excluded, and
    has all its mempool ancestors in the block. *)
Theorem addPackageTxs_accounts_for_what_it_takes opt height cutoff witness
  fuel :
  policy_ok ->
  exists s,
    addPackageTxs fuel mp (BlockAssembler_new opt height cutoff witness)
    = Some s /\
    accounted mp (assembler s) /\
    (forall it, it ∈ vtx (assembler s) ->
       IsFinalTx (entry mp it) height cutoff = true /\
       (witness = false -> HasWitness (entry mp it) = false)) /\
    (forall it, it ∈ vtx (assembler s) ->
       CalculateMemPoolAncestors mp it ⊆ list_to_set (vtx (assembler s))).
Proof.
  intros Hp. unfold addPackageTxs.
  pose proof (Inv_init mp opt height cutoff witness Hp) as HI.
  pose proof (well_assembled_init opt height cutoff witness) as Hwa.
  set (s0 := addPackageTxs_init mp _) in *.
  set (maxW := nBlockMaxWeight _) in *.
  destruct (addPackageTxs_loop_Inv mp Hmp maxW fuel s0 Hp HI) as (s1 & E1 & HI1).
  destruct (addPackageTxs_loop_well maxW height cutoff witness fuel s0 Hp HI Hwa)
    as (s & E & [Ha Hd Ho Hh Hc Hw]).
  rewrite E in E1. injection E1 as <-.
  exists s. split; [done|]. split; [done|]. split.
  - intros it Hit. destruct (Hd it Hit) as [Hf Hwt].
    rewrite Hh, Hc in Hf. rewrite Hw in Hwt. done.
  - intros it Hit. rewrite <- (acc_inBlock mp _ Ha).
    apply (inv_closed mp maxW s HI1). rewrite (acc_inBlock mp _ Ha).
    by apply elem_of_list_to_set.
Qed.

(** X30. When the mempool's ancestor counts are those of its ancestor sets,
    [addPackageTxs] puts each transaction after all its ancestors: any
    ancestor of a transaction of the block stands at an earlier position. *)
Theorem addPackageTxs_puts_parents_first opt height cutoff witness fuel :
  policy_ok -> counts_ancestors mp ->
  exists s,
    addPackageTxs fuel mp (BlockAssembler_new opt height cutoff witness)
    = Some s /\
    parents_first mp (vtx (assembler s)) /\
    (forall i j x y,
       vtx (assembler s) !! i = Some x -> vtx (assembler s) !! j = Some y ->
       y ∈ CalculateMemPoolAncestors mp x -> (j < i)%nat).
Proof.
  intros Hp Hcnt. unfold addPackageTxs.
  pose proof (Inv_init mp opt height cutoff witness Hp) as HI.
  pose proof (well_assembled_init opt height cutoff witness) as Hwa.
  set (s0 := addPackageTxs_init mp _) in *.
  set (maxW := nBlockMaxWeight _) in *.
  destruct (addPackageTxs_loop_well maxW height cutoff witness fuel s0 Hp HI Hwa)
    as (s & E & [Ha Hd Ho Hh Hc Hw]).
  exists s. split; [done|]. specialize (Ho Hcnt). split; [done|].
  intros i j x y Hi Hj Hy.
  pose proof (take_drop_middle _ _ _ Hi) as El. symmetry in El.
  specialize (Ho _ _ _ El y Hy).
  apply elem_of_list_to_set, list_elem_of_lookup in Ho as [j' Hj'].
  pose proof (lookup_lt_Some _ _ _ Hj') as Hlt.
  rewrite length_take in Hlt.
  rewrite lookup_take_lt in Hj' by lia.
  assert (j = j') by (eapply NoDup_lookup; [apply (acc_nodup mp _ Ha)|done..]).
  lia.
Qed.

End Consistent.

Lemma sample_counts_ancestors : counts_ancestors sample_mempool.
Proof.
  intros a b. unfold sample_mempool. cbn.
  destruct (Z.eqb_spec b 2) as [->|_]; [|set_solver].
  intros ->%elem_of_singleton. vm_compute. reflexivity.
Qed.

Lemma addPackageTxs_accounts_for_what_it_takes_witness :
  consistent_mempool sample_mempool /\
  policy_ok (H := sample_policy) /\
  exists s,
    addPackageTxs (H := sample_policy) 10 sample_mempool
      (BlockAssembler_new (H := sample_policy) 3996000 100 0 true) = Some s /\
    accounted sample_mempool (assembler s) /\
    (forall it, it ∈ vtx (assembler s) ->
       IsFinalTx (entry sample_mempool it) 100 0 = true /\
       (true = false -> HasWitness (entry sample_mempool it) = false)) /\
    (forall it, it ∈ vtx (assembler s) ->
       CalculateMemPoolAncestors sample_mempool it
       ⊆ list_to_set (vtx (assembler s))).
Proof.
  split; [exact sample_mempool_consistent|].
  split; [exact sample_policy_ok|].
  exact (addPackageTxs_accounts_for_what_it_takes (H := sample_policy)
           sample_mempool sample_mempool_consistent 3996000 100 0 true 10
           sample_policy_ok).
Defined.

Lemma addPackageTxs_puts_parents_first_witness :
  consistent_mempool sample_mempool /\
  policy_ok (H := sample_policy) /\
  counts_ancestors sample_mempool /\
  exists s,
    addPackageTxs (H := sample_policy) 10 sample_mempool
      (BlockAssembler_new (H := sample_policy) 3996000 100 0 true) = Some s /\
    parents_first sample_mempool (vtx (assembler s)) /\
    (forall i j x y,
       vtx (assembler s) !! i = Some x -> vtx (assembler s) !! j = Some y ->
       y ∈ CalculateMemPoolAncestors sample_mempool x -> (j < i)%nat).
Proof.
  split; [exact sample_mempool_consistent|].
  split; [exact sample_policy_ok|].
  split; [exact sample_counts_ancestors|].
  exact (addPackageTxs_puts_parents_first (H := sample_policy)
           sample_mempool sample_mempool_consistent 3996000 100 0 true 10
           sample_policy_ok sample_counts_ancestors).
Defined.

End SelectionExtra.

